(** * RWJigsaw: a random-walk jigsaw generator

    A shallow embedding of [src/__init__.py] (classes [Dot] and [Jigsaw])
    and the verification of its growth engine: construction and border
    masks, seeding, the generation step, the convergence loop and the
    completion pass.

    Conventions of the embedding.
    - Python integers are [Z]; a coordinate is a pair [Z * Z].
    - The numpy object array [self.jigsaw] is a finite map from index
      pairs to cells.  A Python reference to a [Dot] stored in the array is
      the key of that cell, so that two references to the same object
      alias in the model as they do in the program.
    - numpy indexing is [getitem]: an index in [-R, R) is accepted, a
      negative one counts from the end, anything else raises [IndexError].
    - The global numpy random source is an explicit [Rng] threaded through
      the operations: an arbitrary sequence of naturals and a cursor.
    - Floating point: the comparisons [np.random.rand() < grow_prop],
      [dist < min_dist] and [np.sqrt(..) > self.res/2 - 1.1] are taken in
      exact arithmetic over the rationals (square roots are compared
      through squares).
    - [print] output is not part of the state; [steps] returns the report
      it prints.
    - The reporting functions return what they hand to their libraries:
      [show] the calls of [plt.plot] it makes, [export] the paths and
      circles it adds to the SVG drawing (the colour map is kept
      symbolic), [_draw_arc] the parameters of its path; [count] returns
      its dictionary.  [cmap_to_hex] is computed in exact arithmetic. *)

From Stdlib Require Import ZArith QArith Reals Qreals Psatz String Ascii.
From stdpp Require Import gmap list.

#[local] Set Warnings "-clear-no-such-hyp".

Local Open Scope Z_scope.

(** ** Exceptions *)

Inductive exn := IndexError | ValueError.

Inductive result (A : Type) : Type :=
| Ok (a : A)
| Raise (e : exn).
Arguments Ok {A} a.
Arguments Raise {A} e.

#[global] Instance result_ret : MRet result := fun A a => Ok a.
#[global] Instance result_bind : MBind result := fun A B f m =>
  match m with
  | Ok a => f a
  | Raise e => Raise e
  end.

Definition returns {A} (m : result A) : Prop := ∃ a, m = Ok a.

(** [for x in l: body] over a state that may raise. *)
Fixpoint for_each {A S : Type} (l : list A) (body : A → S → result S) (s : S)
  : result S :=
  match l with
  | [] => Ok s
  | x :: l' => s' ← body x s; for_each l' body s'
  end.

(** [range(n)] and [range(a, b)]. *)
Definition range (n : Z) : list Z := seqZ 0 n.
Definition range2 (a b : Z) : list Z := seqZ a (b - a).

(** ** The random source *)

Record Rng := mkRng { source : N → N; cursor : N }.

Definition draw (g : Rng) : N * Rng :=
  (source g (cursor g), mkRng (source g) (N.succ (cursor g))).

(** A uniform integer of [[0, n)], for [0 < n]. *)
Definition randbelow (n : Z) (g : Rng) : Z * Rng :=
  let (x, g) := draw g in (Z.of_N x mod n, g).

(** [np.random.rand()]: a number of [[0, 1)]. *)
Definition rand (g : Rng) : Q * Rng :=
  let (a, g) := draw g in
  let (b, g) := draw g in
  (Z.of_N (a mod N.succ b) # N.succ_pos b, g).

(** [tuple(np.random.choice(a, 2))] for an integer [a]. *)
Definition choice_pair (a : Z) (g : Rng) : result ((Z * Z) * Rng) :=
  if a <=? 0 then Raise ValueError
  else
    let (i, g) := randbelow a g in
    let (j, g) := randbelow a g in
    Ok ((i, j), g).

(** [np.random.choice(arr, 1)[0]] for a one-dimensional array [arr]. *)
Definition choice_of (arr : list Z) (g : Rng) : result (Z * Rng) :=
  match arr with
  | [] => Raise ValueError
  | x :: _ =>
      let (k, g) := randbelow (Z.of_nat (length arr)) g in
      Ok (nth (Z.to_nat k) arr x, g)
  end.

(** [np.random.shuffle(l)]: the list is replaced by a permutation of
    itself chosen by the random source (each element is inserted at a
    random position among those already placed). *)
Fixpoint shuffle {A} (l : list A) (g : Rng) : list A * Rng :=
  match l with
  | [] => ([], g)
  | x :: l' =>
      let (l'', g) := shuffle l' g in
      let (k, g) := randbelow (Z.of_nat (length l'') + 1) g in
      (take (Z.to_nat k) l'' ++ x :: drop (Z.to_nat k) l'', g)
  end.

(** ** Cells *)

Record Dot := mkDot {
  color : option Z;
  active : bool;
  empty : bool;
  coords : Z * Z;
  free_neighbors : list Z;
  bonds : list Z;
  neighbors : list (Z * Z)
}.

Definition shifts : list (Z * Z) := [(1, 1); (-1, 1); (-1, -1); (1, -1)].

Definition add_coord (p shift : Z * Z) : Z * Z := (p.1 + shift.1, p.2 + shift.2).

(** [Dot.__init__(i, j)] *)
Definition Dot_init (i j : Z) : Dot :=
  {| color := None;
     active := true;
     empty := true;
     coords := (i, j);
     free_neighbors := [];
     bonds := [];
     neighbors := add_coord (i, j) <$> shifts |}.

#[global] Instance Dot_inhabited : Inhabited Dot := populate (Dot_init 0 0).

Definition set_color (c : option Z) (d : Dot) : Dot :=
  mkDot c (active d) (empty d) (coords d) (free_neighbors d) (bonds d) (neighbors d).
Definition set_active (b : bool) (d : Dot) : Dot :=
  mkDot (color d) b (empty d) (coords d) (free_neighbors d) (bonds d) (neighbors d).
Definition set_empty (b : bool) (d : Dot) : Dot :=
  mkDot (color d) (active d) b (coords d) (free_neighbors d) (bonds d) (neighbors d).
Definition set_free_neighbors (l : list Z) (d : Dot) : Dot :=
  mkDot (color d) (active d) (empty d) (coords d) l (bonds d) (neighbors d).
Definition set_bonds (l : list Z) (d : Dot) : Dot :=
  mkDot (color d) (active d) (empty d) (coords d) (free_neighbors d) l (neighbors d).

(** [get_color(Dot)] *)
Definition get_color (d : Dot) : option Z :=
  if empty d then
    if negb (active d) then Some (-1) else Some 0
  else color d.

(** ** The grid *)

Record Jigsaw := mkJigsaw {
  res : Z;
  num_pieces : Z;
  jigsaw : gmap (Z * Z) Dot;
  active_cells : list (Z * Z)
}.

Definition set_num_pieces (n : Z) (s : Jigsaw) : Jigsaw :=
  mkJigsaw (res s) n (jigsaw s) (active_cells s).
Definition set_jigsaw (m : gmap (Z * Z) Dot) (s : Jigsaw) : Jigsaw :=
  mkJigsaw (res s) (num_pieces s) m (active_cells s).
Definition set_active_cells (l : list (Z * Z)) (s : Jigsaw) : Jigsaw :=
  mkJigsaw (res s) (num_pieces s) (jigsaw s) l.

(** One axis of a numpy index into a dimension of size [n]. *)
Definition norm_index (n i : Z) : result Z :=
  if (- n <=? i) && (i <? n) then Ok (if i <? 0 then i + n else i)
  else Raise IndexError.

(** [self.jigsaw[idx]]: the reference (key) of the addressed cell. *)
Definition getitem (s : Jigsaw) (idx : Z * Z) : result (Z * Z) :=
  i ← norm_index (res s) idx.1;
  j ← norm_index (res s) idx.2;
  Ok (i, j).

(** The object behind a reference. *)
Definition cell (s : Jigsaw) (k : Z * Z) : Dot := jigsaw s !!! k.

(** Mutation of the object behind a reference. *)
Definition modify (k : Z * Z) (f : Dot → Dot) (s : Jigsaw) : Jigsaw :=
  set_jigsaw (<[k := f (cell s k)]> (jigsaw s)) s.

(** [self.jigsaw[x, y].active = False; self.jigsaw[x, y].empty = False] *)
Definition wall (s : Jigsaw) (idx : Z * Z) : result Jigsaw :=
  k ← getitem s idx;
  let s := modify k (set_active false) s in
  k ← getitem s idx;
  Ok (modify k (set_empty false) s).

(** [Jigsaw.border_mask] *)
Definition border_mask (s : Jigsaw) : result Jigsaw :=
  for_each (range (res s))
    (λ i s, for_each [(i, 0); (i, -1); (0, i); (-1, i)] (λ xy s, wall s xy) s) s.

(** The test [np.sqrt(v) > t], in exact arithmetic, for [0 <= v]. *)
Definition sqrt_gt (v t : Q) : bool :=
  negb (Qle_bool 0 t) || negb (Qle_bool v (t * t)).

(** The test [np.sqrt(v) < t], in exact arithmetic, for [0 <= v]. *)
Definition sqrt_lt (v t : Q) : bool :=
  negb (Qle_bool t 0) && negb (Qle_bool (t * t) v).

(** The displacement of index [i] from the centre and the mask's radius. *)
Definition centred (R i : Z) : Q := (inject_Z i - inject_Z R / 2 + 1 / 2)%Q.
Definition mask_radius (R : Z) : Q := (inject_Z R / 2 - 11 / 10)%Q.

Definition outside_circle (R i j : Z) : bool :=
  let x := centred R i in
  let y := centred R j in
  sqrt_gt (x ^ 2 + y ^ 2)%Q (mask_radius R).

(** [Jigsaw.circle_mask] *)
Definition circle_mask (s : Jigsaw) : result Jigsaw :=
  for_each (range (res s))
    (λ i s, for_each (range (res s))
       (λ j s, if outside_circle (res s) i j then wall s (i, j) else Ok s) s) s.

(** The array filled by the two loops of [Jigsaw.__init__]. *)
Definition fresh_cells (R : Z) : gmap (Z * Z) Dot :=
  foldl (λ g i, foldl (λ g j, <[(i, j) := Dot_init i j]> g) g (range R))
        ∅ (range R).

(** The object after the first statements of [Jigsaw.__init__], before
    the mask. *)
Definition fresh_grid (R : Z) : Jigsaw := mkJigsaw R 0 (fresh_cells R) [].

(** [Jigsaw.__init__(res, bordertype)]; [np.zeros] refuses a negative
    dimension. *)
Definition Jigsaw_init (res0 : Z) (bordertype : string) : result Jigsaw :=
  let R := res0 + 2 in
  if R <? 0 then Raise ValueError
  else
    let self := fresh_grid R in
    if String.eqb bordertype "circ" then circle_mask self
    else border_mask self.

(** ** Seeding *)

(** A local variable holding a [Dot]: an object of its own, or a cell of
    the array. *)
Inductive ref :=
| Local (d : Dot)
| Stored (k : Z * Z).

Definition deref (s : Jigsaw) (r : ref) : Dot :=
  match r with
  | Local d => d
  | Stored k => cell s k
  end.

Definition sq_dist (p q : Z * Z) : Z := (p.1 - q.1) ^ 2 + (p.2 - q.2) ^ 2.

(** The inner [for p in self.active_cells] loop of [initiate_pieces]:
    is [index] at distance less than [min_dist] of an active cell? *)
Definition too_close (index : Z * Z) (min_dist : Q) (s : Jigsaw) : bool :=
  existsb (λ p, sqrt_lt (inject_Z (sq_dist index p)) min_dist) (active_cells s).

Definition unclaimed (d : Dot) : bool := empty d && active d.

(** [d.color = c; d.empty = False; self.active_cells.append(d.coords)]
    for the cell referenced by [k]. *)
Definition place (c : Z) (k : Z * Z) (s : Jigsaw) : Jigsaw :=
  let s := modify k (set_color (Some c)) s in
  let s := modify k (set_empty false) s in
  set_active_cells (active_cells s ++ [coords (cell s k)]) s.

(** How an iteration of a loop ends: [continue] (or the end of the body)
    with the loop's locals, or [break] with the result. *)
Inductive flow (A B : Type) : Type :=
| Continue (a : A)
| Break (b : B).
Arguments Continue {A B} a.
Arguments Break {A B} b.

(** The body of the [while] loop of [initiate_pieces] for piece [c], with
    the local [d]. *)
Definition seed_attempt (c : Z) (min_dist : Q) (d : ref)
    (s : Jigsaw) (g : Rng) : result (flow ref Jigsaw * Rng) :=
  '(index, g) ← choice_pair (res s) g;
  if too_close index min_dist s then Ok (Continue d, g)
  else
    k ← getitem s index;
    let d := Stored k in
    if unclaimed (deref s d) then Ok (Break (place c k s), g)
    else Ok (Continue d, g).

(** The [while not (d.empty and d.active) and n < 1000] loop for piece
    [c]; [budget] is [1000 - n]. *)
Fixpoint seed_loop (budget : nat) (c : Z) (min_dist : Q) (d : ref)
    (s : Jigsaw) (g : Rng) : result (Jigsaw * Rng) :=
  match budget with
  | O => Ok (s, g)
  | S budget =>
      if negb (unclaimed (deref s d)) then
        '(r, g) ← seed_attempt c min_dist d s g;
        match r with
        | Continue d => seed_loop budget c min_dist d s g
        | Break s => Ok (s, g)
        end
      else Ok (s, g)
  end.

(** The body of [for c in range(1, self.num_pieces+1)]. *)
Definition seed_piece (min_dist : Q) (c : Z) (sg : Jigsaw * Rng)
  : result (Jigsaw * Rng) :=
  let (s, g) := sg in
  let d := Local (set_empty false (Dot_init 0 0)) in
  seed_loop 1000 c min_dist d s g.

(** [Jigsaw.initiate_pieces(num_pieces, min_dist)] *)
Definition initiate_pieces (num_pieces0 : Z) (min_dist : Q)
    (s : Jigsaw) (g : Rng) : result (Jigsaw * Rng) :=
  let s := set_num_pieces num_pieces0 s in
  for_each (range2 1 (num_pieces s + 1)) (seed_piece min_dist) (s, g).

(** ** The generation step *)

(** [l[i]] on a Python list. *)
Definition py_index {A} (l : list A) (i : Z) : result A :=
  k ← norm_index (Z.of_nat (length l)) i;
  match l !! Z.to_nat k with
  | Some x => Ok x
  | None => Raise IndexError
  end.

Definition enumerate {A} (l : list A) : list (Z * A) :=
  zip (range (Z.of_nat (length l))) l.

Definition mem (x : Z) (l : list Z) : bool := bool_decide (x ∈ l).

(** [d.free_neighbors = d.free_neighbors[d.free_neighbors != x]] *)
Definition drop_free (x : Z) (d : Dot) : Dot :=
  set_free_neighbors (filter (λ v, v ≠ x) (free_neighbors d)) d.

Definition push_free (i : Z) (d : Dot) : Dot :=
  set_free_neighbors (free_neighbors d ++ [i]) d.

Definition push_bond (k : Z) (d : Dot) : Dot :=
  set_bonds (bonds d ++ [k]) d.

(** The body of [for i, n in enumerate(d.neighbors)]. *)
Definition scan_body (d : Z * Z) (i_n : Z * (Z * Z)) (s : Jigsaw)
  : result Jigsaw :=
  let (i, n) := i_n in
  k ← getitem s n;
  if empty (cell s k) then Ok (modify d (push_free i) s) else Ok s.

(** The first half of the loop body of [step], for the cell referenced by
    [d]: the neighbours that are free and not blocked by a bond are left
    in [d.free_neighbors]. *)
Definition find_free (d : Z * Z) (s : Jigsaw) : result Jigsaw :=
  let s := modify d (set_free_neighbors []) s in
  s ← for_each (enumerate (neighbors (cell s d))) (scan_body d) s;
  upper_n ← getitem s (add_coord (coords (cell s d)) (0, 1));
  lower_n ← getitem s (add_coord (coords (cell s d)) (0, -1));
  let s := if mem 3 (bonds (cell s upper_n)) then modify d (drop_free 0) s else s in
  let s := if mem 2 (bonds (cell s upper_n)) then modify d (drop_free 1) s else s in
  let s := if mem 1 (bonds (cell s lower_n)) then modify d (drop_free 2) s else s in
  let s := if mem 0 (bonds (cell s lower_n)) then modify d (drop_free 3) s else s in
  Ok s.

Definition Qltb (a b : Q) : bool := negb (Qle_bool b a).

(** The claim of the neighbour [nb_idx] of [d]. *)
Definition grow (d : Z * Z) (nb_idx : Z) (s : Jigsaw) : result Jigsaw :=
  n ← py_index (neighbors (cell s d)) nb_idx;
  newlink ← getitem s n;
  let s := modify newlink (set_color (color (cell s d))) s in
  let s := modify newlink (set_active true) s in
  let s := modify newlink (set_empty false) s in
  let s := modify newlink (push_bond ((nb_idx + 2) mod 4)) s in
  let s := modify d (push_bond nb_idx) s in
  Ok s.

(** The state of the loop of [step]: the grid, the random source and
    [new_active_cells]. *)
Definition loop_state : Type := Jigsaw * Rng * list (Z * Z).

(** The body of [for coo in self.active_cells]. *)
Definition step_cell (grow_prop : Q) (coo : Z * Z) (st : loop_state)
  : result loop_state :=
  let '(s, g, new_active_cells) := st in
  d ← getitem s coo;
  s ← find_free d s;
  match free_neighbors (cell s d) with
  | [] => Ok (modify d (set_active false) s, g, new_active_cells)
  | _ =>
      '(nb_idx, g) ← choice_of (free_neighbors (cell s d)) g;
      let (r, g) := rand g in
      if Qltb r grow_prop then
        s ← grow d nb_idx s;
        n ← py_index (neighbors (cell s d)) nb_idx;
        Ok (s, g, new_active_cells ++ [n] ++ [coo])
      else Ok (s, g, new_active_cells ++ [coo])
  end.

(** [Jigsaw.step(grow_prop)] *)
Definition step (grow_prop : Q) (s : Jigsaw) (g : Rng) : result (Jigsaw * Rng) :=
  let (l, g) := shuffle (active_cells s) g in
  let s := set_active_cells l s in
  '(s, g, new_active_cells) ← for_each (active_cells s) (step_cell grow_prop) (s, g, []);
  Ok (set_active_cells new_active_cells s, g).

(** ** The convergence loop *)

(** What [steps] prints. *)
Inductive report :=
| Converged (at_step : Z)
| DidNotConverge (budget : Z).

(** [for _ in range(steps): ... else: ...] *)
Fixpoint steps_loop (grow_prop : Q) (budget : Z) (l : list Z)
    (s : Jigsaw) (g : Rng) : result (Jigsaw * Rng * report) :=
  match l with
  | [] => Ok (s, g, DidNotConverge budget)
  | i :: l' =>
      '(s, g) ← step grow_prop s g;
      match active_cells s with
      | [] => Ok (s, g, Converged i)
      | _ => steps_loop grow_prop budget l' s g
      end
  end.

(** [Jigsaw.steps(steps, grow_prop)] *)
Definition steps (budget : Z) (grow_prop : Q) (s : Jigsaw) (g : Rng)
  : result (Jigsaw * Rng * report) :=
  steps_loop grow_prop budget (range budget) s g.

(** ** Completion *)

Definition filler_color : Z := 1000.

(** The body of the two loops of [complete]. *)
Definition complete_cell (ij : Z * Z) (sg : Jigsaw * Rng) : result (Jigsaw * Rng) :=
  let (s, g) := sg in
  d ← getitem s ij;
  if unclaimed (cell s d) then
    let s := modify d (set_empty false) s in
    let s := modify d (set_color (Some filler_color)) s in
    let s := set_active_cells (active_cells s ++ [ij]) s in
    '(s, g, _) ← steps 1000 1 s g;
    Ok (s, g)
  else Ok (s, g).

(** [Jigsaw.complete()] *)
Definition complete (s : Jigsaw) (g : Rng) : result (Jigsaw * Rng) :=
  for_each (range (res s))
    (λ i sg, for_each (range (res sg.1)) (λ j sg, complete_cell (i, j) sg) sg)
    (s, g).

(** ** Vocabulary of the specification *)

(** The cells of a grid of side [R] and its outermost ring. *)
Definition in_grid (R : Z) (p : Z * Z) : Prop := 0 ≤ p.1 < R ∧ 0 ≤ p.2 < R.
Definition interior (R : Z) (p : Z * Z) : Prop :=
  1 ≤ p.1 ≤ R - 2 ∧ 1 ≤ p.2 ≤ R - 2.
Definition on_border (R : Z) (p : Z * Z) : Prop :=
  p.1 = 0 ∨ p.1 = R - 1 ∨ p.2 = 0 ∨ p.2 = R - 1.

(** All indices of the array, in row-major order. *)
Definition grid_keys (R : Z) : list (Z * Z) :=
  i ← range R; (λ j, (i, j)) <$> range R.

(** A walled cell, and what walling does to a cell. *)
Definition walled (d : Dot) : Prop := active d = false ∧ empty d = false.
Definition wall_dot (d : Dot) : Dot := set_empty false (set_active false d).

(** The diagonal direction of a bond index. *)
Definition shift_of (k : Z) : Z * Z := shifts !!! Z.to_nat k.


(** The operations a caller can run on a grid, and the grids a simulation
    can be in: a constructed grid followed by any operations in any order,
    with any parameters and any outcome of the random draws. *)
Inductive operation (s s' : Jigsaw) : Prop :=
| op_initiate_pieces n min_dist g g' :
    initiate_pieces n min_dist s g = Ok (s', g') → operation s s'
| op_step grow_prop g g' :
    step grow_prop s g = Ok (s', g') → operation s s'
| op_steps budget grow_prop g g' r :
    steps budget grow_prop s g = Ok (s', g', r) → operation s s'
| op_complete g g' :
    complete s g = Ok (s', g') → operation s s'.

Inductive reachable : Jigsaw → Prop :=
| reach_init res0 bordertype s :
    Jigsaw_init res0 bordertype = Ok s → reachable s
| reach_op s s' :
    reachable s → operation s s' → reachable s'.

(** The structural invariant of the array. *)
Record grid_ok (s : Jigsaw) : Prop := {
  ok_res : 0 ≤ res s;
  ok_dom : ∀ p, is_Some (jigsaw s !! p) ↔ in_grid (res s) p;
  ok_coords : ∀ p, in_grid (res s) p → coords (cell s p) = p;
  ok_neighbors : ∀ p, in_grid (res s) p →
    neighbors (cell s p) = add_coord p <$> shifts;
  ok_border : ∀ p, in_grid (res s) p → ¬ interior (res s) p →
    empty (cell s p) = false;
  ok_empty : ∀ p, empty (cell s p) = true →
    active (cell s p) = true ∧ color (cell s p) = None ∧ bonds (cell s p) = [];
  ok_color : ∀ p c, color (cell s p) = Some c → 1 ≤ c;
  ok_bonds : ∀ p k, k ∈ bonds (cell s p) →
    0 ≤ k < 4 ∧ ((k + 2) mod 4) ∈ bonds (cell s (add_coord p (shift_of k)))
}.

(** The coordinates of a list all name claimed cells off the border. *)
Definition cells_ok (s : Jigsaw) (l : list (Z * Z)) : Prop :=
  ∀ p, p ∈ l → interior (res s) p ∧ empty (cell s p) = false.

Definition Inv (s : Jigsaw) : Prop := grid_ok s ∧ cells_ok s (active_cells s).

(** What never changes once it holds: the side, a claim, a colour, a bond. *)
Record extends (s s' : Jigsaw) : Prop := {
  ext_res : res s' = res s;
  ext_empty : ∀ p, empty (cell s p) = false → empty (cell s' p) = false;
  ext_color : ∀ p c, color (cell s p) = Some c → color (cell s' p) = Some c;
  ext_bonds : ∀ p k, k ∈ bonds (cell s p) → k ∈ bonds (cell s' p)
}.

(** [s] is [s0] with the cells of [W] walled and nothing else changed. *)
Definition masked (W : Z * Z → Prop) (s0 s : Jigsaw) : Prop :=
  res s = res s0 ∧ num_pieces s = num_pieces s0 ∧
  active_cells s = active_cells s0 ∧
  (∀ p, is_Some (jigsaw s !! p) ↔ is_Some (jigsaw s0 !! p)) ∧
  ∀ p, (W p → cell s p = wall_dot (cell s0 p)) ∧
       (cell s p = cell s0 p ∨ (W p ∧ cell s p = wall_dot (cell s0 p))).

(** The cell a numpy index addresses in a grid of side [R]. *)
Definition wrap (R : Z) (idx : Z * Z) : Z * Z :=
  ((if idx.1 <? 0 then idx.1 + R else idx.1),
   (if idx.2 <? 0 then idx.2 + R else idx.2)).

Definition valid_index (R : Z) (idx : Z * Z) : Prop :=
  - R ≤ idx.1 < R ∧ - R ≤ idx.2 < R.

(** The Euclidean distance of the cell [(i, j)] from the centre of a grid
    of side [n], as [circle_mask] measures it. *)
Definition centre_distance (n i j : Z) : R :=
  sqrt ((IZR i - IZR n / 2 + 1 / 2) ^ 2 + (IZR j - IZR n / 2 + 1 / 2) ^ 2)%R.

(** The cells a border type walls in a grid of side [n]. *)
Definition mask_of (bordertype : string) (n : Z) (p : Z * Z) : Prop :=
  if String.eqb bordertype "circ" then outside_circle n p.1 p.2 = true
  else on_border n p.

(** The bond-blocking rule in the words of the specification: a bond at
    index 3 or 2 of the upper neighbour blocks direction 0 or 1, a bond at
    index 1 or 0 of the lower neighbour blocks direction 2 or 3. *)
Definition blocked (upper_bonds lower_bonds : list Z) (i : Z) : Prop :=
  (i = 0 ∧ 3 ∈ upper_bonds) ∨ (i = 1 ∧ 2 ∈ upper_bonds) ∨
  (i = 2 ∧ 1 ∈ lower_bonds) ∨ (i = 3 ∧ 0 ∈ lower_bonds).

(** The cells above and below the cell referenced by [d]. *)
Definition upper_of (s : Jigsaw) (d : Z * Z) : Z * Z :=
  wrap (res s) (add_coord (coords (cell s d)) (0, 1)).
Definition lower_of (s : Jigsaw) (d : Z * Z) : Z * Z :=
  wrap (res s) (add_coord (coords (cell s d)) (0, -1)).

(** The indices of the neighbours of [d] that are empty, in order. *)
Definition scan_free (s : Jigsaw) (d : Z * Z) : list Z :=
  fst <$> List.filter (λ i_n, empty (cell s (wrap (res s) i_n.2)))
            (enumerate (neighbors (cell s d))).

Definition unblock (c : bool) (x : Z) (l : list Z) : list Z :=
  if c then filter (λ v, v ≠ x) l else l.

(** What [find_free] leaves in [d.free_neighbors]. *)
Definition free_list (s : Jigsaw) (d : Z * Z) : list Z :=
  let up := bonds (cell s (upper_of s d)) in
  let lo := bonds (cell s (lower_of s d)) in
  unblock (mem 0 lo) 3 (unblock (mem 1 lo) 2
    (unblock (mem 2 up) 1 (unblock (mem 3 up) 0 (scan_free s d)))).

(** What a claim does to the cell [q] claimed from the cell [d] through
    direction [k], and to the grid. *)
Definition claim_dot (c : option Z) (k : Z) (q : Dot) : Dot :=
  push_bond ((k + 2) mod 4) (set_empty false (set_active true (set_color c q))).

Definition claim_state (d q : Z * Z) (k : Z) (s : Jigsaw) : Jigsaw :=
  modify d (push_bond k) (modify q (claim_dot (color (cell s d)) k) s).

(** The grid after [find_free] on the cell [coo]. *)
Definition found (s : Jigsaw) (coo : Z * Z) : Jigsaw :=
  modify coo (set_free_neighbors (free_list s coo)) s.

(** The three ways the body of the loop of [step] can end for the cell
    [coo]: no free neighbour is left and the cell is deactivated; a free
    neighbour is drawn and claimed; a free neighbour is drawn and the
    cell does not grow. *)
Inductive cell_outcome (grow_prop : Q) (coo : Z * Z) (s : Jigsaw) (g : Rng)
    (new_active_cells : list (Z * Z)) : loop_state → Prop :=
| out_deactivate :
    free_list s coo = [] →
    cell_outcome grow_prop coo s g new_active_cells
      (modify coo (set_active false) (found s coo), g, new_active_cells)
| out_grow k g1 r g2 :
    choice_of (free_list s coo) g = Ok (k, g1) →
    rand g1 = (r, g2) →
    Qltb r grow_prop = true →
    cell_outcome grow_prop coo s g new_active_cells
      (claim_state coo (add_coord coo (shift_of k)) k (found s coo), g2,
       new_active_cells ++ [add_coord coo (shift_of k)] ++ [coo])
| out_stay k g1 r g2 :
    choice_of (free_list s coo) g = Ok (k, g1) →
    rand g1 = (r, g2) →
    Qltb r grow_prop = false →
    cell_outcome grow_prop coo s g new_active_cells
      (found s coo, g2, new_active_cells ++ [coo]).

(** The random source after [n] more draws. *)
Definition skip (n : N) (g : Rng) : Rng := mkRng (source g) (cursor g + n)%N.

(** The [i]-th coordinate (from 0) that the seeder samples from [g] in a
    grid of side [R]. *)
Definition sample (R : Z) (g : Rng) (i : nat) : Z * Z :=
  (Z.of_N (source g (cursor g + 2 * N.of_nat i)%N) mod R,
   Z.of_N (source g (cursor g + 2 * N.of_nat i + 1)%N) mod R).

(** A sampled coordinate the seeder accepts: not too close to an active
    cell, and addressing an unclaimed cell that is not walled. *)
Definition acceptable (min_dist : Q) (s : Jigsaw) (p : Z * Z) : bool :=
  negb (too_close p min_dist s) && unclaimed (cell s p).

(** ** A small run

    A 5 x 5 grid with the rectangular border, one seed, and one generation
    at growth probability 1, with a fixed random source. *)
Definition demo_rng : Rng := mkRng (λ n, (n * 7 + 3)%N) 0.

Definition demo_grid : Jigsaw :=
  match Jigsaw_init 3 "rect" with
  | Ok s => s
  | Raise _ => fresh_grid 0
  end.

Definition demo_seeded : Jigsaw * Rng :=
  match initiate_pieces 1 1 demo_grid demo_rng with
  | Ok sg => sg
  | Raise _ => (demo_grid, demo_rng)
  end.

Definition demo_grown : Jigsaw * Rng :=
  match step 1 demo_seeded.1 demo_seeded.2 with
  | Ok sg => sg
  | Raise _ => demo_seeded
  end.

(** The first cell processed by the step of the run, from the seeded
    grid. *)
Definition demo_cell : loop_state :=
  match step_cell 1 (1, 3) (demo_seeded.1, demo_seeded.2, []) with
  | Ok st => st
  | Raise _ => (demo_seeded.1, demo_seeded.2, [])
  end.

(** An 8 x 8 grid with the circular mask. *)
Definition demo_circle : Jigsaw :=
  match Jigsaw_init 6 "circ" with
  | Ok s => s
  | Raise _ => fresh_grid 0
  end.

(** Two grids with the same side and the same claims: they differ at
    most in the [active] flags and the scratch lists [free_neighbors]. *)
Record same_claims (s s' : Jigsaw) : Prop := {
  sc_res : res s' = res s;
  sc_empty : ∀ p, empty (cell s' p) = empty (cell s p);
  sc_color : ∀ p, color (cell s' p) = color (cell s p);
  sc_bonds : ∀ p, bonds (cell s' p) = bonds (cell s p);
  sc_coords : ∀ p, coords (cell s' p) = coords (cell s p);
  sc_neighbors : ∀ p, neighbors (cell s' p) = neighbors (cell s p)
}.

(** The seeded grid of the run after one generation at growth
    probability 0. *)
Definition demo_stalled : Jigsaw * Rng :=
  match step 0 demo_seeded.1 demo_seeded.2 with
  | Ok sg => sg
  | Raise _ => demo_seeded
  end.

(** ** Further vocabulary *)

(** What the claims keep beyond the structural invariant: cells off the
    interior are never coloured; a claimed cell without a colour (a wall)
    is inactive and has no bond; a bond joins two cells of the same
    colour; no cell holds a bond twice. *)
Record tidy (s : Jigsaw) : Prop := {
  td_border : ∀ p, ¬ interior (res s) p → color (cell s p) = None;
  td_wall : ∀ p, empty (cell s p) = false → color (cell s p) = None →
    active (cell s p) = false ∧ bonds (cell s p) = [];
  td_bond_color : ∀ p k, k ∈ bonds (cell s p) →
    color (cell s (add_coord p (shift_of k))) = color (cell s p);
  td_bonds_nodup : ∀ p, NoDup (bonds (cell s p))
}.

(** [l] lists, once each, the claimed cells whose [active] flag is set. *)
Definition listed (s : Jigsaw) (l : list (Z * Z)) : Prop :=
  NoDup l ∧ ∀ p, p ∈ l ↔ empty (cell s p) = false ∧ active (cell s p) = true.

Definition Inv2 (s : Jigsaw) : Prop := tidy s ∧ listed s (active_cells s).

(** What is settled for the cells that are claimed or walled: a cell
    that is not empty and has no colour (a wall) is left as it is, and an
    [active] flag that has been cleared stays cleared. *)
Record settled (s s' : Jigsaw) : Prop := {
  st_wall : ∀ p, empty (cell s p) = false → color (cell s p) = None →
    cell s' p = cell s p;
  st_active : ∀ p, empty (cell s p) = false → active (cell s p) = false →
    active (cell s' p) = false
}.

(** The seeded grid of the run grown until no cell is active. *)
Definition demo_done : Jigsaw * Rng :=
  match steps 25 1 demo_seeded.1 demo_seeded.2 with
  | Ok (s, g, _) => (s, g)
  | Raise _ => demo_seeded
  end.

(** The grown grid of the run after [complete]. *)
Definition demo_completed : Jigsaw * Rng :=
  match complete demo_done.1 demo_done.2 with
  | Ok sg => sg
  | Raise _ => demo_done
  end.


(** No two bonds cross: of the two diagonals of the unit square whose
    lower corner is [p], at most one is a bond. *)
Definition uncrossed (s : Jigsaw) : Prop :=
  ∀ p, ¬ (0 ∈ bonds (cell s p) ∧ 3 ∈ bonds (cell s (add_coord p (0, 1)))).

(** [n] calls of [step] in a row. *)
Fixpoint step_n (n : nat) (grow_prop : Q) (s : Jigsaw) (g : Rng)
  : result (Jigsaw * Rng) :=
  match n with
  | O => Ok (s, g)
  | S n => '(s, g) ← step grow_prop s g; step_n n grow_prop s g
  end.

(** A grid of side 0, as [Jigsaw(res=-2)] builds it. *)
Definition demo_void : Jigsaw :=
  match Jigsaw_init (-2) "rect" with
  | Ok s => s
  | Raise _ => fresh_grid 0
  end.

(** A 3 x 3 grid, and the same with its only interior cell seeded. *)
Definition demo_tiny_grid : Jigsaw :=
  match Jigsaw_init 1 "rect" with
  | Ok s => s
  | Raise _ => fresh_grid 0
  end.

Definition demo_tiny : Jigsaw * Rng :=
  match initiate_pieces 1 1 demo_tiny_grid (mkRng (λ _, 1%N) 0) with
  | Ok sg => sg
  | Raise _ => (demo_tiny_grid, demo_rng)
  end.

(** The cells of a list are pairwise at distance [min_dist] or more. *)
Definition apart (min_dist : Q) (l : list (Z * Z)) : Prop :=
  ∀ p q, p ∈ l → q ∈ l → p ≠ q →
    (Q2R min_dist <= sqrt (IZR (sq_dist p q)))%R.


(** The 5 x 5 grid seeded with two pieces at minimal distance 2. *)
Definition demo_pair : Jigsaw * Rng :=
  match initiate_pieces 2 2 demo_grid (mkRng (λ n, (n * n + n + 1)%N) 0) with
  | Ok sg => sg
  | Raise _ => (demo_grid, demo_rng)
  end.


(** ** Reporting *)

(** The exceptions of the reporting functions: [KeyError] of a
    dictionary, [TypeError] of an operator or a format, and those of the
    array. *)
Inductive failure := KeyError | TypeError | Array (e : exn).

Inductive outcome (A : Type) : Type :=
| Value (a : A)
| Error (e : failure).
Arguments Value {A} a.
Arguments Error {A} e.

#[global] Instance outcome_ret : MRet outcome := fun A a => Value a.
#[global] Instance outcome_bind : MBind outcome := fun A B f m =>
  match m with
  | Value a => f a
  | Error e => Error e
  end.

Definition lift {A} (m : result A) : outcome A :=
  match m with
  | Ok a => Value a
  | Raise e => Error (Array e)
  end.

(** [for x in l: body] for the reporting functions. *)
Fixpoint each {A S : Type} (l : list A) (body : A → S → outcome S) (s : S)
  : outcome S :=
  match l with
  | [] => Value s
  | x :: l' => s' ← body x s; each l' body s'
  end.

(** [try: counts[c] += 1 except: counts[c] = 1] *)
Definition bump (c : option Z) (counts : gmap (option Z) Z)
  : gmap (option Z) Z :=
  match counts !! c with
  | Some n => <[c := n + 1]> counts
  | None => <[c := 1]> counts
  end.

(** The body of the two loops of [count]. *)
Definition count_cell (s : Jigsaw) (xy : Z * Z) (counts : gmap (option Z) Z)
  : result (gmap (option Z) Z) :=
  d ← getitem s xy;
  Ok (bump (color (cell s d)) counts).

(** [Jigsaw.count()]: the dictionary it returns; the table it prints
    lists the items of this dictionary, sorted by piece. *)
Definition count (s : Jigsaw) : outcome (gmap (option Z) Z) :=
  counts ← lift (for_each (range (res s))
                   (λ x counts, for_each (range (res s))
                      (λ y counts, count_cell s (x, y) counts) counts) ∅);
  match counts !! None with
  | Some _ => Value (delete None counts)
  | None => Error KeyError
  end.

(** The number of cells of the array with colour [c]. *)
Definition cells_of_color (s : Jigsaw) (c : option Z) : nat :=
  length (filter (λ p, color (cell s p) = c) (grid_keys (res s))).

(** A call [plt.plot([x0, x1], [y0, y1], f'C{k}o-')]: a segment with a
    marker at both ends, in the colour of index [k] of the colour cycle. *)
Record plot := mkPlot { plot_xs : Z * Z; plot_ys : Z * Z; plot_cycle : Z }.

(** [d.color % 9] *)
Definition mod9 (c : option Z) : outcome Z :=
  match c with
  | Some c => Value (c mod 9)
  | None => Error TypeError
  end.

(** The body of the two loops of [show], with the calls of [plt.plot]
    made so far. *)
Definition show_cell (s : Jigsaw) (ij : Z * Z) (plots : list plot)
  : outcome (list plot) :=
  let (i, j) := ij in
  d ← lift (getitem s (i, j));
  plots ← (if mem 2 (bonds (cell s d)) then
             k ← mod9 (color (cell s d));
             Value (plots ++ [mkPlot (i, i - 1) (j, j - 1) k])
           else Value plots);
  if mem 3 (bonds (cell s d)) then
    k ← mod9 (color (cell s d));
    Value (plots ++ [mkPlot (i, i + 1) (j, j - 1) k])
  else Value plots.

(** [Jigsaw.show()]: the calls of [plt.plot] it makes, in order. *)
Definition show (s : Jigsaw) : outcome (list plot) :=
  each (range (res s))
    (λ i plots, each (range (res s)) (λ j plots, show_cell s (i, j) plots) plots)
    [].

(** The segments [show] draws from the cell [p] of colour [c]. *)
Definition cell_plots (s : Jigsaw) (p : Z * Z) : list plot :=
  match color (cell s p) with
  | Some c =>
      (if mem 2 (bonds (cell s p))
       then [mkPlot (p.1, p.1 - 1) (p.2, p.2 - 1) (c mod 9)] else [])
      ++ (if mem 3 (bonds (cell s p))
          then [mkPlot (p.1, p.1 + 1) (p.2, p.2 - 1) (c mod 9)] else [])
  | None => []
  end.

(** The segment from [p] to [q] in the colour of index [k]. *)
Definition segment (p q : Z * Z) (k : Z) : plot :=
  mkPlot (p.1, q.1) (p.2, q.2) k.

(** The path [M x0 y0 a r,r 0 0,flip dx dy] that [_draw_arc] returns: a
    quarter circle of radius [r] from [(x0, y0)] to [(x0 + dx, y0 + dy)],
    stroked in black with the given width and not filled. *)
Record arc := mkArc {
  arc_from : Q * Q;
  arc_radius : Q;
  arc_flip : Z;
  arc_by : Q * Q;
  arc_width : Z
}.

(** [Jigsaw._draw_arc(x, y, r, quad, stroke_width)] *)
Definition _draw_arc (x y r : Q) (quad : Z) (stroke_width : Z) : arc :=
  let yshift := if mem quad [0; 1] then r else (- r)%Q in
  let xshift := if mem quad [0; 3] then r else (- r)%Q in
  let flip := if mem quad [1; 3] then 1 else 0 in
  mkArc (x, (y + yshift)%Q) r flip (xshift, (- yshift)%Q) stroke_width.








(** The end point of an arc. *)
Definition arc_to (a : arc) : Q * Q :=
  ((a.(arc_from).1 + a.(arc_by).1)%Q, (a.(arc_from).2 + a.(arc_by).2)%Q).



(** [int(t)] of a number: truncation towards zero. *)
Definition py_int (t : Q) : Z := Z.quot (Qnum t) (Z.pos (Qden t)).

Definition hex_digit (n : Z) : Ascii.ascii :=
  nth (Z.to_nat n) (list_ascii_of_string "0123456789abcdef") "0"%char.

(** The hexadecimal digits of [n], for [0 <= n], most significant first. *)
Fixpoint hex (fuel : nat) (n : Z) : string :=
  match fuel with
  | O => EmptyString
  | S fuel =>
      String.append (if n / 16 =? 0 then EmptyString else hex fuel (n / 16))
        (String (hex_digit (n mod 16)) EmptyString)
  end.

(** ['%x' % n], for [0 <= n]. *)
Definition format_x (n : Z) : string := hex (S (Z.to_nat (Z.log2 n))) n.

(** ['%02x' % n]: lower-case hexadecimal, padded with zeros to two
    characters, the sign included. *)
Definition format_02x (n : Z) : string :=
  if n <? 0 then String "-" (format_x (- n))
  else
    let digits := format_x n in
    if (String.length digits <? 2)%nat then String "0" digits else digits.

(** [cmap_to_hex(tup)]; the format takes exactly three arguments. *)
Definition cmap_to_hex (tup : list Q) : outcome string :=
  match (λ t, py_int (t * 255)) <$> removelast tup with
  | [r; g; b] =>
      Value (String "#" (String.append (format_02x r)
                           (String.append (format_02x g) (format_02x b))))
  | _ => Error TypeError
  end.



(** The growth operations: everything but seeding. *)
Inductive growth (s s' : Jigsaw) : Prop :=
| gr_step grow_prop g g' :
    step grow_prop s g = Ok (s', g') → growth s s'
| gr_steps budget grow_prop g g' r :
    steps budget grow_prop s g = Ok (s', g', r) → growth s s'
| gr_complete g g' :
    complete s g = Ok (s', g') → growth s s'.

(** [p] is joined to [r] by a chain of bonds. *)
Inductive linked (s : Jigsaw) : Z * Z → Z * Z → Prop :=
| linked_refl p : linked s p p
| linked_bond p k r :
    k ∈ bonds (cell s p) → linked s (add_coord p (shift_of k)) r →
    linked s p r.

(** Every cell of a piece colour is joined by bonds to a cell that had
    this colour in [s0]. *)
Definition rooted (s0 s : Jigsaw) : Prop :=
  ∀ p c, color (cell s p) = Some c → c ≠ filler_color →
    ∃ r, color (cell s0 r) = Some c ∧ linked s p r.

(** * Verification *)

Arguments cell : simpl never.
Arguments modify : simpl never.
Arguments getitem : simpl never.
Arguments wrap : simpl never.
Arguments mem : simpl never.
Arguments free_list : simpl never.
Arguments scan_free : simpl never.
Arguments claim_state : simpl never.
Arguments found : simpl never.
Arguments seed_piece : simpl never.
Arguments steps : simpl never.
Arguments step : simpl never.
Arguments step_cell : simpl never.
Arguments complete_cell : simpl never.

(** ** The error monad and loops *)

Lemma Ok_inj {A} (a b : A) : Ok a = Ok b → a = b.
Proof. by intros [= ->]. Qed.

Lemma ret_bind {A B} (a : A) (f : A → result B) : Ok a ≫= f = f a.
Proof. done. Qed.

Lemma bind_Ok {A B} (m : result A) (f : A → result B) b :
  m ≫= f = Ok b ↔ ∃ a, m = Ok a ∧ f a = Ok b.
Proof.
  destruct m as [a|e]; simpl; split.
  - intros H. by exists a.
  - by intros (a' & [= <-] & H).
  - done.
  - by intros (a' & [=] & _).
Qed.

Lemma for_each_app {A S} (l1 l2 : list A) (body : A → S → result S) s :
  for_each (l1 ++ l2) body s = for_each l1 body s ≫= for_each l2 body.
Proof.
  revert s. induction l1 as [|x l1 IH]; intros s; simpl; [done|].
  destruct (body x s) as [s'|e]; simpl; [apply IH | done].
Qed.

(** Two nested loops are one loop over the flattened index list. *)
Lemma for_each_nested {A B S} (l : list A) (f : A → list B)
    (body : B → S → result S) s :
  for_each l (λ x s, for_each (f x) body s) s = for_each (x ← l; f x) body s.
Proof.
  revert s. induction l as [|x l IH]; intros s; simpl; [done|].
  rewrite for_each_app. destruct (for_each (f x) body s); simpl; [apply IH | done].
Qed.

(** A guarded body is a loop over the filtered list. *)
Lemma for_each_guard {A S} (c : A → bool) (l : list A)
    (body : A → S → result S) s :
  for_each l (λ x s, if c x then body x s else Ok s) s
  = for_each (List.filter c l) body s.
Proof.
  revert s. induction l as [|x l IH]; intros s; simpl; [done|].
  destruct (c x); simpl; [|apply IH].
  destruct (body x s); simpl; [apply IH | done].
Qed.

(** The loop rule: an invariant of the processed prefix that every
    iteration re-establishes holds of the whole list at the end, and the
    loop returns. *)
Lemma for_each_inv {A S} (P : list A → S → Prop) (l : list A)
    (body : A → S → result S) (s : S) :
  P [] s →
  (∀ done x s, P done s → x ∈ l →
     ∃ s', body x s = Ok s' ∧ P (done ++ [x]) s') →
  ∃ s', for_each l body s = Ok s' ∧ P l s'.
Proof.
  intros H0 Hstep.
  assert (∀ todo done s, done ++ todo = l → P done s →
            ∃ s', for_each todo body s = Ok s' ∧ P l s') as Hgen.
  { induction todo as [|x todo IH]; intros done s1 Hl HP; simpl.
    - rewrite app_nil_r in Hl. subst. by exists s1.
    - destruct (Hstep done x s1 HP) as (s2 & -> & HP2).
      { rewrite <- Hl. set_solver. }
      simpl. apply (IH (done ++ [x])); [by rewrite <- app_assoc | done]. }
  by apply (Hgen l []).
Qed.

(** The converse direction: a loop that returned ran every iteration. *)
Lemma for_each_inv_Ok {A S} (P : S → Prop) (l : list A)
    (body : A → S → result S) (s s' : S) :
  P s →
  (∀ x s s', P s → x ∈ l → body x s = Ok s' → P s') →
  for_each l body s = Ok s' → P s'.
Proof.
  revert s. induction l as [|x l IH]; intros s H0 Hstep; simpl.
  - by intros [= <-].
  - rewrite bind_Ok. intros (s1 & Hb & Hrest).
    apply (IH s1); [|set_solver|done].
    eapply Hstep; [done| |done]. set_solver.
Qed.

(** ** References and mutation *)

Lemma cell_modify k f s p :
  cell (modify k f s) p = if decide (k = p) then f (cell s k) else cell s p.
Proof. unfold cell, modify. simpl. apply lookup_total_insert. Qed.

Lemma cell_modify_eq k f s : cell (modify k f s) k = f (cell s k).
Proof. rewrite cell_modify. by case_decide. Qed.

Lemma cell_modify_ne k f s p : k ≠ p → cell (modify k f s) p = cell s p.
Proof. intros. rewrite cell_modify. by case_decide. Qed.

Lemma modify_modify k f h s :
  modify k f (modify k h s) = modify k (f ∘ h) s.
Proof.
  unfold modify at 1 3. rewrite cell_modify_eq. unfold set_jigsaw. simpl.
  f_equal. apply insert_insert_eq.
Qed.

Lemma lookup_modify k f s p :
  jigsaw (modify k f s) !! p
  = if decide (k = p) then Some (f (cell s k)) else jigsaw s !! p.
Proof. unfold modify. simpl. apply lookup_insert. Qed.

Lemma lookup_cell s p d : jigsaw s !! p = Some d → cell s p = d.
Proof. intros H. unfold cell. by apply lookup_total_correct. Qed.

Lemma norm_index_Ok n i k :
  norm_index n i = Ok k ↔ - n ≤ i < n ∧ k = (if i <? 0 then i + n else i).
Proof.
  unfold norm_index.
  destruct (Z.leb_spec (- n) i), (Z.ltb_spec i n); simpl;
    split; try (intros [= <-]; split; [lia|done]);
    try (intros [? ->]; done); try done; try lia.
Qed.

Lemma norm_index_range n i k : norm_index n i = Ok k → 0 ≤ k < n.
Proof. rewrite norm_index_Ok. intros [? ->]. destruct (Z.ltb_spec i 0); lia. Qed.

Lemma norm_index_id n i : 0 ≤ i < n → norm_index n i = Ok i.
Proof.
  intros. apply norm_index_Ok. split; [lia|]. destruct (Z.ltb_spec i 0); lia.
Qed.

Lemma getitem_in_grid s idx k : getitem s idx = Ok k → in_grid (res s) k.
Proof.
  unfold getitem. rewrite bind_Ok. intros (i & Hi & H).
  apply bind_Ok in H as (j & Hj & [= <-]).
  split; simpl; eauto using norm_index_range.
Qed.

Lemma getitem_id s p : in_grid (res s) p → getitem s p = Ok p.
Proof.
  intros [H1 H2]. unfold getitem.
  rewrite !norm_index_id by done. simpl. by destruct p.
Qed.

Lemma getitem_modify k f s idx : getitem (modify k f s) idx = getitem s idx.
Proof. done. Qed.

(** ** Construction *)

Lemma elem_of_grid_keys R p : p ∈ grid_keys R ↔ in_grid R p.
Proof.
  unfold grid_keys, in_grid, range. rewrite list_elem_of_bind. split.
  - intros (i & Hj & Hi). apply list_elem_of_fmap in Hj as (j & -> & Hj).
    apply elem_of_seqZ in Hi, Hj. simpl. lia.
  - intros [H1 H2]. exists p.1. split; [|apply elem_of_seqZ; lia].
    apply list_elem_of_fmap. exists p.2. split; [by destruct p|].
    apply elem_of_seqZ; lia.
Qed.

Lemma foldl_insert_nested (l1 l2 : list Z) (g : gmap (Z * Z) Dot) :
  foldl (λ g i, foldl (λ g j, <[(i, j) := Dot_init i j]> g) g l2) g l1
  = foldl (λ g p, <[p := Dot_init p.1 p.2]> g) g
      (i ← l1; (λ j, (i, j)) <$> l2).
Proof.
  revert g. induction l1 as [|i l1 IH]; intros g; [done|].
  simpl. rewrite foldl_app, <- IH. f_equal.
  clear IH. revert g.
  induction l2 as [|j l2 IH]; intros g; simpl; [done|]. apply IH.
Qed.

Lemma fresh_cells_flat R :
  fresh_cells R
  = foldl (λ g p, <[p := Dot_init p.1 p.2]> g) ∅ (grid_keys R).
Proof. apply foldl_insert_nested. Qed.

Lemma lookup_foldl_insert (l : list (Z * Z)) (g : gmap (Z * Z) Dot) p :
  foldl (λ g p, <[p := Dot_init p.1 p.2]> g) g l !! p
  = if decide (p ∈ l) then Some (Dot_init p.1 p.2) else g !! p.
Proof.
  revert g. induction l as [|q l IH]; intros g; cbn [foldl].
  - rewrite decide_False; [done | set_solver].
  - rewrite IH. destruct (decide (p ∈ l)).
    + rewrite decide_True; [done | set_solver].
    + destruct (decide (q = p)) as [->|].
      * rewrite lookup_insert_eq. rewrite decide_True; [done | by left].
      * rewrite lookup_insert_ne by done.
        rewrite decide_False; [done | by intros [?|?]%elem_of_cons].
Qed.

Lemma lookup_fresh_cells R p :
  fresh_cells R !! p
  = if decide (in_grid R p) then Some (Dot_init p.1 p.2) else None.
Proof.
  rewrite fresh_cells_flat, lookup_foldl_insert, lookup_empty.
  destruct (decide (p ∈ grid_keys R)) as [H|H];
    rewrite elem_of_grid_keys in H; by case_decide.
Qed.

Lemma getitem_Ok s idx k :
  getitem s idx = Ok k ↔ valid_index (res s) idx ∧ k = wrap (res s) idx.
Proof.
  unfold getitem, valid_index, wrap. split.
  - rewrite bind_Ok. intros (i & Hi & H).
    apply bind_Ok in H as (j & Hj & [= <-]).
    apply norm_index_Ok in Hi as [? ->], Hj as [? ->]. done.
  - intros [[H1 H2] ->].
    rewrite (proj2 (norm_index_Ok _ _ _) (conj H1 eq_refl)). simpl.
    rewrite (proj2 (norm_index_Ok _ _ _) (conj H2 eq_refl)). done.
Qed.

Lemma wall_dot_idemp d : wall_dot (wall_dot d) = wall_dot d.
Proof. done. Qed.

Lemma wall_Ok s idx :
  valid_index (res s) idx →
  wall s idx = Ok (modify (wrap (res s) idx) wall_dot s).
Proof.
  intros Hv. unfold wall.
  rewrite (proj2 (getitem_Ok s idx _) (conj Hv eq_refl)). simpl.
  rewrite getitem_modify, (proj2 (getitem_Ok s idx _) (conj Hv eq_refl)). simpl.
  by rewrite modify_modify.
Qed.

Lemma masked_refl s : masked (λ _, False) s s.
Proof. unfold masked. split_and!; try done. intros p. split; [done | by left]. Qed.

Lemma masked_weaken (W W' : Z * Z → Prop) s0 s :
  (∀ p, W p ↔ W' p) → masked W s0 s → masked W' s0 s.
Proof.
  intros HW (? & ? & ? & ? & Hc). unfold masked. split_and!; try done.
  intros p. split.
  - intros ?%HW. by apply Hc.
  - destruct (Hc p) as [_ [?|[? ?]]]; [by left | right; split; [by apply HW | done]].
Qed.

Lemma masked_wall W s0 s k :
  is_Some (jigsaw s0 !! k) →
  masked W s0 s → masked (λ p, W p ∨ p = k) s0 (modify k wall_dot s).
Proof.
  intros Hk (Hres & Hnum & Hact & Hdom & Hc). unfold masked. split_and!; try done.
  - intros p. rewrite lookup_modify. case_decide; [subst | apply Hdom].
    split; [by intros _ | by eexists].
  - intros p. rewrite cell_modify. split.
    + intros [HW | ->].
      * case_decide; [subst | by apply Hc].
        destruct (Hc p) as [-> _]; done.
      * rewrite decide_True by done.
        destruct (Hc k) as [_ [-> | [_ ->]]]; done.
    + case_decide; [subst; right | ].
      * split; [by right|]. destruct (Hc p) as [_ [-> | [_ ->]]]; done.
      * destruct (Hc p) as [_ [? | [? ?]]]; [by left | right; split; [by left | done]].
Qed.

(** Walling a list of valid indices returns, and walls exactly the cells
    they address. *)
Lemma wall_all s0 (idxs : list (Z * Z)) :
  (∀ idx, idx ∈ idxs → valid_index (res s0) idx ∧
                        is_Some (jigsaw s0 !! wrap (res s0) idx)) →
  ∃ s, for_each idxs (λ xy s, wall s xy) s0 = Ok s ∧
       masked (λ p, ∃ idx, idx ∈ idxs ∧ p = wrap (res s0) idx) s0 s.
Proof.
  intros Hidx.
  apply (for_each_inv (λ pre s,
    masked (λ p, ∃ idx, idx ∈ pre ∧ p = wrap (res s0) idx) s0 s)).
  - eapply masked_weaken; [|apply masked_refl].
    intros p. split; [done | intros (? & []%elem_of_nil & _)].
  - intros pre idx s Hm Hin. destruct (Hidx idx Hin) as [Hv Hs].
    pose proof Hm as (Hres & _).
    exists (modify (wrap (res s0) idx) wall_dot s). split.
    + rewrite <- Hres. apply wall_Ok. by rewrite Hres.
    + eapply masked_weaken; [|by apply masked_wall].
      intros p. simpl. split.
      * intros [(i & ? & ?) | ->]; [exists i | exists idx];
          (split; [apply elem_of_app; auto using list_elem_of_here | done]).
      * intros (i & [?| ->%list_elem_of_singleton]%elem_of_app & ->); eauto.
Qed.

Lemma for_each_fmap {A B S} (f : A → B) (l : list A)
    (body : B → S → result S) s :
  for_each (f <$> l) body s = for_each l (λ x, body (f x)) s.
Proof.
  revert s. induction l as [|x l IH]; intros s; simpl; [done|].
  destruct (body (f x) s); simpl; [apply IH | done].
Qed.

(** Two bodies that agree on the states a loop goes through give the same
    loop. *)
Lemma for_each_ext {A S} (I : S → Prop) (l : list A)
    (body1 body2 : A → S → result S) s :
  I s →
  (∀ x s, I s → x ∈ l → body1 x s = body2 x s) →
  (∀ x s s', I s → x ∈ l → body2 x s = Ok s' → I s') →
  for_each l body1 s = for_each l body2 s.
Proof.
  revert s. induction l as [|x l IH]; intros s HI Heq Hpres; simpl; [done|].
  rewrite Heq by (done || by left).
  destruct (body2 x s) as [s'|] eqn:Hb; simpl; [|done].
  apply IH.
  - eapply Hpres; [done | by left | done].
  - intros. apply Heq; [done | by right].
  - intros ??? ? ?. eapply Hpres; [done | by right].
Qed.

Lemma wall_res s idx s' : wall s idx = Ok s' → res s' = res s.
Proof.
  unfold wall. rewrite bind_Ok. intros (k & _ & H).
  apply bind_Ok in H as (k' & _ & [= <-]). done.
Qed.

Lemma border_mask_flat s :
  border_mask s
  = for_each (i ← range (res s); [(i, 0); (i, -1); (0, i); (-1, i)])
      (λ xy s, wall s xy) s.
Proof. unfold border_mask. apply for_each_nested. Qed.

Lemma circle_mask_flat s :
  circle_mask s
  = for_each (List.filter (λ p, outside_circle (res s) p.1 p.2)
                (grid_keys (res s)))
      (λ xy s, wall s xy) s.
Proof.
  unfold circle_mask, grid_keys.
  rewrite <- for_each_guard, <- for_each_nested.
  apply (for_each_ext (λ s', res s' = res s)); [done | |].
  - intros i s1 H1 _. rewrite for_each_fmap, H1.
    apply (for_each_ext (λ s', res s' = res s)); [done | |].
    + intros j s2 H2 _. simpl. by rewrite H2.
    + intros j s2 s3 H2 _. simpl. destruct outside_circle.
      * intros ->%wall_res. done.
      * by intros [= <-].
  - intros i s1 s2 H1 _. apply (for_each_inv_Ok (λ s', res s' = res s)); [done|].
    intros p s3 s4 H3 _. destruct outside_circle.
    + intros ->%wall_res. done.
    + by intros [= <-].
Qed.

Lemma cell_fresh_grid n p :
  in_grid n p → cell (fresh_grid n) p = Dot_init p.1 p.2.
Proof.
  intros H. apply lookup_cell. simpl. rewrite lookup_fresh_cells.
  by rewrite decide_True.
Qed.

Lemma dom_fresh_grid n p :
  is_Some (jigsaw (fresh_grid n) !! p) ↔ in_grid n p.
Proof.
  simpl. rewrite lookup_fresh_cells. case_decide; split; try done.
Qed.

Lemma border_mask_spec n :
  ∃ s, border_mask (fresh_grid n) = Ok s ∧
       masked (λ p, in_grid n p ∧ on_border n p) (fresh_grid n) s.
Proof.
  rewrite border_mask_flat.
  destruct (wall_all (fresh_grid n)
    (i ← range n; [(i, 0); (i, -1); (0, i); (-1, i)])) as (s & Hs & Hm).
  - intros idx (i & Hidx & Hi%elem_of_seqZ)%list_elem_of_bind.
    rewrite dom_fresh_grid. unfold valid_index, in_grid, wrap. simpl.
    repeat (apply elem_of_cons in Hidx as [-> | Hidx]); simpl;
      try (by apply elem_of_nil in Hidx);
      repeat match goal with |- context [?a <? ?b] =>
        destruct (Z.ltb_spec a b) end; lia.
  - exists s. split; [done|]. eapply masked_weaken; [|done].
    intros p. simpl. split.
    + intros (idx & (i & Hidx & Hi%elem_of_seqZ)%list_elem_of_bind & ->).
      unfold in_grid, on_border, wrap.
      repeat (apply elem_of_cons in Hidx as [-> | Hidx]); simpl;
        try (by apply elem_of_nil in Hidx);
        repeat match goal with |- context [?a <? ?b] =>
          destruct (Z.ltb_spec a b) end; lia.
    + intros [[H1 H2] Hb]. destruct p as [i j]. simpl in *.
      unfold on_border in Hb. simpl in Hb.
      assert (i = 0 ∨ i = n - 1 ∨ j = 0 ∨ j = n - 1) as [-> | [-> | [-> | ->]]] by lia.
      * exists (0, j). split; [|unfold wrap; simpl;
          destruct (Z.ltb_spec j 0); [lia|done]].
        apply list_elem_of_bind. exists j. split; [set_solver|apply elem_of_seqZ; lia].
      * exists (-1, j). split; [|unfold wrap; simpl;
          destruct (Z.ltb_spec j 0); [lia|f_equal; lia]].
        apply list_elem_of_bind. exists j. split; [set_solver|apply elem_of_seqZ; lia].
      * exists (i, 0). split; [|unfold wrap; simpl;
          destruct (Z.ltb_spec i 0); [lia|done]].
        apply list_elem_of_bind. exists i. split; [set_solver|apply elem_of_seqZ; lia].
      * exists (i, -1). split; [|unfold wrap; simpl;
          destruct (Z.ltb_spec i 0); [lia|f_equal; lia]].
        apply list_elem_of_bind. exists i. split; [set_solver|apply elem_of_seqZ; lia].
Qed.

(** ** The circular mask, in integers and in reals *)

Lemma sqrt_gt_spec v t : sqrt_gt v t = true ↔ (t < 0 ∨ t * t < v)%Q.
Proof.
  unfold sqrt_gt. rewrite orb_true_iff, !negb_true_iff.
  rewrite <- !not_true_iff_false, !Qle_bool_iff.
  split; (intros [H|H]; [left|right]); lra.
Qed.

Lemma radius_Z n : (mask_radius n == (5 * n - 11) # 10)%Q.
Proof. unfold mask_radius, Qeq. simpl. lia. Qed.
Lemma centred_Z n i : (centred n i == (2 * i - n + 1) # 2)%Q.
Proof. unfold centred, Qeq. simpl. lia. Qed.

Lemma outside_circle_Z n i j :
  outside_circle n i j = true ↔
  5 * n - 11 < 0 ∨ (5 * n - 11) ^ 2 < 25 * ((2 * i - n + 1) ^ 2 + (2 * j - n + 1) ^ 2).
Proof.
  unfold outside_circle. rewrite sqrt_gt_spec.
  rewrite !radius_Z, !centred_Z. unfold Qlt. simpl.
  change (Z.pos (2 * 2 * (2 * 2))) with 16. change (Z.pos (2 * 2)) with 4.
  change (Z.pos (10 * 10)) with 100. rewrite !Z.pow_2_r. lia.
Qed.

Lemma outside_circle_border n i j :
  in_grid n (i, j) → ¬ interior n (i, j) → outside_circle n i j = true.
Proof.
  unfold in_grid, interior. simpl. intros Hin Hnot.
  apply outside_circle_Z. rewrite !Z.pow_2_r.
  destruct (Z.lt_ge_cases (5 * n - 11) 0) as [?|Hn]; [by left | right].
  assert (∀ X Y, X = n - 1 ∨ X = - (n - 1) →
            (5 * n - 11) * (5 * n - 11) < 25 * (X * X + Y * Y)) as Hx.
  { intros X Y HX. assert (X * X = (n - 1) * (n - 1)) as -> by (destruct HX; subst; lia).
    pose proof (Z.square_nonneg Y). nia. }
  assert (i = 0 ∨ i = n - 1 ∨ j = 0 ∨ j = n - 1) as [-> | [-> | [-> | ->]]] by lia.
  - apply Hx. lia.
  - apply Hx. lia.
  - rewrite Z.add_comm. apply Hx. lia.
  - rewrite Z.add_comm. apply Hx. lia.
Qed.

Lemma outside_circle_rot n i j :
  outside_circle n j (n - 1 - i) = outside_circle n i j.
Proof.
  apply eq_true_iff_eq. rewrite !outside_circle_Z.
  replace (2 * (n - 1 - i) - n + 1) with (- (2 * i - n + 1)) by lia.
  rewrite !Z.pow_2_r. 
  replace (- (2 * i - n + 1) * - (2 * i - n + 1)) with ((2 * i - n + 1) * (2 * i - n + 1)) by lia.
  lia.
Qed.

Lemma sqrt_gt_real (v t : R) :
  (0 <= v → sqrt v > t ↔ t < 0 ∨ t * t < v)%R.
Proof.
  Local Open Scope R_scope.
  intros Hv. split.
  - intros H. destruct (Rlt_le_dec t 0) as [?|Ht]; [by left | right].
    rewrite <- (sqrt_sqrt v Hv). apply Rmult_le_0_lt_compat; lra.
  - intros [Ht | Ht].
    + pose proof (sqrt_pos v). lra.
    + destruct (Rlt_le_dec t 0) as [?|Ht0]; [pose proof (sqrt_pos v); lra|].
      apply Rnot_le_gt. intros Hle.
      assert (sqrt v * sqrt v <= t * t) by (apply Rmult_le_compat; auto using sqrt_pos).
      rewrite sqrt_sqrt in H by done. lra.
  Local Close Scope R_scope.
Qed.

Lemma outside_circle_real n i j :
  outside_circle n i j = true ↔
  (centre_distance n i j > IZR n / 2 - 11 / 10)%R.
Proof.
  unfold centre_distance.
  rewrite sqrt_gt_real by (apply Rplus_le_le_0_compat; apply pow2_ge_0).
  rewrite outside_circle_Z, !Z.pow_2_r.
  split; (intros [H|H]; [left|right]).
  - apply IZR_lt in H. rewrite minus_IZR, mult_IZR in H. lra.
  - apply IZR_lt in H.
    rewrite !mult_IZR, !plus_IZR, !mult_IZR, !plus_IZR, !minus_IZR, !mult_IZR in H. lra.
  - apply lt_IZR. rewrite minus_IZR, mult_IZR. lra.
  - apply lt_IZR.
    rewrite !mult_IZR, !plus_IZR, !mult_IZR, !plus_IZR, !minus_IZR, !mult_IZR. lra.
Qed.

Lemma circle_mask_spec n :
  ∃ s, circle_mask (fresh_grid n) = Ok s ∧
       masked (λ p, in_grid n p ∧ outside_circle n p.1 p.2 = true)
              (fresh_grid n) s.
Proof.
  rewrite circle_mask_flat.
  destruct (wall_all (fresh_grid n)
    (List.filter (λ p, outside_circle (res (fresh_grid n)) p.1 p.2)
       (grid_keys (res (fresh_grid n))))) as (s & Hs & Hm).
  - intros idx [Hin _]%list_elem_of_In%filter_In.
    apply list_elem_of_In, elem_of_grid_keys in Hin. simpl in Hin.
    pose proof Hin as [H1 H2]. rewrite dom_fresh_grid.
    unfold valid_index, wrap. simpl.
    destruct (Z.ltb_spec idx.1 0), (Z.ltb_spec idx.2 0); try lia.
    split; [lia | by destruct idx].
  - exists s. split; [done|]. eapply masked_weaken; [|done].
    intros p. simpl. split.
    + intros (idx & [Hin Hout]%list_elem_of_In%filter_In & ->).
      apply list_elem_of_In, elem_of_grid_keys in Hin. pose proof Hin as [H1 H2].
      unfold wrap. destruct (Z.ltb_spec idx.1 0), (Z.ltb_spec idx.2 0); try lia.
      by destruct idx.
    + intros [Hin Hout]. pose proof Hin as [H1 H2].
      exists p. split.
      * apply list_elem_of_In, filter_In. split; [|done].
        by apply list_elem_of_In, elem_of_grid_keys.
      * unfold wrap. destruct (Z.ltb_spec p.1 0), (Z.ltb_spec p.2 0); try lia.
        by destruct p.
Qed.

(** The constructor returns exactly when the side is not negative, and
    then yields the fresh array with the cells of the mask walled. *)
Lemma Jigsaw_init_spec res0 bordertype :
  0 ≤ res0 + 2 →
  ∃ s, Jigsaw_init res0 bordertype = Ok s ∧
       masked (λ p, in_grid (res0 + 2) p ∧ mask_of bordertype (res0 + 2) p)
              (fresh_grid (res0 + 2)) s.
Proof.
  intros Hn. unfold Jigsaw_init, mask_of.
  destruct (Z.ltb_spec (res0 + 2) 0); [lia|].
  destruct (String.eqb bordertype "circ").
  - apply circle_mask_spec.
  - apply border_mask_spec.
Qed.

Lemma Jigsaw_init_Ok res0 bordertype s :
  Jigsaw_init res0 bordertype = Ok s →
  0 ≤ res0 + 2 ∧
  masked (λ p, in_grid (res0 + 2) p ∧ mask_of bordertype (res0 + 2) p)
         (fresh_grid (res0 + 2)) s.
Proof.
  intros H. assert (0 ≤ res0 + 2) as Hn.
  { unfold Jigsaw_init in H. destruct (Z.ltb_spec (res0 + 2) 0); [done | lia]. }
  split; [done|].
  destruct (Jigsaw_init_spec res0 bordertype Hn) as (s' & Hs' & Hm).
  congruence.
Qed.

Lemma mask_of_border bordertype n p :
  in_grid n p → ¬ interior n p → mask_of bordertype n p.
Proof.
  intros Hin Hnot. unfold mask_of. destruct (String.eqb bordertype "circ").
  - apply outside_circle_border; by destruct p.
  - unfold in_grid, interior, on_border in *. lia.
Qed.

Lemma cell_fresh_grid_any n p : ∃ i j, cell (fresh_grid n) p = Dot_init i j.
Proof.
  unfold cell. rewrite lookup_total_alt. simpl. rewrite lookup_fresh_cells.
  case_decide; simpl; eauto.
Qed.

Lemma masked_cases W s0 s p :
  masked W s0 s → cell s p = cell s0 p ∨ cell s p = wall_dot (cell s0 p).
Proof. intros (_ & _ & _ & _ & Hc). destruct (Hc p) as [_ [?|[_ ?]]]; auto. Qed.

Lemma masked_fresh_Inv n (W : Z * Z → Prop) s :
  0 ≤ n →
  (∀ p, in_grid n p → ¬ interior n p → W p) →
  masked (λ p, in_grid n p ∧ W p) (fresh_grid n) s →
  Inv s.
Proof.
  intros Hn HW Hm. pose proof Hm as (Hres & Hnum & Hact & Hdom & Hc).
  simpl in Hres, Hact.
  assert (∀ p, ∃ i j, cell s p = Dot_init i j ∨ cell s p = wall_dot (Dot_init i j)) as Hany.
  { intros p. destruct (cell_fresh_grid_any n p) as (i & j & Hij).
    exists i, j. rewrite <- Hij. by eapply masked_cases. }
  split; [split|].
  - by rewrite Hres.
  - intros p. rewrite Hdom, Hres. apply dom_fresh_grid.
  - intros p Hp. rewrite Hres in Hp.
    destruct (masked_cases _ _ _ p Hm) as [-> | ->];
      rewrite cell_fresh_grid by done; by destruct p.
  - intros p Hp. rewrite Hres in Hp.
    destruct (masked_cases _ _ _ p Hm) as [-> | ->];
      rewrite cell_fresh_grid by done; by destruct p.
  - intros p Hp Hnot. rewrite Hres in Hp, Hnot.
    destruct (Hc p) as [-> _]; [done | split; auto].
  - intros p. destruct (Hany p) as (i & j & [-> | ->]); done.
  - intros p c. destruct (Hany p) as (i & j & [-> | ->]); done.
  - intros p k. destruct (Hany p) as (i & j & [-> | ->]); simpl; by intros ?%elem_of_nil.
  - rewrite Hact. by intros p ?%elem_of_nil.
Qed.

Lemma Jigsaw_init_Inv res0 bordertype s :
  Jigsaw_init res0 bordertype = Ok s → Inv s.
Proof.
  intros [Hn Hm]%Jigsaw_init_Ok.
  eapply masked_fresh_Inv; [done | | done].
  intros p. apply mask_of_border.
Qed.

(** ** The free neighbours of a cell *)

(** A mutation that leaves a field alone leaves it alone in every cell. *)
Lemma proj_modify {A} (proj : Dot → A) k f s p :
  (∀ d, proj (f d) = proj d) → proj (cell (modify k f s) p) = proj (cell s p).
Proof. intros H. rewrite cell_modify. case_decide; [subst; apply H | done]. Qed.

Lemma modify_ext k f h s : f (cell s k) = h (cell s k) → modify k f s = modify k h s.
Proof. intros H. unfold modify. by rewrite H. Qed.

Lemma modify_free_twice k F F' s :
  modify k (set_free_neighbors F) (modify k (set_free_neighbors F') s)
  = modify k (set_free_neighbors F) s.
Proof. rewrite modify_modify. by apply modify_ext. Qed.

Lemma free_neighbors_modify d F s :
  free_neighbors (cell (modify d (set_free_neighbors F) s) d) = F.
Proof. by rewrite cell_modify_eq. Qed.

Ltac field_modify :=
  repeat first
    [ rewrite (proj_modify empty) by done
    | rewrite (proj_modify bonds) by done
    | rewrite (proj_modify coords) by done
    | rewrite (proj_modify neighbors) by done
    | rewrite (proj_modify color) by done
    | rewrite (proj_modify active) by done ].

(** The scanning loop of [find_free], started with [F] already found. *)
Lemma scan_loop d s (l : list (Z * (Z * Z))) F :
  (∀ i_n, i_n ∈ l → valid_index (res s) i_n.2) →
  for_each l (scan_body d) (modify d (set_free_neighbors F) s)
  = Ok (modify d (set_free_neighbors
          (F ++ (fst <$> List.filter
                   (λ i_n, empty (cell s (wrap (res s) i_n.2))) l))) s).
Proof.
  revert F. induction l as [|[i n] l IH]; intros F Hv; simpl.
  - by rewrite app_nil_r.
  - assert (valid_index (res s) n) as Hn by (apply (Hv (i, n)); by left).
    rewrite getitem_modify, (proj2 (getitem_Ok s n _) (conj Hn eq_refl)). simpl.
    field_modify.
    assert (∀ i_n, i_n ∈ l → valid_index (res s) i_n.2) as Hv'
      by (intros; apply Hv; by right).
    destruct (empty (cell s (wrap (res s) n))); simpl.
    + rewrite modify_modify.
      rewrite (modify_ext _ _ (set_free_neighbors (F ++ [i]))) by done.
      rewrite IH by done. by rewrite <- app_assoc.
    + by apply IH.
Qed.

Lemma scan_loop_valid d (l : list (Z * (Z * Z))) s0 s1 :
  for_each l (scan_body d) s0 = Ok s1 →
  ∀ i_n, i_n ∈ l → valid_index (res s0) i_n.2.
Proof.
  revert s0. induction l as [|[i n] l IH]; intros s0; simpl.
  - by intros _ ? ?%elem_of_nil.
  - rewrite bind_Ok. intros (s' & Hb & Hrest) i_n Hin.
    apply bind_Ok in Hb as (k & Hk & Hs').
    assert (res s' = res s0) as Hres by (destruct (empty _); by injection Hs' as <-).
    apply elem_of_cons in Hin as [-> | Hin].
    + by apply getitem_Ok in Hk as [? _].
    + rewrite <- Hres. by apply (IH s').
Qed.

Lemma unblock_modify d (c : bool) x F s :
  (if c then modify d (drop_free x) (modify d (set_free_neighbors F) s)
   else modify d (set_free_neighbors F) s)
  = modify d (set_free_neighbors (unblock c x F)) s.
Proof.
  destruct c; simpl; [|done]. rewrite modify_modify. by apply modify_ext.
Qed.

(** [find_free] returns exactly when every index it uses is valid, and
    then it only rewrites [d.free_neighbors], to [free_list]. *)
Lemma find_free_Ok d s s1 :
  find_free d s = Ok s1 ↔
  (∀ n, n ∈ neighbors (cell s d) → valid_index (res s) n) ∧
  valid_index (res s) (add_coord (coords (cell s d)) (0, 1)) ∧
  valid_index (res s) (add_coord (coords (cell s d)) (0, -1)) ∧
  s1 = modify d (set_free_neighbors (free_list s d)) s.
Proof.
  unfold find_free. field_modify.
  assert ((∀ n, n ∈ neighbors (cell s d) → valid_index (res s) n) ↔
          (∀ i_n, i_n ∈ enumerate (neighbors (cell s d)) →
                   valid_index (res s) i_n.2)) as Hv.
  { unfold enumerate. split.
    - intros H [i n] Hin. apply H. simpl.
      apply list_elem_of_lookup in Hin as [j Hj].
      apply lookup_zip_with_Some in Hj as (? & ? & [= <- <-] & _ & Hn).
      by eapply list_elem_of_lookup_2.
    - intros H n Hin. apply list_elem_of_lookup in Hin as [j Hj].
      apply (H (Z.of_nat j, n)). apply list_elem_of_lookup. exists j.
      apply lookup_zip_with_Some. exists (Z.of_nat j), n. split_and!; try done.
      unfold range. rewrite lookup_seqZ. split; [lia|].
      apply lookup_lt_Some in Hj. lia. }
  split.
  - rewrite bind_Ok. intros (s' & Hloop & H).
    pose proof (scan_loop_valid _ _ _ _ Hloop) as Hvalid. simpl in Hvalid.
    rewrite <- Hv in Hvalid.
    rewrite (scan_loop d s _ []) in Hloop by (by apply Hv).
    injection Hloop as <-. revert H. field_modify.
    rewrite !bind_Ok. intros (up & Hup & H).
    apply bind_Ok in H as (lo & Hlo & H).
    apply getitem_Ok in Hup as [Hup ->], Hlo as [Hlo ->].
    split_and!; [done | done | done |]. apply Ok_inj in H as <-.
    rewrite unblock_modify. field_modify.
    rewrite unblock_modify. field_modify.
    rewrite unblock_modify. field_modify.
    rewrite unblock_modify. done.
  - intros (Hn & Hup & Hlo & ->).
    rewrite (scan_loop d s _ []) by (by apply Hv). rewrite ret_bind. field_modify.
    rewrite (proj2 (getitem_Ok (modify d _ s) _ _) (conj Hup eq_refl)), ret_bind.
    rewrite (proj2 (getitem_Ok (modify d _ s) _ _) (conj Hlo eq_refl)), ret_bind.
    rewrite unblock_modify. field_modify.
    rewrite unblock_modify. field_modify.
    rewrite unblock_modify. field_modify.
    rewrite unblock_modify. done.
Qed.

Lemma elem_of_enumerate {A} (l : list A) i x :
  (i, x) ∈ enumerate l ↔ 0 ≤ i ∧ l !! Z.to_nat i = Some x.
Proof.
  unfold enumerate, range. rewrite list_elem_of_lookup. split.
  - intros [j Hj].
    apply lookup_zip_with_Some in Hj as (? & ? & [= <- <-] & Hi & Hx).
    apply lookup_seqZ in Hi as [-> _]. rewrite Z.add_0_l, Nat2Z.id. split; [lia | done].
  - intros [Hi Hx]. exists (Z.to_nat i).
    apply lookup_zip_with_Some. exists i, x. split_and!; [done | | done].
    apply lookup_seqZ. apply lookup_lt_Some in Hx. lia.
Qed.

Lemma elem_of_scan_free s d i :
  i ∈ scan_free s d ↔
  ∃ n, 0 ≤ i ∧ neighbors (cell s d) !! Z.to_nat i = Some n ∧
       empty (cell s (wrap (res s) n)) = true.
Proof.
  unfold scan_free. rewrite list_elem_of_fmap. split.
  - intros ([i' n] & -> & [Hin He]%list_elem_of_In%filter_In).
    apply list_elem_of_In, elem_of_enumerate in Hin as [? ?]. by exists n.
  - intros (n & Hi & Hn & He). exists (i, n). split; [done|].
    apply list_elem_of_In, filter_In. split; [|done].
    by apply list_elem_of_In, elem_of_enumerate.
Qed.

Lemma elem_of_unblock (c : bool) x l i :
  i ∈ unblock c x l ↔ i ∈ l ∧ ¬ (i = x ∧ c = true).
Proof.
  unfold unblock. destruct c.
  - rewrite list_elem_of_filter. naive_solver.
  - naive_solver.
Qed.

Lemma mem_true x l : mem x l = true ↔ x ∈ l.
Proof. unfold mem. apply bool_decide_eq_true. Qed.

(** The free neighbours are the empty neighbours that no bond blocks. *)
Lemma elem_of_free_list s d i :
  i ∈ free_list s d ↔
  i ∈ scan_free s d ∧
  ¬ blocked (bonds (cell s (upper_of s d))) (bonds (cell s (lower_of s d))) i.
Proof.
  unfold free_list, blocked. rewrite !elem_of_unblock, !mem_true. tauto.
Qed.

(** ** Geometry of the diagonal neighbours *)

Lemma wrap_in_grid n p : in_grid n p → wrap n p = p.
Proof.
  intros [H1 H2]. unfold wrap.
  destruct (Z.ltb_spec p.1 0), (Z.ltb_spec p.2 0); try lia. by destruct p.
Qed.

Lemma in_grid_valid n p : in_grid n p → valid_index n p.
Proof. unfold in_grid, valid_index. lia. Qed.

Lemma interior_in_grid n p : interior n p → in_grid n p.
Proof. unfold in_grid, interior. lia. Qed.

Lemma lookup_shifts p i n :
  0 ≤ i →
  (add_coord p <$> shifts) !! Z.to_nat i = Some n ↔
  i < 4 ∧ n = add_coord p (shift_of i).
Proof.
  intros Hi. unfold shift_of. destruct (decide (i < 4)).
  - assert (i = 0 ∨ i = 1 ∨ i = 2 ∨ i = 3) as [-> | [-> | [-> | ->]]] by lia;
      simpl; (split; [by intros [= <-] | by intros [_ ->]]).
  - rewrite lookup_ge_None_2 by (simpl; lia). split; [done | lia].
Qed.

Lemma neighbor_in_grid n p k :
  interior n p → 0 ≤ k < 4 → in_grid n (add_coord p (shift_of k)).
Proof.
  unfold interior, in_grid, add_coord. intros Hp Hk.
  assert (k = 0 ∨ k = 1 ∨ k = 2 ∨ k = 3) as [-> | [-> | [-> | ->]]] by lia;
    simpl; lia.
Qed.

Lemma vertical_in_grid n p dy :
  interior n p → dy = 1 ∨ dy = -1 → in_grid n (add_coord p (0, dy)).
Proof. unfold interior, in_grid, add_coord. simpl. lia. Qed.

(** Opposite directions undo each other. *)
Lemma shift_back p k :
  0 ≤ k < 4 →
  add_coord (add_coord p (shift_of k)) (shift_of ((k + 2) mod 4)) = p.
Proof.
  intros Hk. destruct p as [i j].
  assert (k = 0 ∨ k = 1 ∨ k = 2 ∨ k = 3) as [-> | [-> | [-> | ->]]] by lia;
    unfold add_coord; simpl; f_equal; lia.
Qed.

Lemma opposite_twice k : 0 ≤ k < 4 → ((k + 2) mod 4 + 2) mod 4 = k.
Proof.
  intros Hk.
  assert (k = 0 ∨ k = 1 ∨ k = 2 ∨ k = 3) as [-> | [-> | [-> | ->]]] by lia; done.
Qed.

Lemma opposite_range k : 0 ≤ (k + 2) mod 4 < 4.
Proof. apply Z.mod_pos_bound. lia. Qed.

Lemma shift_ne p k : 0 ≤ k < 4 → add_coord p (shift_of k) ≠ p.
Proof.
  intros Hk. destruct p as [i j].
  assert (k = 0 ∨ k = 1 ∨ k = 2 ∨ k = 3) as [-> | [-> | [-> | ->]]] by lia;
    unfold add_coord; simpl; intros [= ? ?]; lia.
Qed.

(** ** The loop body of [step] on a well-formed grid *)

Section step_cell.
Context (s : Jigsaw) (coo : Z * Z).
Hypothesis Hok : grid_ok s.
Hypothesis Hcoo : interior (res s) coo.

Lemma upper_of_ok : upper_of s coo = add_coord coo (0, 1).
Proof.
  unfold upper_of. rewrite (ok_coords s Hok) by by apply interior_in_grid.
  apply wrap_in_grid, vertical_in_grid; auto.
Qed.

Lemma lower_of_ok : lower_of s coo = add_coord coo (0, -1).
Proof.
  unfold lower_of. rewrite (ok_coords s Hok) by by apply interior_in_grid.
  apply wrap_in_grid, vertical_in_grid; auto.
Qed.

Lemma elem_of_scan_free_ok i :
  i ∈ scan_free s coo ↔
  0 ≤ i < 4 ∧ empty (cell s (add_coord coo (shift_of i))) = true.
Proof.
  rewrite elem_of_scan_free.
  rewrite (ok_neighbors s Hok) by by apply interior_in_grid. split.
  - intros (n & Hi & [Hi' ->]%lookup_shifts & He); [|done].
    rewrite wrap_in_grid in He by (apply neighbor_in_grid; [done | lia]).
    split; [lia | done].
  - intros [Hi He]. exists (add_coord coo (shift_of i)). split; [lia|].
    split; [apply lookup_shifts; [lia | split; [lia | done]] |].
    by rewrite wrap_in_grid by (by apply neighbor_in_grid).
Qed.

Lemma elem_of_free_list_ok i :
  i ∈ free_list s coo ↔
  0 ≤ i < 4 ∧ empty (cell s (add_coord coo (shift_of i))) = true ∧
  ¬ blocked (bonds (cell s (add_coord coo (0, 1))))
            (bonds (cell s (add_coord coo (0, -1)))) i.
Proof.
  rewrite elem_of_free_list, elem_of_scan_free_ok, upper_of_ok, lower_of_ok.
  tauto.
Qed.

Lemma find_free_run : find_free coo s = Ok (found s coo).
Proof.
  apply find_free_Ok. rewrite (ok_coords s Hok) by by apply interior_in_grid.
  rewrite (ok_neighbors s Hok) by by apply interior_in_grid.
  split_and!; [| | | done].
  - intros n [j Hj]%list_elem_of_lookup.
    rewrite <- (Nat2Z.id j) in Hj. apply lookup_shifts in Hj as [? ->]; [|lia].
    apply in_grid_valid, neighbor_in_grid; [done | lia].
  - apply in_grid_valid, vertical_in_grid; auto.
  - apply in_grid_valid, vertical_in_grid; auto.
Qed.
End step_cell.

Lemma grow_run d k s n q :
  py_index (neighbors (cell s d)) k = Ok n →
  getitem s n = Ok q →
  grow d k s = Ok (claim_state d q k s).
Proof.
  intros Hn Hq. unfold grow. rewrite Hn, ret_bind, Hq, ret_bind.
  rewrite !modify_modify. done.
Qed.

Lemma grow_Ok d k s s' :
  grow d k s = Ok s' ↔
  ∃ n q, py_index (neighbors (cell s d)) k = Ok n ∧ getitem s n = Ok q ∧
         s' = claim_state d q k s.
Proof.
  split.
  - intros H.
    destruct (py_index (neighbors (cell s d)) k) as [n|] eqn:Hn;
      [|by unfold grow in H; rewrite Hn in H].
    destruct (getitem s n) as [q|] eqn:Hq;
      [|by unfold grow in H; rewrite Hn, ret_bind, Hq in H].
    rewrite (grow_run d k s n q Hn Hq) in H. apply Ok_inj in H as <-. eauto.
  - intros (n & q & Hn & Hq & ->). by apply (grow_run _ _ _ n).
Qed.

Lemma choice_of_elem arr g k g' : choice_of arr g = Ok (k, g') → k ∈ arr.
Proof.
  unfold choice_of. destruct arr as [|x arr]; [done|].
  destruct (randbelow _ g) as [j g1]. intros H%Ok_inj.
  assert (k = nth (Z.to_nat j) (x :: arr) x) as -> by congruence.
  apply list_elem_of_In.
  destruct (nth_in_or_default (Z.to_nat j) (x :: arr) x) as [? | ->]; [done | by left].
Qed.

Lemma choice_of_returns arr g : arr ≠ [] → ∃ k g', choice_of arr g = Ok (k, g').
Proof.
  unfold choice_of. destruct arr as [|x arr]; [done|]. intros _.
  destruct (randbelow _ g) as [j g1]. eauto.
Qed.

Lemma py_index_shifts p k :
  0 ≤ k < 4 →
  py_index (add_coord p <$> shifts) k = Ok (add_coord p (shift_of k)).
Proof.
  intros Hk. unfold py_index.
  change (Z.of_nat (length (add_coord p <$> shifts))) with 4.
  rewrite norm_index_id, ret_bind by done.
  by rewrite (proj2 (lookup_shifts p k _ (proj1 Hk)) (conj (proj2 Hk) eq_refl)).
Qed.

Lemma free_neighbors_found s coo :
  free_neighbors (cell (found s coo) coo) = free_list s coo.
Proof. apply free_neighbors_modify. Qed.

Lemma neighbors_claim_found d q k s p :
  neighbors (cell (claim_state d q k (found s d)) p) = neighbors (cell s p).
Proof. unfold claim_state, found. by field_modify. Qed.

Lemma step_cell_outcome grow_prop coo s g new :
  grid_ok s → interior (res s) coo →
  ∃ st', step_cell grow_prop coo (s, g, new) = Ok st' ∧
         cell_outcome grow_prop coo s g new st'.
Proof.
  intros Hok Hcoo. pose proof (interior_in_grid _ _ Hcoo) as Hin.
  unfold step_cell. rewrite getitem_id, ret_bind by done.
  rewrite find_free_run, ret_bind by done.
  rewrite !free_neighbors_found.
  destruct (free_list s coo) as [|x F] eqn:HF.
  - eexists. split; [done|]. by constructor.
  - rewrite <- HF.
    destruct (choice_of_returns (free_list s coo) g) as (k & g1 & Hc);
      [by rewrite HF|].
    rewrite Hc, ret_bind. destruct (rand g1) as [r g2] eqn:Hr.
    pose proof (choice_of_elem _ _ _ _ Hc) as Hk.
    apply elem_of_free_list_ok in Hk as (Hk & He & _); [|done..].
    destruct (Qltb r grow_prop) eqn:Hlt.
    + assert (grow coo k (found s coo)
              = Ok (claim_state coo (add_coord coo (shift_of k)) k (found s coo)))
        as Hgrow.
      { apply (grow_run _ _ _ (add_coord coo (shift_of k))).
        - unfold found. field_modify. rewrite (ok_neighbors s Hok) by done.
          by apply py_index_shifts.
        - apply getitem_id. by apply neighbor_in_grid. }
      rewrite Hgrow, ret_bind, neighbors_claim_found.
      rewrite (ok_neighbors s Hok), py_index_shifts, ret_bind by done.
      eexists. split; [done|]. by eapply out_grow.
    + eexists. split; [done|]. by eapply out_stay.
Qed.

(** ** Preservation of the invariant *)

Lemma res_modify k f s : res (modify k f s) = res s.
Proof. done. Qed.

Lemma active_cells_modify k f s : active_cells (modify k f s) = active_cells s.
Proof. done. Qed.

Lemma num_pieces_modify k f s : num_pieces (modify k f s) = num_pieces s.
Proof. done. Qed.

Lemma extends_refl s : extends s s.
Proof. by split. Qed.

Lemma extends_trans s1 s2 s3 : extends s1 s2 → extends s2 s3 → extends s1 s3.
Proof.
  intros [] []. split; [congruence | auto..].
Qed.

Lemma cells_ok_extends s s' l : extends s s' → cells_ok s l → cells_ok s' l.
Proof.
  intros He Hl p Hp. destruct (Hl p Hp) as [Hi Hn]. split.
  - by rewrite (ext_res _ _ He).
  - by apply (ext_empty _ _ He).
Qed.

Lemma cells_ok_app s l1 l2 : cells_ok s l1 → cells_ok s l2 → cells_ok s (l1 ++ l2).
Proof. intros H1 H2 p [?|?]%elem_of_app; auto. Qed.

Lemma cells_ok_singleton s p :
  interior (res s) p → empty (cell s p) = false → cells_ok s [p].
Proof. intros ?? q ->%list_elem_of_singleton. done. Qed.

(** A mutation of one cell that keeps its position and bonds, and does
    not unclaim it. *)
Section modify_one.
Context (s : Jigsaw) (d : Z * Z) (f : Dot → Dot).
Hypothesis Hbonds : bonds (f (cell s d)) = bonds (cell s d).

Lemma bonds_modify_one p : bonds (cell (modify d f s) p) = bonds (cell s p).
Proof. rewrite cell_modify. case_decide; [by subst | done]. Qed.

Lemma extends_modify :
  (empty (cell s d) = false → empty (f (cell s d)) = false) →
  (∀ x, color (cell s d) = Some x → color (f (cell s d)) = Some x) →
  extends s (modify d f s).
Proof.
  intros He Hc. split; try done.
  - intros p. rewrite cell_modify. case_decide; [by subst | done].
  - intros p c. rewrite cell_modify. case_decide; [subst; apply Hc | done].
  - intros p k. by rewrite bonds_modify_one.
Qed.

Lemma grid_ok_modify :
  grid_ok s → in_grid (res s) d →
  coords (f (cell s d)) = coords (cell s d) →
  neighbors (f (cell s d)) = neighbors (cell s d) →
  (empty (f (cell s d)) = true →
     empty (cell s d) = true ∧ active (f (cell s d)) = true ∧
     color (f (cell s d)) = None) →
  (∀ x, color (f (cell s d)) = Some x → 1 ≤ x) →
  grid_ok (modify d f s).
Proof.
  intros Hok Hd Hco Hne Hem Hcol. split.
  - rewrite res_modify. apply Hok.
  - intros p. rewrite res_modify, lookup_modify.
    case_decide; [subst | apply Hok]. split; [done | by eexists].
  - intros p. rewrite res_modify, cell_modify.
    case_decide; [subst; rewrite Hco|]; apply Hok.
  - intros p. rewrite res_modify, cell_modify.
    case_decide; [subst; rewrite Hne|]; apply Hok.
  - intros p. rewrite res_modify, cell_modify.
    case_decide; [subst | apply Hok]. intros Hin Hnot.
    destruct (empty (f (cell s p))) eqn:E; [|done].
    destruct (Hem eq_refl) as [E' _]. by rewrite (ok_border s Hok p) in E'.
  - intros p. rewrite bonds_modify_one, cell_modify.
    case_decide; [subst | apply Hok]. intros E.
    destruct (Hem E) as (E' & ? & ?). split_and!; [done..|]. by apply Hok.
  - intros p c. rewrite cell_modify. case_decide; [subst; apply Hcol | apply Hok].
  - intros p k. rewrite !bonds_modify_one. apply Hok.
Qed.
End modify_one.

Lemma found_extends s coo : extends s (found s coo).
Proof. by apply extends_modify. Qed.

Lemma found_grid_ok s coo :
  grid_ok s → in_grid (res s) coo → grid_ok (found s coo).
Proof.
  intros Hok Hin. apply grid_ok_modify; try done.
  - simpl. intros E. by destruct (ok_empty s Hok coo E) as (? & ? & ?).
  - apply Hok.
Qed.

Lemma found_fields s coo p :
  empty (cell (found s coo) p) = empty (cell s p) ∧
  bonds (cell (found s coo) p) = bonds (cell s p) ∧
  color (cell (found s coo) p) = color (cell s p) ∧
  active (cell (found s coo) p) = active (cell s p).
Proof. unfold found. by field_modify. Qed.

Lemma deactivate_grid_ok s coo :
  grid_ok s → in_grid (res s) coo → empty (cell s coo) = false →
  grid_ok (modify coo (set_active false) s).
Proof.
  intros Hok Hin He. apply grid_ok_modify; try done.
  - simpl. by rewrite He.
  - apply Hok.
Qed.

(** The claim of the free neighbour [q] of [d] through direction [k]. *)
Section claim.
Context (s : Jigsaw) (d : Z * Z) (k : Z).
Let q := add_coord d (shift_of k).
Let s' := claim_state d q k s.
Hypothesis Hok : grid_ok s.
Hypothesis Hd : interior (res s) d.
Hypothesis Hclaimed : empty (cell s d) = false.
Hypothesis Hk : 0 ≤ k < 4.
Hypothesis Hfree : empty (cell s q) = true.

Lemma claim_target_ne : q ≠ d.
Proof. by apply shift_ne. Qed.

Lemma claim_target_in_grid : in_grid (res s) q.
Proof. by apply neighbor_in_grid. Qed.

Lemma claim_target_interior : interior (res s) q.
Proof.
  assert (interior (res s) q ∨ ¬ interior (res s) q) as [?|Hn]
    by (unfold interior; lia); [done|].
  pose proof (ok_border s Hok q claim_target_in_grid Hn). congruence.
Qed.

Lemma cell_claim_state p :
  cell s' p =
  if decide (p = d) then push_bond k (cell s d)
  else if decide (p = q) then claim_dot (color (cell s d)) k (cell s q)
  else cell s p.
Proof.
  unfold s', claim_state. rewrite !cell_modify.
  pose proof claim_target_ne.
  repeat case_decide; try done; congruence.
Qed.

Lemma claim_bonds_mono p j : j ∈ bonds (cell s p) → j ∈ bonds (cell s' p).
Proof.
  rewrite cell_claim_state. repeat case_decide; subst; simpl; try done.
  - intros. apply elem_of_app. by left.
  - intros. apply elem_of_app. by left.
Qed.

Lemma claim_extends : extends s s'.
Proof.
  split; try done.
  - intros p. rewrite cell_claim_state. repeat case_decide; by subst.
  - intros p c. rewrite cell_claim_state. repeat case_decide; subst; try done.
    destruct (ok_empty s Hok _ Hfree) as (_ & Hc & _).
    fold q. rewrite Hc. done.
  - apply claim_bonds_mono.
Qed.

Lemma claim_grid_ok : grid_ok s'.
Proof.
  pose proof claim_target_in_grid as Hq. pose proof claim_target_ne as Hne.
  pose proof (interior_in_grid _ _ Hd) as Hdin.
  destruct (ok_empty s Hok _ Hfree) as (_ & _ & Hqb).
  split.
  - apply Hok.
  - intros p. unfold s', claim_state. rewrite res_modify, res_modify, !lookup_modify.
    repeat case_decide; subst; try apply Hok; (split; [done | by eexists]).
  - intros p. rewrite cell_claim_state.
    repeat case_decide; subst; simpl; apply Hok.
  - intros p. rewrite cell_claim_state.
    repeat case_decide; subst; simpl; apply Hok.
  - intros p. rewrite cell_claim_state.
    repeat case_decide; subst; simpl; try done; apply Hok.
  - intros p. rewrite cell_claim_state.
    repeat case_decide; subst; simpl; try done; try congruence; apply Hok.
  - intros p c. rewrite cell_claim_state.
    repeat case_decide; subst; simpl; apply Hok.
  - intros p j Hj. rewrite cell_claim_state in Hj.
    destruct (decide (p = d)) as [-> | Hpd]; [|destruct (decide (p = q)) as [-> | Hpq]].
    + simpl in Hj. apply elem_of_app in Hj as [Hj | ->%list_elem_of_singleton].
      * destruct (ok_bonds s Hok _ _ Hj) as [? ?]. split; [done|].
        by apply claim_bonds_mono.
      * split; [done|]. fold q. rewrite cell_claim_state.
        rewrite decide_False, decide_True by done. simpl.
        apply elem_of_app. right. by left.
    + simpl in Hj. rewrite Hqb in Hj.
      apply list_elem_of_singleton in Hj as ->.
      split; [apply opposite_range|].
      unfold q. rewrite shift_back, opposite_twice by done.
      rewrite cell_claim_state, decide_True by done. simpl.
      apply elem_of_app. right. by left.
    + destruct (ok_bonds s Hok _ _ Hj) as [? ?]. split; [done|].
      by apply claim_bonds_mono.
Qed.

Lemma claim_target_claimed : empty (cell s' q) = false.
Proof.
  rewrite cell_claim_state. pose proof claim_target_ne.
  rewrite decide_False, decide_True by done. done.
Qed.
End claim.

(** Every outcome of the loop body keeps the grid well formed, never
    unclaims or recolours a cell, and leaves [new_active_cells] a list of
    claimed cells. *)
Lemma outcome_ok grow_prop coo s g new s' g' new' :
  grid_ok s → interior (res s) coo → empty (cell s coo) = false →
  cell_outcome grow_prop coo s g new (s', g', new') →
  grid_ok s' ∧ extends s s' ∧ (cells_ok s new → cells_ok s' new').
Proof.
  intros Hok Hcoo Hne Hout. pose proof (interior_in_grid _ _ Hcoo) as Hin.
  pose proof (found_grid_ok s coo Hok Hin) as Hfok.
  pose proof (found_extends s coo) as Hfext.
  destruct (found_fields s coo coo) as (Hfe & _).
  inversion Hout as [HF | k g1 r g2 Hc Hr Hlt | k g1 r g2 Hc Hr Hlt]; subst.
  - assert (extends (found s coo) (modify coo (set_active false) (found s coo)))
      as Hext by (by apply extends_modify).
    split_and!.
    + apply deactivate_grid_ok; [done | done | congruence].
    + by eapply extends_trans.
    + intros. apply (cells_ok_extends s); [by eapply extends_trans | done].
  - apply choice_of_elem, elem_of_free_list_ok in Hc as (Hk & He & _); [|done..].
    assert (empty (cell (found s coo) (add_coord coo (shift_of k))) = true) as He'
      by (by destruct (found_fields s coo (add_coord coo (shift_of k))) as (-> & _)).
    assert (empty (cell (found s coo) coo) = false) as Hne' by congruence.
    pose proof (claim_extends (found s coo) coo k Hfok Hk He') as Hext.
    split_and!.
    + by apply claim_grid_ok.
    + by eapply extends_trans.
    + intros Hnew. apply cells_ok_app; [|apply (cells_ok_app _ [_] [_])].
      * apply (cells_ok_extends s); [by eapply extends_trans | done].
      * apply cells_ok_singleton.
        -- by apply (claim_target_interior (found s coo)).
        -- by apply claim_target_claimed.
      * apply cells_ok_singleton; [done|].
        by apply (ext_empty _ _ Hext).
  - split_and!; [done | done |].
    intros Hnew. apply cells_ok_app.
    + by apply (cells_ok_extends s).
    + apply cells_ok_singleton; [done | congruence].
Qed.

(** ** The generation step *)

Lemma shuffle_perm {A} (l : list A) g : (shuffle l g).1 ≡ₚ l.
Proof.
  revert g. induction l as [|x l IH]; intros g; cbn [shuffle]; [done|].
  specialize (IH g). destruct (shuffle l g) as [l' g1]. cbn [fst] in IH.
  destruct (randbelow (Z.of_nat (length l') + 1) g1) as [k g2]. cbn [fst].
  rewrite <- Permutation_middle, take_drop. by constructor.
Qed.

Lemma grid_ok_set_active_cells l s : grid_ok s → grid_ok (set_active_cells l s).
Proof. intros []. by split. Qed.

Lemma extends_set_active_cells l s : extends s (set_active_cells l s).
Proof. by split. Qed.

Lemma cells_ok_set_active_cells l s l' :
  cells_ok s l' → cells_ok (set_active_cells l s) l'.
Proof. done. Qed.

(** The loop of [step] from a well-formed grid: it returns, and any
    property [Q] of the processed cells, the grid and [new_active_cells]
    that every outcome of the body preserves holds at the end. *)
Lemma step_loop_inv (Q : list (Z * Z) → Jigsaw → list (Z * Z) → Prop)
    grow_prop l s g new :
  grid_ok s → cells_ok s l → cells_ok s new → Q [] s new →
  (∀ pre coo s1 g1 new1 s2 g2 new2,
     coo ∈ l → grid_ok s1 → extends s s1 →
     interior (res s1) coo → empty (cell s1 coo) = false → Q pre s1 new1 →
     cell_outcome grow_prop coo s1 g1 new1 (s2, g2, new2) →
     Q (pre ++ [coo]) s2 new2) →
  ∃ s' g' new',
    for_each l (step_cell grow_prop) (s, g, new) = Ok (s', g', new') ∧
    grid_ok s' ∧ extends s s' ∧ cells_ok s' new' ∧ Q l s' new'.
Proof.
  intros Hok Hl Hnew HQ Hstep.
  destruct (for_each_inv
    (λ pre (st : loop_state),
       grid_ok st.1.1 ∧ extends s st.1.1 ∧ cells_ok st.1.1 st.2 ∧
       Q pre st.1.1 st.2)
    l (step_cell grow_prop) (s, g, new)) as ([[s' g'] new'] & Hrun & HP).
  - cbn [fst snd]. split_and!; [done | apply extends_refl | done | done].
  - intros pre coo [[s1 g1] new1] (Hok1 & Hext1 & Hnew1 & HQ1) Hin.
    cbn [fst snd] in *.
    destruct (Hl coo Hin) as [Hint Hne].
    assert (interior (res s1) coo) as Hint1 by (by rewrite (ext_res _ _ Hext1)).
    assert (empty (cell s1 coo) = false) as Hne1 by (by apply (ext_empty _ _ Hext1)).
    destruct (step_cell_outcome grow_prop coo s1 g1 new1 Hok1 Hint1)
      as ([[s2 g2] new2] & Hrun & Hout).
    exists (s2, g2, new2). split; [done|]. cbn [fst snd].
    destruct (outcome_ok _ _ _ _ _ _ _ _ Hok1 Hint1 Hne1 Hout) as (Hok2 & Hext2 & Hnew2).
    split_and!; [done | by eapply extends_trans | by apply Hnew2 |].
    by apply (Hstep pre coo s1 g1 new1 s2 g2 new2).
  - exists s', g', new'. done.
Qed.

Lemma step_inv (Q : list (Z * Z) → Jigsaw → list (Z * Z) → Prop) grow_prop s g :
  Inv s →
  (∀ l, Q [] (set_active_cells l s) []) →
  (∀ pre coo s1 g1 new1 s2 g2 new2,
     coo ∈ active_cells s → grid_ok s1 → extends s s1 →
     interior (res s1) coo → empty (cell s1 coo) = false → Q pre s1 new1 →
     cell_outcome grow_prop coo s1 g1 new1 (s2, g2, new2) →
     Q (pre ++ [coo]) s2 new2) →
  ∃ s1 g' new,
    step grow_prop s g = Ok (set_active_cells new s1, g') ∧
    Inv (set_active_cells new s1) ∧ extends s (set_active_cells new s1) ∧
    Q (shuffle (active_cells s) g).1 s1 new.
Proof.
  intros [Hok Hact] HQ0 Hstep. unfold step.
  pose proof (shuffle_perm (active_cells s) g) as Hperm.
  destruct (shuffle (active_cells s) g) as [l g1]. cbn [fst] in *.
  change (active_cells (set_active_cells l s)) with l.
  assert (cells_ok s l) as Hl by (intros p Hp; apply Hact; by rewrite <- Hperm).
  destruct (step_loop_inv Q grow_prop l (set_active_cells l s) g1 [])
    as (s1 & g' & new & Hrun & Hok1 & Hext1 & Hnew & HQ).
  - by apply grid_ok_set_active_cells.
  - done.
  - by intros p ?%elem_of_nil.
  - apply HQ0.
  - intros pre coo s2 g2 new2 s3 g3 new3 Hin Hok2 Hext2. apply Hstep.
    + by rewrite <- Hperm.
    + done.
    + eapply extends_trans; [apply (extends_set_active_cells l) | done].
  - exists s1, g', new. rewrite Hrun, ret_bind.
    split_and!; [done | | | done].
    + split; [by apply grid_ok_set_active_cells | done].
    + eapply extends_trans; [apply (extends_set_active_cells l)|].
      eapply extends_trans; [done | apply extends_set_active_cells].
Qed.

Lemma step_Inv grow_prop s g :
  Inv s → ∃ s' g', step grow_prop s g = Ok (s', g') ∧ Inv s' ∧ extends s s'.
Proof.
  intros HI. destruct (step_inv (λ _ _ _, True) grow_prop s g HI)
    as (s1 & g' & new & Hrun & HI' & Hext & _); [done | done |].
  eauto.
Qed.

(** ** The convergence loop *)

Lemma steps_loop_Inv grow_prop budget l s g :
  Inv s →
  ∃ s' g' r, steps_loop grow_prop budget l s g = Ok (s', g', r) ∧
             Inv s' ∧ extends s s'.
Proof.
  revert s g. induction l as [|i l IH]; intros s g HI; cbn [steps_loop].
  - exists s, g, (DidNotConverge budget). split_and!; [done | done | apply extends_refl].
  - destruct (step_Inv grow_prop s g HI) as (s1 & g1 & -> & HI1 & Hext1).
    rewrite ret_bind. destruct (active_cells s1) eqn:Hact.
    + exists s1, g1, (Converged i). done.
    + destruct (IH s1 g1 HI1) as (s2 & g2 & r & -> & HI2 & Hext2).
      exists s2, g2, r. split_and!; [done | done | by eapply extends_trans].
Qed.

Lemma steps_Inv budget grow_prop s g :
  Inv s →
  ∃ s' g' r, steps budget grow_prop s g = Ok (s', g', r) ∧ Inv s' ∧ extends s s'.
Proof. apply steps_loop_Inv. Qed.

(** ** Seeding *)

Lemma skip_skip n m g : skip n (skip m g) = skip (m + n) g.
Proof. unfold skip. simpl. f_equal. lia. Qed.

Lemma choice_pair_sample R g :
  0 < R → choice_pair R g = Ok (sample R g 0, skip 2 g).
Proof.
  intros HR. unfold choice_pair, sample, skip, randbelow, draw.
  destruct (Z.leb_spec R 0); [lia|]. cbn [source cursor N.of_nat].
  rewrite N.mul_0_r, N.add_0_r.
  replace (N.succ (N.succ (cursor g))) with (cursor g + 2)%N by lia.
  by replace (N.succ (cursor g)) with (cursor g + 1)%N by lia.
Qed.

Lemma sample_skip R g i : sample R (skip 2 g) i = sample R g (S i).
Proof.
  unfold sample, skip. cbn [source cursor].
  by replace (cursor g + 2 + 2 * N.of_nat i)%N
    with (cursor g + 2 * N.of_nat (S i))%N by lia.
Qed.

Lemma sample_in_grid R g i : 0 < R → in_grid R (sample R g i).
Proof. intros. unfold sample, in_grid. simpl. split; by apply Z.mod_pos_bound. Qed.

Lemma skip_succ g (n : nat) :
  skip (2 * N.of_nat n) (skip 2 g) = skip (2 * N.of_nat (S n)) g.
Proof. unfold skip. simpl. f_equal. lia. Qed.

Section seed_loop.
Context (c : Z) (min_dist : Q) (s : Jigsaw).
Hypothesis Hres : 0 < res s.

Lemma seed_attempt_run d g :
  seed_attempt c min_dist d s g
  = Ok (if acceptable min_dist s (sample (res s) g 0)
        then Break (place c (sample (res s) g 0) s)
        else Continue (if too_close (sample (res s) g 0) min_dist s then d
                       else Stored (sample (res s) g 0)),
        skip 2 g).
Proof.
  unfold seed_attempt. rewrite choice_pair_sample, ret_bind by done.
  pose proof (sample_in_grid (res s) g 0 Hres) as Hin.
  unfold acceptable. destruct (too_close _ _ _); [done|].
  rewrite getitem_id, ret_bind by done. cbn [deref negb andb].
  by destruct (unclaimed _).
Qed.

(** The loop places the seed on the first acceptable sample, and leaves
    the grid alone when its budget runs out. *)
Lemma seed_loop_spec budget : ∀ g d,
  unclaimed (deref s d) = false →
  (∀ n, (n < budget)%nat →
     acceptable min_dist s (sample (res s) g n) = true →
     (∀ i, (i < n)%nat → acceptable min_dist s (sample (res s) g i) = false) →
     seed_loop budget c min_dist d s g
     = Ok (place c (sample (res s) g n) s, skip (2 * N.of_nat (S n)) g)) ∧
  ((∀ i, (i < budget)%nat →
      acceptable min_dist s (sample (res s) g i) = false) →
   seed_loop budget c min_dist d s g = Ok (s, skip (2 * N.of_nat budget) g)).
Proof.
  induction budget as [|budget IH]; intros g d Hd.
  { split; [intros n; lia|]. intros _. simpl. unfold skip.
    rewrite N.add_0_r. by destruct g. }
  cbn [seed_loop]. rewrite Hd. cbn [negb].
  rewrite seed_attempt_run, ret_bind.
  set (d1 := if too_close (sample (res s) g 0) min_dist s then d
             else Stored (sample (res s) g 0)).
  destruct (acceptable min_dist s (sample (res s) g 0)) eqn:Hacc.
  - split.
    + intros [|n] _ _ Hfirst; [done|].
      rewrite Hfirst in Hacc by lia. done.
    + intros Hnone. rewrite Hnone in Hacc by lia. done.
  - assert (unclaimed (deref s d1) = false) as Hd1.
    { unfold d1, acceptable in *. destruct (too_close _ _ _); [done|].
      cbn [deref]. by destruct (unclaimed _). }
    destruct (IH (skip 2 g) d1 Hd1) as [IH1 IH2]. split.
    + intros [|n] Hn Hn_acc Hfirst; [congruence|].
      rewrite (IH1 n).
      * by rewrite sample_skip, skip_succ.
      * lia.
      * by rewrite sample_skip.
      * intros i Hi. rewrite sample_skip. apply Hfirst. lia.
    + intros Hnone. rewrite IH2.
      * by rewrite skip_succ.
      * intros i Hi. rewrite sample_skip. apply Hnone. lia.
Qed.

Lemma first_acceptable g budget :
  (∃ n, (n < budget)%nat ∧
        acceptable min_dist s (sample (res s) g n) = true ∧
        ∀ i, (i < n)%nat → acceptable min_dist s (sample (res s) g i) = false) ∨
  (∀ i, (i < budget)%nat → acceptable min_dist s (sample (res s) g i) = false).
Proof.
  induction budget as [|budget [(n & Hn & Ha & Hf) | Hnone]].
  - right. intros i. lia.
  - left. exists n. split_and!; [lia | done | done].
  - destruct (acceptable min_dist s (sample (res s) g budget)) eqn:Ha.
    + left. exists budget. split_and!; [lia | done | done].
    + right. intros i Hi. destruct (decide (i = budget)) as [-> | ?]; [done|].
      apply Hnone. lia.
Qed.
End seed_loop.

Lemma unclaimed_true d : unclaimed d = true ↔ empty d = true ∧ active d = true.
Proof. unfold unclaimed. apply andb_true_iff. Qed.

Lemma unclaimed_interior s p :
  grid_ok s → in_grid (res s) p → empty (cell s p) = true → interior (res s) p.
Proof.
  intros Hok Hin He.
  assert (interior (res s) p ∨ ¬ interior (res s) p) as [?|Hn]
    by (unfold interior; lia); [done|].
  pose proof (ok_border s Hok p Hin Hn). congruence.
Qed.

(** Claiming an empty cell for a piece, as the seeder and the completer
    do: the field updates [f] set a colour of at least 1 and clear
    [empty]. *)
Lemma claim_cell_Inv s p f l :
  Inv s → in_grid (res s) p → empty (cell s p) = true →
  coords (f (cell s p)) = coords (cell s p) →
  neighbors (f (cell s p)) = neighbors (cell s p) →
  bonds (f (cell s p)) = bonds (cell s p) →
  empty (f (cell s p)) = false →
  (∀ x, color (f (cell s p)) = Some x → 1 ≤ x) →
  l = active_cells s ++ [p] →
  Inv (set_active_cells l (modify p f s)) ∧
  extends s (set_active_cells l (modify p f s)).
Proof.
  intros [Hok Hact] Hin He Hco Hne Hbo Hem Hcol ->.
  assert (extends s (modify p f s)) as Hext.
  { apply extends_modify; [done | congruence |].
    destruct (ok_empty s Hok p He) as (_ & -> & _). done. }
  split_and!.
  - split.
    + apply grid_ok_set_active_cells, grid_ok_modify; try done. congruence.
    + apply cells_ok_set_active_cells, cells_ok_app.
      * by apply (cells_ok_extends s).
      * apply cells_ok_singleton; [by apply (unclaimed_interior s)|].
        by rewrite cell_modify_eq.
  - eapply extends_trans; [done | apply extends_set_active_cells].
Qed.

Lemma place_Inv c p s :
  Inv s → in_grid (res s) p → unclaimed (cell s p) = true → 1 ≤ c →
  Inv (place c p s) ∧ extends s (place c p s).
Proof.
  intros HI Hin [He _]%unclaimed_true Hc. unfold place.
  rewrite modify_modify, active_cells_modify.
  apply claim_cell_Inv; try done.
  - simpl. by intros x [= <-].
  - rewrite cell_modify_eq. simpl. by rewrite (ok_coords s (proj1 HI)).
Qed.

(** On a grid of side 0 the first draw of the seeder raises. *)
Lemma seed_loop_raise budget c min_dist d s g :
  res s ≤ 0 → unclaimed (deref s d) = false →
  seed_loop (S budget) c min_dist d s g = Raise ValueError.
Proof.
  intros Hres Hd. cbn [seed_loop]. rewrite Hd. cbn [negb].
  unfold seed_attempt, choice_pair. destruct (Z.leb_spec (res s) 0); [done | lia].
Qed.

Lemma seed_piece_Ok min_dist c s g s' g' :
  seed_piece min_dist c (s, g) = Ok (s', g') → 0 ≤ res s →
  0 < res s ∧
  ((∃ n, (n < 1000)%nat ∧
         acceptable min_dist s (sample (res s) g n) = true ∧
         (∀ i, (i < n)%nat → acceptable min_dist s (sample (res s) g i) = false) ∧
         s' = place c (sample (res s) g n) s ∧
         g' = skip (2 * N.of_nat (S n)) g) ∨
   ((∀ i, (i < 1000)%nat → acceptable min_dist s (sample (res s) g i) = false) ∧
    s' = s ∧ g' = skip 2000 g)).
Proof.
  intros Hrun Hres. unfold seed_piece in Hrun.
  assert (0 < res s) as Hpos.
  { destruct (decide (0 < res s)) as [?|Hn]; [done|]. exfalso.
    change (seed_loop 1000) with (seed_loop (S 999)) in Hrun.
    rewrite seed_loop_raise in Hrun; [done | lia | done]. }
  split; [done|].
  destruct (seed_loop_spec c min_dist s Hpos 1000 g
              (Local (set_empty false (Dot_init 0 0))) eq_refl) as [H1 H2].
  destruct (first_acceptable min_dist s g 1000) as [(n & Hn & Ha & Hf) | Hnone].
  - left. exists n. rewrite (H1 n Hn Ha Hf) in Hrun.
    apply Ok_inj in Hrun. split_and!; [done | done | done | congruence | congruence].
  - right. rewrite (H2 Hnone) in Hrun. apply Ok_inj in Hrun.
    change (skip 2000 g) with (skip (2 * N.of_nat 1000) g).
    split_and!; [done | congruence | congruence].
Qed.

Lemma seed_piece_Inv min_dist c s g s' g' :
  seed_piece min_dist c (s, g) = Ok (s', g') → Inv s → 1 ≤ c →
  Inv s' ∧ extends s s'.
Proof.
  intros Hrun HI Hc.
  apply seed_piece_Ok in Hrun as [Hpos [(n & _ & Ha & _ & -> & _) | (_ & -> & _)]];
    [| |apply HI].
  - apply andb_true_iff in Ha as [_ Hu].
    apply place_Inv; [done | by apply sample_in_grid | done | done].
  - split; [done | apply extends_refl].
Qed.

Lemma initiate_pieces_Inv n min_dist s g s' g' :
  initiate_pieces n min_dist s g = Ok (s', g') → Inv s →
  Inv s' ∧ res s' = res s ∧
  (∀ p, empty (cell s p) = false → empty (cell s' p) = false) ∧
  (∀ p c, color (cell s p) = Some c → color (cell s' p) = Some c) ∧
  (∀ p k, k ∈ bonds (cell s p) → k ∈ bonds (cell s' p)).
Proof.
  intros Hrun HI. unfold initiate_pieces in Hrun.
  assert (Inv (s', g').1 ∧ extends (set_num_pieces n s) (s', g').1) as [HI' Hext].
  { eapply (for_each_inv_Ok
      (λ st, Inv st.1 ∧ extends (set_num_pieces n s) st.1)); [| |exact Hrun].
    - split; [|apply extends_refl]. destruct HI as [[] ?]. by split.
    - intros c [s1 g1] [s2 g2] [HI1 Hext1] Hc%elem_of_seqZ Hb. cbn [fst snd] in *.
      destruct (seed_piece_Inv _ _ _ _ _ _ Hb HI1) as [HI2 Hext2]; [lia|].
      split; [done | by eapply extends_trans]. }
  destruct Hext. simpl in *. done.
Qed.

(** ** Completion *)

(** The body of the loops of [complete] returns and leaves the cell it
    visits claimed. *)
Lemma complete_cell_spec ij s g :
  Inv s → in_grid (res s) ij →
  ∃ s' g', complete_cell ij (s, g) = Ok (s', g') ∧
           Inv s' ∧ extends s s' ∧ empty (cell s' ij) = false.
Proof.
  intros HI Hin. unfold complete_cell. rewrite getitem_id, ret_bind by done.
  destruct (unclaimed (cell s ij)) eqn:Hu.
  - apply unclaimed_true in Hu as [He Ha].
    rewrite modify_modify, active_cells_modify.
    destruct (claim_cell_Inv s ij (set_color (Some filler_color) ∘ set_empty false)
                (active_cells s ++ [ij])) as [HI1 Hext1]; try done.
    { simpl. by intros x [= <-]. }
    set (s1 := set_active_cells _ _) in *.
    destruct (steps_Inv 1000 1 s1 g HI1) as (s2 & g2 & r & -> & HI2 & Hext2).
    rewrite ret_bind. exists s2, g2. split_and!; [done | done | |].
    + by eapply extends_trans.
    + apply (ext_empty _ _ Hext2). unfold s1.
      change (cell (set_active_cells ?l ?s) ?p) with (cell s p).
      by rewrite cell_modify_eq.
  - exists s, g. split_and!; [done | done | apply extends_refl |].
    destruct (empty (cell s ij)) eqn:He; [|done].
    destruct (ok_empty s (proj1 HI) ij He) as (Ha & _).
    unfold unclaimed in Hu. by rewrite He, Ha in Hu.
Qed.

Lemma complete_row i s g :
  Inv s → 0 ≤ i < res s →
  ∃ s' g',
    for_each (range (res s)) (λ j sg, complete_cell (i, j) sg) (s, g) = Ok (s', g') ∧
    Inv s' ∧ extends s s' ∧
    ∀ j, 0 ≤ j < res s → empty (cell s' (i, j)) = false.
Proof.
  intros HI Hi.
  destruct (for_each_inv
    (λ pre (st : Jigsaw * Rng),
       Inv st.1 ∧ extends s st.1 ∧ ∀ j, j ∈ pre → empty (cell st.1 (i, j)) = false)
    (range (res s)) (λ j sg, complete_cell (i, j) sg) (s, g))
    as ([s' g'] & Hrun & HI' & Hext & Hdone).
  - split_and!; [done | apply extends_refl | by intros j ?%elem_of_nil].
  - intros pre j [s1 g1] (HI1 & Hext1 & Hpre) Hj%elem_of_seqZ. cbn [fst snd] in *.
    destruct (complete_cell_spec (i, j) s1 g1 HI1) as (s2 & g2 & Hrun & HI2 & Hext2 & He).
    { rewrite (ext_res _ _ Hext1). split; simpl; lia. }
    exists (s2, g2). split; [done|]. cbn [fst snd].
    split_and!; [done | by eapply extends_trans |].
    intros j' [Hj' | ->%list_elem_of_singleton]%elem_of_app; [|done].
    apply (ext_empty _ _ Hext2). by apply Hpre.
  - exists s', g'. split_and!; [done..|].
    intros j Hj. apply Hdone. apply elem_of_seqZ. lia.
Qed.

(** [complete] returns, and afterwards no cell of the array is empty. *)
Lemma complete_spec s g :
  Inv s →
  ∃ s' g', complete s g = Ok (s', g') ∧ Inv s' ∧ extends s s' ∧
           ∀ p, in_grid (res s) p → empty (cell s' p) = false.
Proof.
  intros HI. unfold complete.
  destruct (for_each_inv
    (λ pre (st : Jigsaw * Rng),
       Inv st.1 ∧ extends s st.1 ∧
       ∀ i j, i ∈ pre → 0 ≤ j < res s → empty (cell st.1 (i, j)) = false)
    (range (res s))
    (λ i sg, for_each (range (res sg.1)) (λ j sg, complete_cell (i, j) sg) sg)
    (s, g))
    as ([s' g'] & Hrun & HI' & Hext & Hdone).
  - split_and!; [done | apply extends_refl | by intros i j ?%elem_of_nil].
  - intros pre i [s1 g1] (HI1 & Hext1 & Hpre) Hi%elem_of_seqZ. cbn [fst snd] in *.
    pose proof (ext_res _ _ Hext1) as Hres.
    destruct (complete_row i s1 g1 HI1) as (s2 & g2 & Hrun & HI2 & Hext2 & He);
      [lia|].
    exists (s2, g2). split; [done|]. cbn [fst snd].
    split_and!; [done | by eapply extends_trans |].
    intros i' j [Hi' | ->%list_elem_of_singleton]%elem_of_app Hj.
    + apply (ext_empty _ _ Hext2). by apply Hpre.
    + apply He. lia.
  - exists s', g'. split_and!; [done..|].
    intros [i j] [Hi Hj]. simpl in *. apply Hdone; [apply elem_of_seqZ; lia | done].
Qed.

(** ** Every reachable grid satisfies the invariant *)

Lemma operation_Inv s s' : Inv s → operation s s' → Inv s' ∧ extends s s'.
Proof.
  intros HI [n md g g' H | gp g g' H | b gp g g' r H | g g' H].
  - destruct (initiate_pieces_Inv _ _ _ _ _ _ H HI) as (HI' & Hres & He & Hc & Hb).
    split; [done|]. by split.
  - destruct (step_Inv gp s g HI) as (s1 & g1 & H1 & ? & ?).
    rewrite H in H1. apply Ok_inj in H1. by injection H1 as <- <-.
  - destruct (steps_Inv b gp s g HI) as (s1 & g1 & r1 & H1 & ? & ?).
    rewrite H in H1. apply Ok_inj in H1. by injection H1 as <- <- <-.
  - destruct (complete_spec s g HI) as (s1 & g1 & H1 & ? & ? & _).
    rewrite H in H1. apply Ok_inj in H1. by injection H1 as <- <-.
Qed.

Lemma reachable_Inv s : reachable s → Inv s.
Proof.
  induction 1 as [res0 bt s H | s s' _ IH Hop].
  - by eapply Jigsaw_init_Inv.
  - by destruct (operation_Inv s s' IH Hop).
Qed.

Lemma operations_Inv s s' :
  Inv s → rtc operation s s' → Inv s' ∧ extends s s'.
Proof.
  intros HI Hops. induction Hops as [s | s s1 s2 Hop _ IH].
  - split; [done | apply extends_refl].
  - destruct (operation_Inv s s1 HI Hop) as [HI1 Hext1].
    destruct (IH HI1) as [HI2 Hext2]. split; [done | by eapply extends_trans].
Qed.

Lemma lookup_cell_Some s p d :
  grid_ok s → jigsaw s !! p = Some d → cell s p = d ∧ in_grid (res s) p.
Proof.
  intros Hok H. split; [by apply lookup_cell|]. apply (ok_dom s Hok). by eexists.
Qed.

Lemma lookup_in_grid s p :
  grid_ok s → in_grid (res s) p → jigsaw s !! p = Some (cell s p).
Proof.
  intros Hok Hin. apply (ok_dom s Hok) in Hin as [d Hd].
  by rewrite (lookup_cell s p d Hd).
Qed.

(** ** The run *)

Lemma demo_grid_init : Jigsaw_init 3 "rect" = Ok demo_grid.
Proof. vm_compute. reflexivity. Qed.

Lemma demo_seeded_run :
  initiate_pieces 1 1 demo_grid demo_rng = Ok demo_seeded.
Proof. vm_compute. reflexivity. Qed.

Lemma demo_grown_run : step 1 demo_seeded.1 demo_seeded.2 = Ok demo_grown.
Proof. vm_compute. reflexivity. Qed.

Lemma demo_grid_reachable : reachable demo_grid.
Proof. apply (reach_init 3 "rect"), demo_grid_init. Qed.

Lemma demo_seeded_reachable : reachable demo_seeded.1.
Proof.
  apply (reach_op demo_grid); [apply demo_grid_reachable|].
  apply (op_initiate_pieces _ _ 1 1 demo_rng demo_seeded.2).
  rewrite demo_seeded_run. by destruct demo_seeded.
Qed.

Lemma demo_grown_reachable : reachable demo_grown.1.
Proof.
  apply (reach_op demo_seeded.1); [apply demo_seeded_reachable|].
  apply (op_step _ _ 1 demo_seeded.2 demo_grown.2).
  rewrite demo_grown_run. by destruct demo_grown.
Qed.

(** * The claims *)

(** C10. At every point of the simulation (after construction, seeding,
    growth steps and completion) a cell that is empty is active; the
    active list names claimed cells only; and [get_color] never takes its
    [-1] branch. *)
Theorem empty_cells_are_active s :
  reachable s →
  (∀ p d, jigsaw s !! p = Some d → empty d = true → active d = true) ∧
  (∀ p, p ∈ active_cells s → ∃ d, jigsaw s !! p = Some d ∧ empty d = false) ∧
  (∀ p d, jigsaw s !! p = Some d →
     ¬ (empty d = true ∧ active d = false) ∧ get_color d ≠ Some (-1)).
Proof.
  intros [Hok Hact]%reachable_Inv. split_and!.
  - intros p d [<- _]%lookup_cell_Some He; [|done]. by apply (ok_empty s Hok).
  - intros p [Hint Hne]%Hact. exists (cell s p). split; [|done].
    by apply lookup_in_grid, interior_in_grid.
  - intros p d [<- _]%lookup_cell_Some; [|done].
    assert (¬ (empty (cell s p) = true ∧ active (cell s p) = false)) as Hno.
    { intros [He Ha]. destruct (ok_empty s Hok p He) as (Ha' & _). congruence. }
    split; [done|]. unfold get_color.
    destruct (empty (cell s p)) eqn:He.
    + destruct (active (cell s p)) eqn:Ha; [done | by destruct Hno].
    + intros Hc. apply (ok_color s Hok) in Hc. lia.
Qed.

Lemma empty_cells_are_active_witness :
  (∀ p d, jigsaw demo_grown.1 !! p = Some d → empty d = true → active d = true) ∧
  (∀ p, p ∈ active_cells demo_grown.1 →
     ∃ d, jigsaw demo_grown.1 !! p = Some d ∧ empty d = false) ∧
  (∀ p d, jigsaw demo_grown.1 !! p = Some d →
     ¬ (empty d = true ∧ active d = false) ∧ get_color d ≠ Some (-1)).
Proof. exact (empty_cells_are_active demo_grown.1 demo_grown_reachable). Defined.



(** C5. Once a cell has a colour, no later operation of the simulation
    (seeding, a step, a run of steps, completion, in any number and
    order) changes it. *)
Theorem color_immutable s s' :
  reachable s → rtc operation s s' →
  ∀ p d c, jigsaw s !! p = Some d → color d = Some c →
    ∃ d', jigsaw s' !! p = Some d' ∧ color d' = Some c.
Proof.
  intros HI%reachable_Inv Hops p d c Hd Hc.
  destruct (operations_Inv s s' HI Hops) as [[Hok' _] Hext].
  apply lookup_cell_Some in Hd as [<- Hin]; [|apply HI].
  exists (cell s' p). split.
  - apply lookup_in_grid; [done|]. by rewrite (ext_res _ _ Hext).
  - by apply (ext_color _ _ Hext).
Qed.

Lemma color_immutable_witness :
  ∃ d', jigsaw demo_grown.1 !! (1, 3) = Some d' ∧ color d' = Some 1.
Proof.
  apply (color_immutable demo_seeded.1 demo_grown.1 demo_seeded_reachable
           (rtc_once _ _ (op_step _ _ 1 demo_seeded.2 demo_grown.2
              (eq_trans demo_grown_run
                 (f_equal Ok (surjective_pairing demo_grown)))))
           (1, 3) (cell demo_seeded.1 (1, 3)) 1).
  - vm_compute. reflexivity.
  - vm_compute. reflexivity.
Defined.

Lemma bonds_in_grid s q k :
  grid_ok s → k ∈ bonds (cell s q) → in_grid (res s) q.
Proof.
  intros Hok Hk. apply (ok_dom s Hok).
  destruct (jigsaw s !! q) as [d|] eqn:Hq; [by eexists|].
  unfold cell in Hk. rewrite lookup_total_alt, Hq in Hk.
  by apply elem_of_nil in Hk.
Qed.

(** The bonds after one execution of the loop body of [step]: either no
    bond changed, or the cell [d] grew into its neighbour [q] through
    some direction [k], and exactly the pair [k] at [d], [(k+2) mod 4] at
    [q] was appended. *)
Lemma step_cell_bonds grow_prop coo s g new s' g' new' :
  step_cell grow_prop coo (s, g, new) = Ok (s', g', new') →
  (∀ p, bonds (cell s' p) = bonds (cell s p)) ∨
  ∃ d k n q,
    getitem s coo = Ok d ∧ py_index (neighbors (cell s d)) k = Ok n ∧
    getitem s n = Ok q ∧
    ∀ p, bonds (cell s' p) =
         bonds (cell s p)
         ++ (if decide (p = q) then [(k + 2) mod 4] else [])
         ++ (if decide (p = d) then [k] else []).
Proof.
  intros H. unfold step_cell in H. apply bind_Ok in H as (d & Hd & H).
  apply bind_Ok in H as (s1 & Hf & H).
  apply find_free_Ok in Hf as (_ & _ & _ & ->). fold (found s d) in H.
  rewrite !free_neighbors_found in H.
  assert (∀ p, bonds (cell (found s d) p) = bonds (cell s p)) as Hfb
    by (intros p; by destruct (found_fields s d p) as (_ & -> & _)).
  destruct (free_list s d) as [|x F] eqn:HF.
  - apply Ok_inj in H. injection H as <- <- <-. left.
    intros p. by rewrite (proj_modify bonds).
  - apply bind_Ok in H as ([k g1] & Hc & H). destruct (rand g1) as [r g2].
    destruct (Qltb r grow_prop).
    + apply bind_Ok in H as (s2 & Hg & H). apply bind_Ok in H as (n' & Hn' & H).
      apply Ok_inj in H. injection H as <- <- <-.
      apply grow_Ok in Hg as (n & q & Hn & Hq & ->).
      right. exists d, k, n, q. split_and!; [done | | done |].
      * revert Hn. unfold found. by field_modify.
      * intros p. unfold claim_state. rewrite !cell_modify.
        repeat case_decide; subst; try done; simpl;
          rewrite ?Hfb, ?app_nil_r, <- ?app_assoc; done.
    + apply Ok_inj in H. injection H as <- <- <-. by left.
Qed.

(** C1. In every grid of the simulation, each bond [k] of a cell [A]
    leads, through [A.neighbors[k]], to a cell that holds the bond
    [(k+2) mod 4], whose neighbour in that direction is [A] again.  The
    two bonds of a pair are appended by the same execution of the loop
    body of [step], which appends no other bond. *)
Theorem bond_reciprocity s :
  reachable s →
  (∀ p A k, jigsaw s !! p = Some A → k ∈ bonds A →
     ∃ n q B n',
       py_index (neighbors A) k = Ok n ∧ getitem s n = Ok q ∧
       jigsaw s !! q = Some B ∧ ((k + 2) mod 4) ∈ bonds B ∧
       py_index (neighbors B) ((k + 2) mod 4) = Ok n' ∧
       getitem s n' = Ok p) ∧
  (∀ grow_prop coo s1 g new s' g' new',
     step_cell grow_prop coo (s1, g, new) = Ok (s', g', new') →
     (∀ p, bonds (cell s' p) = bonds (cell s1 p)) ∨
     ∃ d k n q,
       getitem s1 coo = Ok d ∧ py_index (neighbors (cell s1 d)) k = Ok n ∧
       getitem s1 n = Ok q ∧
       ∀ p, bonds (cell s' p) =
            bonds (cell s1 p)
            ++ (if decide (p = q) then [(k + 2) mod 4] else [])
            ++ (if decide (p = d) then [k] else [])).
Proof.
  intros [Hok _]%reachable_Inv. split; [|intros; by eapply step_cell_bonds].
  intros p A k [<- Hin]%lookup_cell_Some Hk; [|done].
  destruct (ok_bonds s Hok p k Hk) as [Hrange Hback].
  set (q := add_coord p (shift_of k)) in *.
  pose proof (bonds_in_grid s q _ Hok Hback) as Hq.
  exists q, q, (cell s q), p. split_and!.
  - rewrite (ok_neighbors s Hok p Hin). by apply py_index_shifts.
  - by apply getitem_id.
  - by apply lookup_in_grid.
  - done.
  - rewrite (ok_neighbors s Hok q Hq), py_index_shifts by apply opposite_range.
    unfold q. by rewrite shift_back.
  - by apply getitem_id.
Qed.

Lemma demo_cell_run :
  step_cell 1 (1, 3) (demo_seeded.1, demo_seeded.2, []) = Ok demo_cell.
Proof. vm_compute. reflexivity. Qed.

Lemma bond_reciprocity_witness :
  (∃ n q B n',
     py_index (neighbors (cell demo_grown.1 (2, 2))) 1 = Ok n ∧
     getitem demo_grown.1 n = Ok q ∧
     jigsaw demo_grown.1 !! q = Some B ∧ ((1 + 2) mod 4) ∈ bonds B ∧
     py_index (neighbors B) ((1 + 2) mod 4) = Ok n' ∧
     getitem demo_grown.1 n' = Ok (2, 2)) ∧
  ((∀ p, bonds (cell demo_cell.1.1 p) = bonds (cell demo_seeded.1 p)) ∨
   ∃ d k n q,
     getitem demo_seeded.1 (1, 3) = Ok d ∧
     py_index (neighbors (cell demo_seeded.1 d)) k = Ok n ∧
     getitem demo_seeded.1 n = Ok q ∧
     ∀ p, bonds (cell demo_cell.1.1 p) =
          bonds (cell demo_seeded.1 p)
          ++ (if decide (p = q) then [(k + 2) mod 4] else [])
          ++ (if decide (p = d) then [k] else [])).
Proof.
  destruct (bond_reciprocity demo_grown.1 demo_grown_reachable) as [H1 H2].
  split.
  - apply (H1 (2, 2) (cell demo_grown.1 (2, 2)) 1).
    + vm_compute. reflexivity.
    + vm_compute. apply list_elem_of_here.
  - apply (H2 1%Q (1, 3) demo_seeded.1 demo_seeded.2 [] demo_cell.1.1
             demo_cell.1.2 demo_cell.2).
    rewrite demo_cell_run. by destruct demo_cell as [[? ?] ?].
Defined.

Lemma step_cell_find_free grow_prop coo s g new st' :
  step_cell grow_prop coo (s, g, new) = Ok st' →
  ∃ d s1, getitem s coo = Ok d ∧ find_free d s = Ok s1 ∧
    ((free_neighbors (cell s1 d) = [] ∧
      st' = (modify d (set_active false) s1, g, new)) ∨
     (∃ nb_idx g1, choice_of (free_neighbors (cell s1 d)) g = Ok (nb_idx, g1) ∧
                   nb_idx ∈ free_neighbors (cell s1 d))).
Proof.
  intros H. unfold step_cell in H. apply bind_Ok in H as (d & Hd & H).
  apply bind_Ok in H as (s1 & Hf & H). exists d, s1. split_and!; [done..|].
  destruct (free_neighbors (cell s1 d)) as [|x F] eqn:HF.
  - left. split; [done|]. symmetry. by apply Ok_inj.
  - right. apply bind_Ok in H as ([k g1] & Hc & _).
    exists k, g1. split; [done|]. by eapply choice_of_elem.
Qed.

(** C2. The free set that the loop body of [step] computes for a cell
    holds exactly the directions whose neighbour is empty and that are
    not blocked: a bond 3 (resp. 2) of the cell at [coords + (0, 1)]
    blocks direction 0 (resp. 1), a bond 1 (resp. 0) of the cell at
    [coords + (0, -1)] blocks direction 2 (resp. 3), and nothing else
    removes a direction.  For an active cell of a grid of the simulation
    the computation returns, and the neighbours are the four diagonal
    ones. *)
Theorem bond_blocking s :
  reachable s →
  (∀ coo, coo ∈ active_cells s →
     ∃ s1, getitem s coo = Ok coo ∧ find_free coo s = Ok s1 ∧
       ∀ i, i ∈ free_neighbors (cell s1 coo) ↔
            0 ≤ i < 4 ∧ empty (cell s (add_coord coo (shift_of i))) = true ∧
            ¬ blocked (bonds (cell s (add_coord coo (0, 1))))
                      (bonds (cell s (add_coord coo (0, -1)))) i) ∧
  (∀ s0 d s1, find_free d s0 = Ok s1 →
     getitem s0 (add_coord (coords (cell s0 d)) (0, 1)) = Ok (upper_of s0 d) ∧
     getitem s0 (add_coord (coords (cell s0 d)) (0, -1)) = Ok (lower_of s0 d) ∧
     s1 = modify d (set_free_neighbors (free_neighbors (cell s1 d))) s0 ∧
     ∀ i, i ∈ free_neighbors (cell s1 d) ↔
          (∃ n q, 0 ≤ i ∧ neighbors (cell s0 d) !! Z.to_nat i = Some n ∧
                  getitem s0 n = Ok q ∧ empty (cell s0 q) = true) ∧
          ¬ blocked (bonds (cell s0 (upper_of s0 d)))
                    (bonds (cell s0 (lower_of s0 d))) i) ∧
  (∀ grow_prop coo s0 g new st',
     step_cell grow_prop coo (s0, g, new) = Ok st' →
     ∃ d s1, getitem s0 coo = Ok d ∧ find_free d s0 = Ok s1 ∧
       ((free_neighbors (cell s1 d) = [] ∧
         st' = (modify d (set_active false) s1, g, new)) ∨
        (∃ nb_idx g1,
           choice_of (free_neighbors (cell s1 d)) g = Ok (nb_idx, g1) ∧
           nb_idx ∈ free_neighbors (cell s1 d)))).
Proof.
  intros [Hok Hact]%reachable_Inv. split_and!.
  - intros coo [Hint _]%Hact. exists (found s coo).
    split_and!; [by apply getitem_id, interior_in_grid | by apply find_free_run |].
    intros i. rewrite free_neighbors_found. by apply elem_of_free_list_ok.
  - intros s0 d s1 (Hn & Hup & Hlo & ->)%find_free_Ok.
    rewrite free_neighbors_modify. split_and!.
    + by apply getitem_Ok.
    + by apply getitem_Ok.
    + done.
    + intros i. rewrite elem_of_free_list, elem_of_scan_free.
      apply and_iff_compat_r. split.
      * intros (n & Hi & Hl & He). exists n, (wrap (res s0) n).
        split_and!; [done | done | | done].
        apply getitem_Ok. split; [|done]. apply Hn. by eapply list_elem_of_lookup_2.
      * intros (n & q & Hi & Hl & [_ ->]%getitem_Ok & He). by exists n.
  - intros. by eapply step_cell_find_free.
Qed.

Lemma bond_blocking_witness :
  ∃ s1, getitem demo_seeded.1 (1, 3) = Ok (1, 3) ∧
    find_free (1, 3) demo_seeded.1 = Ok s1 ∧
    ∀ i, i ∈ free_neighbors (cell s1 (1, 3)) ↔
         0 ≤ i < 4 ∧
         empty (cell demo_seeded.1 (add_coord (1, 3) (shift_of i))) = true ∧
         ¬ blocked (bonds (cell demo_seeded.1 (add_coord (1, 3) (0, 1))))
                   (bonds (cell demo_seeded.1 (add_coord (1, 3) (0, -1)))) i.
Proof.
  apply (proj1 (bond_blocking demo_seeded.1 demo_seeded_reachable) (1, 3)).
  vm_compute. apply list_elem_of_here.
Defined.

(** In the grown grid of the run the cell (1, 3) above (1, 2) holds the
    bond 3: of the two empty neighbours 0 and 3 of (1, 2), only 3 is
    free. *)
Example bond_blocking_example :
  scan_free demo_grown.1 (1, 2) = [0; 3] ∧
  bonds (cell demo_grown.1 (1, 3)) = [3] ∧
  (s1 ← find_free (1, 2) demo_grown.1; Ok (free_neighbors (cell s1 (1, 2))))
  = Ok [3].
Proof. vm_compute. done. Qed.

Lemma Jigsaw_init_cells res0 bordertype s :
  Jigsaw_init res0 bordertype = Ok s →
  res s = res0 + 2 ∧
  (∀ p, is_Some (jigsaw s !! p) ↔ in_grid (res s) p) ∧
  ∀ p d, jigsaw s !! p = Some d →
    (mask_of bordertype (res s) p → d = wall_dot (Dot_init p.1 p.2)) ∧
    (¬ mask_of bordertype (res s) p → d = Dot_init p.1 p.2).
Proof.
  intros H. pose proof (Jigsaw_init_Inv _ _ _ H) as [Hok _].
  apply Jigsaw_init_Ok in H as [Hn (Hres & _ & _ & _ & Hc)]. simpl in Hres.
  split_and!; [done | apply Hok |].
  intros p d [<- Hin]%lookup_cell_Some; [|done]. rewrite Hres in *.
  rewrite <- (cell_fresh_grid (res0 + 2) p Hin). split.
  - intros Hm. by apply Hc.
  - intros Hm. destruct (Hc p) as [_ [? | [[_ ?] _]]]; done.
Qed.

(** C8. The constructor returns for every side [R = res + 2 >= 0] and
    fills exactly the cells [(i, j)] with [0 <= i, j < R].  With the
    rectangular border the walled cells are exactly those with a row or
    column index 0 or [R - 1], and all other cells are as created
    (unclaimed).  With the circular mask a cell is walled exactly when its
    distance from the centre exceeds [R/2 - 1.1], the others are as
    created, and the walled set is invariant under a quarter turn of the
    grid. *)
Theorem border_mask_correct :
  (∀ res0 bordertype, 0 ≤ res0 + 2 → ∃ s, Jigsaw_init res0 bordertype = Ok s) ∧
  (∀ res0 bordertype s,
     Jigsaw_init res0 bordertype = Ok s →
     res s = res0 + 2 ∧
     (∀ p, is_Some (jigsaw s !! p) ↔ in_grid (res s) p) ∧
     (String.eqb bordertype "circ" = false →
        ∀ p d, jigsaw s !! p = Some d →
          (walled d ↔
             p.1 = 0 ∨ p.1 = res s - 1 ∨ p.2 = 0 ∨ p.2 = res s - 1) ∧
          (walled d → d = wall_dot (Dot_init p.1 p.2)) ∧
          (¬ walled d → d = Dot_init p.1 p.2)) ∧
     (bordertype = "circ"%string →
        (∀ p d, jigsaw s !! p = Some d →
           (walled d ↔
              (centre_distance (res s) p.1 p.2 > IZR (res s) / 2 - 11 / 10)%R) ∧
           (walled d → d = wall_dot (Dot_init p.1 p.2)) ∧
           (¬ walled d → d = Dot_init p.1 p.2)) ∧
        (∀ i j d, jigsaw s !! (i, j) = Some d →
           ∃ d', jigsaw s !! (j, res s - 1 - i) = Some d' ∧
                 (walled d ↔ walled d')))).
Proof.
  split.
  { intros res0 bt Hn. destruct (Jigsaw_init_spec res0 bt Hn) as (s & Hs & _). eauto. }
  intros res0 bt s H.
  destruct (Jigsaw_init_cells _ _ _ H) as (Hres & Hdom & Hcells).
  assert (∀ p d, jigsaw s !! p = Some d →
            (walled d ↔ mask_of bt (res s) p) ∧
            (walled d → d = wall_dot (Dot_init p.1 p.2)) ∧
            (¬ walled d → d = Dot_init p.1 p.2)) as Hw.
  { intros p d Hd. destruct (Hcells p d Hd) as [Hyes Hno].
    assert (mask_of bt (res s) p ∨ ¬ mask_of bt (res s) p) as [Hm | Hm].
    { unfold mask_of, on_border. destruct (String.eqb bt "circ").
      - destruct (outside_circle (res s) p.1 p.2); auto.
      - lia. }
    - rewrite (Hyes Hm). split_and!; [|done|intros []; by split].
      split; [done|]. by split.
    - rewrite (Hno Hm). split_and!.
      + split; [by intros [[=] _] | done].
      + by intros [[=] _].
      + done. }
  split_and!; [done | done | |].
  - intros Hbt p d Hd. destruct (Hw p d Hd) as (Hiff & ? & ?).
    split_and!; [|done|done]. unfold mask_of in Hiff. by rewrite Hbt in Hiff.
  - intros ->. split.
    + intros p d Hd. destruct (Hw p d Hd) as (Hiff & ? & ?).
      split_and!; [|done|done]. rewrite Hiff. unfold mask_of. simpl.
      apply outside_circle_real.
    + intros i j d Hd. pose proof Hd as [_ [Hi Hj]]%lookup_cell_Some;
        [|by eapply Jigsaw_init_Inv]. simpl in Hi, Hj.
      assert (in_grid (res s) (j, res s - 1 - i)) as Hrot
        by (split; simpl; lia).
      apply Hdom in Hrot as [d' Hd']. exists d'. split; [done|].
      destruct (Hw _ _ Hd) as (-> & _), (Hw _ _ Hd') as (-> & _).
      unfold mask_of. simpl. by rewrite outside_circle_rot.
Qed.

Lemma demo_circle_init : Jigsaw_init 6 "circ" = Ok demo_circle.
Proof. vm_compute. reflexivity. Qed.

Lemma border_mask_correct_witness :
  (∃ s, Jigsaw_init 3 "rect" = Ok s) ∧
  (∀ p d, jigsaw demo_grid !! p = Some d →
     (walled d ↔
        p.1 = 0 ∨ p.1 = res demo_grid - 1 ∨ p.2 = 0 ∨ p.2 = res demo_grid - 1) ∧
     (walled d → d = wall_dot (Dot_init p.1 p.2)) ∧
     (¬ walled d → d = Dot_init p.1 p.2)) ∧
  (∀ p d, jigsaw demo_circle !! p = Some d →
     (walled d ↔
        (centre_distance (res demo_circle) p.1 p.2
         > IZR (res demo_circle) / 2 - 11 / 10)%R) ∧
     (walled d → d = wall_dot (Dot_init p.1 p.2)) ∧
     (¬ walled d → d = Dot_init p.1 p.2)) ∧
  (∀ i j d, jigsaw demo_circle !! (i, j) = Some d →
     ∃ d', jigsaw demo_circle !! (j, res demo_circle - 1 - i) = Some d' ∧
           (walled d ↔ walled d')).
Proof.
  destruct border_mask_correct as [Hret Hcells].
  destruct (Hcells 3 "rect"%string demo_grid demo_grid_init) as (_ & _ & Hrect & _).
  destruct (Hcells 6 "circ"%string demo_circle demo_circle_init) as (_ & _ & _ & Hcirc).
  split_and!.
  - apply Hret. lia.
  - apply Hrect. reflexivity.
  - apply (proj1 (Hcirc eq_refl)).
  - apply (proj2 (Hcirc eq_refl)).
Defined.

(** ** Counting the empty cells *)







(** ** The draws of [np.random.rand] lie in [0, 1) *)

Lemma rand_range g : Qltb (rand g).1 0 = false ∧ Qltb (rand g).1 1 = true.
Proof.
  unfold rand, draw. cbn [fst source cursor].
  set (a := source g (cursor g)). set (b := source g (N.succ (cursor g))).
  assert (0 ≤ Z.of_N (a mod N.succ b) < Z.pos (N.succ_pos b)) as Hr.
  { assert (Z.pos (N.succ_pos b) = Z.of_N (N.succ b)) as ->
      by (by rewrite <- N.succ_pos_spec).
    assert (a mod N.succ b < N.succ b)%N as Hm by (apply N.mod_lt; lia).
    revert Hm. generalize (a mod N.succ b)%N. lia. }
  unfold Qltb. split.
  - apply negb_false_iff, Qle_bool_iff. unfold Qle. simpl. lia.
  - apply negb_true_iff, not_true_iff_false. rewrite Qle_bool_iff.
    unfold Qle. simpl. lia.
Qed.

(** ** Growth at probability 1 *)






(** ** Growth at probability 0 *)

Lemma same_claims_refl s : same_claims s s.
Proof. by split. Qed.

Lemma same_claims_trans s1 s2 s3 :
  same_claims s1 s2 → same_claims s2 s3 → same_claims s1 s3.
Proof. intros [] []. split; intros; congruence. Qed.

Lemma same_claims_modify d f s :
  (∀ x, empty (f x) = empty x) → (∀ x, color (f x) = color x) →
  (∀ x, bonds (f x) = bonds x) → (∀ x, coords (f x) = coords x) →
  (∀ x, neighbors (f x) = neighbors x) →
  same_claims s (modify d f s).
Proof.
  intros. split; [done|..]; intros p; rewrite cell_modify; by case_decide; subst.
Qed.

Lemma free_list_ext s s' d : same_claims s s' → free_list s' d = free_list s d.
Proof.
  intros [Hres He _ Hb Hc Hn].
  unfold free_list, upper_of, lower_of, scan_free.
  rewrite Hres, Hc, Hn, !Hb. do 5 f_equal.
  apply filter_ext. intros [i n]. simpl. by rewrite He.
Qed.

Lemma filter_nil_iff {A} (P : A → Prop) `{!∀ x, Decision (P x)} (l : list A) :
  filter P l = [] ↔ ∀ x, x ∈ l → ¬ P x.
Proof.
  split.
  - intros Hnil x Hx HP.
    assert (x ∈ filter P l) as Hin by (by apply list_elem_of_filter).
    rewrite Hnil in Hin. by apply elem_of_nil in Hin.
  - intros Hall. destruct (filter P l) as [|y l'] eqn:Hf; [done|].
    assert (y ∈ filter P l) as [HP Hy]%list_elem_of_filter by (rewrite Hf; by left).
    by destruct (Hall y Hy).
Qed.

(** One generation at growth probability 0 claims nothing: it
    deactivates and drops the active cells that have no free neighbour,
    and keeps the others in the active list. *)
Lemma step_zero s g :
  Inv s →
  ∃ s' g', step 0 s g = Ok (s', g') ∧ same_claims s s' ∧
    active_cells s'
      = filter (λ coo, free_list s coo ≠ []) (shuffle (active_cells s) g).1 ∧
    (∀ p, p ∈ active_cells s → free_list s p = [] → active (cell s' p) = false) ∧
    (∀ p, ¬ (p ∈ active_cells s ∧ free_list s p = []) →
          active (cell s' p) = active (cell s p)).
Proof.
  intros HI.
  destruct (step_inv
    (λ pre s1 new,
       same_claims s s1 ∧
       new = filter (λ coo, free_list s coo ≠ []) pre ∧
       (∀ p, p ∈ pre → free_list s p = [] → active (cell s1 p) = false) ∧
       (∀ p, ¬ (p ∈ pre ∧ free_list s p = []) →
             active (cell s1 p) = active (cell s p))) 0 s g HI)
    as (s1 & g' & new & Hrun & HI' & Hext & Hsame & Hnew & Hoff & Hon).
  - intros l. split_and!; [by split | done | by intros p ?%elem_of_nil | done].
  - intros pre coo s1 g1 new1 s2 g2 new2 Hin Hok1 Hext1 Hint1 Hne1
      (Hsame & -> & Hoff & Hon) Hout.
    pose proof (free_list_ext s s1 coo Hsame) as Hfl.
    assert (same_claims s1 (found s1 coo)) as Hsf by (by apply same_claims_modify).
    assert (∀ p, active (cell (found s1 coo) p) = active (cell s1 p)) as Hfa
      by (intros p; by destruct (found_fields s1 coo p) as (_ & _ & _ & ->)).
    inversion Hout as [HF | k g3 r g4 Hc Hr Hlt | k g3 r g4 Hc Hr Hlt]; subst.
    + rewrite Hfl in HF. split_and!.
      * eapply same_claims_trans; [done|].
        eapply same_claims_trans; [done | by apply same_claims_modify].
      * rewrite filter_app, filter_cons, decide_False, filter_nil, app_nil_r; [done|].
        intros Hn. by apply Hn.
      * intros p [Hp | ->%list_elem_of_singleton]%elem_of_app Hnil.
        -- rewrite cell_modify. case_decide; [done|]. rewrite Hfa. by apply Hoff.
        -- by rewrite cell_modify_eq.
      * intros p Hp. rewrite cell_modify. case_decide as Hcp.
        -- subst. destruct Hp. split; [apply elem_of_app; right; by left | done].
        -- rewrite Hfa. apply Hon. intros [? ?]. apply Hp.
           split; [apply elem_of_app; by left | done].
    + destruct (rand_range g3) as [H0 _]. rewrite Hr in H0. simpl in H0. congruence.
    + assert (free_list s coo ≠ []) as Hnn.
      { rewrite <- Hfl. apply choice_of_elem in Hc. intros Hnil.
        rewrite Hnil in Hc. by apply elem_of_nil in Hc. }
      split_and!.
      * by eapply same_claims_trans.
      * by rewrite filter_app, filter_cons, decide_True, filter_nil.
      * intros p [Hp | ->%list_elem_of_singleton]%elem_of_app Hnil; [|done].
        rewrite Hfa. by apply Hoff.
      * intros p Hp. rewrite Hfa. apply Hon. intros [? ?]. apply Hp.
        split; [apply elem_of_app; by left | done].
  - exists (set_active_cells new s1), g'.
    pose proof (shuffle_perm (active_cells s) g) as Hperm.
    split_and!; [done | | done | |].
    + destruct Hsame. by split.
    + intros p Hp. apply Hoff. by rewrite Hperm.
    + intros p Hp. apply Hon. by rewrite Hperm.
Qed.

(** C4, as the code has it.  At growth probability 0 a generation from a
    grid of the simulation claims nothing (no [empty] flag, colour or
    bond changes).  An active cell is deactivated and leaves the active
    list exactly when [find_free] leaves it no free neighbour; every other
    active cell stays in the list.  So the active list is empty after the
    step exactly when no active cell had a free neighbour. *)
Theorem zero_growth s g :
  reachable s →
  (∀ coo, coo ∈ active_cells s →
     find_free coo s = Ok (found s coo) ∧
     free_neighbors (cell (found s coo) coo) = free_list s coo) ∧
  ∃ s' g', step 0 s g = Ok (s', g') ∧
    (∀ p, empty (cell s' p) = empty (cell s p) ∧
          color (cell s' p) = color (cell s p) ∧
          bonds (cell s' p) = bonds (cell s p)) ∧
    active_cells s'
      = filter (λ coo, free_list s coo ≠ []) (shuffle (active_cells s) g).1 ∧
    (∀ p, p ∈ active_cells s → free_list s p = [] →
          active (cell s' p) = false ∧ p ∉ active_cells s') ∧
    (∀ p, p ∈ active_cells s → free_list s p ≠ [] →
          active (cell s' p) = active (cell s p) ∧ p ∈ active_cells s') ∧
    (active_cells s' = [] ↔ ∀ p, p ∈ active_cells s → free_list s p = []).
Proof.
  intros HI%reachable_Inv. split.
  { intros coo [Hint _]%(proj2 HI). split.
    - apply find_free_run; [apply HI | done].
    - apply free_neighbors_found. }
  destruct (step_zero s g HI) as (s' & g' & Hrun & Hsame & Hact & Hoff & Hon).
  pose proof (shuffle_perm (active_cells s) g) as Hperm.
  exists s', g'. split_and!; [done | | done | | |].
  - intros p. destruct Hsame. by split_and!.
  - intros p Hp Hnil. split; [by apply Hoff|].
    rewrite Hact. intros [Hnn _]%list_elem_of_filter. done.
  - intros p Hp Hnn. split; [apply Hon; by intros [_ ?]|].
    rewrite Hact. apply list_elem_of_filter. split; [done | by rewrite Hperm].
  - rewrite Hact, filter_nil_iff. split.
    + intros Hall p Hp. rewrite <- Hperm in Hp.
      destruct (free_list s p) eqn:E; [done|]. destruct (Hall p Hp). by rewrite E.
    + intros Hall p Hp Hnn. rewrite Hperm in Hp. by apply Hnn, Hall.
Qed.

Lemma zero_growth_witness :
  (∀ coo, coo ∈ active_cells demo_seeded.1 →
     find_free coo demo_seeded.1 = Ok (found demo_seeded.1 coo) ∧
     free_neighbors (cell (found demo_seeded.1 coo) coo)
     = free_list demo_seeded.1 coo) ∧
  ∃ s' g', step 0 demo_seeded.1 demo_seeded.2 = Ok (s', g') ∧
    (∀ p, empty (cell s' p) = empty (cell demo_seeded.1 p) ∧
          color (cell s' p) = color (cell demo_seeded.1 p) ∧
          bonds (cell s' p) = bonds (cell demo_seeded.1 p)) ∧
    active_cells s'
      = filter (λ coo, free_list demo_seeded.1 coo ≠ [])
          (shuffle (active_cells demo_seeded.1) demo_seeded.2).1 ∧
    (∀ p, p ∈ active_cells demo_seeded.1 → free_list demo_seeded.1 p = [] →
          active (cell s' p) = false ∧ p ∉ active_cells s') ∧
    (∀ p, p ∈ active_cells demo_seeded.1 → free_list demo_seeded.1 p ≠ [] →
          active (cell s' p) = active (cell demo_seeded.1 p) ∧
          p ∈ active_cells s') ∧
    (active_cells s' = [] ↔
       ∀ p, p ∈ active_cells demo_seeded.1 → free_list demo_seeded.1 p = []).
Proof.
  exact (zero_growth demo_seeded.1 demo_seeded.2 demo_seeded_reachable).
Defined.

(** C4, as stated, fails on the run: after a generation at growth
    probability 0 from the seeded grid, the seed (1, 3), which has free
    neighbours, is still in the active list and still active. *)
Lemma zero_growth_counterexample :
  reachable demo_seeded.1 ∧
  step 0 demo_seeded.1 demo_seeded.2 = Ok demo_stalled ∧
  active_cells demo_seeded.1 = [(1, 3)] ∧
  active_cells demo_stalled.1 = [(1, 3)] ∧
  active (cell demo_stalled.1 (1, 3)) = true ∧
  ¬ (∀ s g s' g', reachable s → step 0 s g = Ok (s', g') →
       active_cells s' = []).
Proof.
  assert (step 0 demo_seeded.1 demo_seeded.2 = Ok demo_stalled) as Hrun
    by (vm_compute; reflexivity).
  split_and!; [apply demo_seeded_reachable | done | | | |].
  - vm_compute. reflexivity.
  - vm_compute. reflexivity.
  - vm_compute. reflexivity.
  - intros H.
    specialize (H demo_seeded.1 demo_seeded.2 demo_stalled.1 demo_stalled.2
                  demo_seeded_reachable).
    rewrite Hrun in H. specialize (H (f_equal Ok (surjective_pairing _))).
    vm_compute in H. discriminate.
Qed.

(** ** The seeder's tests, in real numbers *)

Lemma sqrt_lt_spec v t : sqrt_lt v t = true ↔ (0 < t ∧ v < t * t)%Q.
Proof.
  unfold sqrt_lt. rewrite andb_true_iff, !negb_true_iff.
  rewrite <- !not_true_iff_false, !Qle_bool_iff. split; intros [? ?]; split; lra.
Qed.

Lemma sqrt_lt_real_iff (v t : R) :
  (0 <= v → sqrt v < t ↔ 0 < t ∧ v < t * t)%R.
Proof.
  Local Open Scope R_scope.
  intros Hv. pose proof (sqrt_pos v) as Hs. split.
  - intros Hlt. split; [lra|]. rewrite <- (sqrt_sqrt v Hv) at 1.
    apply Rmult_le_0_lt_compat; lra.
  - intros [Ht Hlt]. apply Rnot_le_lt. intros Hle.
    assert (t * t <= sqrt v * sqrt v) by (apply Rmult_le_compat; lra).
    rewrite sqrt_sqrt in H by done. lra.
  Local Close Scope R_scope.
Qed.

Lemma Q2R_inject_Z z : Q2R (inject_Z z) = IZR z.
Proof. unfold Q2R, inject_Z. simpl. lra. Qed.

Lemma sq_dist_nonneg p q : 0 ≤ sq_dist p q.
Proof. unfold sq_dist. nia. Qed.

(** [sqrt_lt] is the comparison [sqrt v < t] of real numbers. *)
Lemma sqrt_lt_real z t :
  0 ≤ z → sqrt_lt (inject_Z z) t = true ↔ (sqrt (IZR z) < Q2R t)%R.
Proof.
  intros Hz. rewrite sqrt_lt_spec, sqrt_lt_real_iff by (by apply IZR_le).
  split; intros [H1 H2]; split.
  - apply Qlt_Rlt in H1. by rewrite RMicromega.Q2R_0 in H1.
  - apply Qlt_Rlt in H2. by rewrite Q2R_mult, Q2R_inject_Z in H2.
  - apply Rlt_Qlt. by rewrite RMicromega.Q2R_0.
  - apply Rlt_Qlt. by rewrite Q2R_mult, Q2R_inject_Z.
Qed.

Lemma too_close_spec index min_dist s :
  too_close index min_dist s = true ↔
  ∃ p, p ∈ active_cells s ∧ (sqrt (IZR (sq_dist index p)) < Q2R min_dist)%R.
Proof.
  unfold too_close. rewrite existsb_exists. split.
  - intros (p & Hp%list_elem_of_In & Hlt). exists p. split; [done|].
    by apply sqrt_lt_real; [apply sq_dist_nonneg|].
  - intros (p & Hp & Hlt). exists p. split; [by apply list_elem_of_In|].
    by apply sqrt_lt_real; [apply sq_dist_nonneg|].
Qed.

Lemma acceptable_spec min_dist s p :
  acceptable min_dist s p = true ↔
  empty (cell s p) = true ∧ active (cell s p) = true ∧
  ∀ q, q ∈ active_cells s → (Q2R min_dist <= sqrt (IZR (sq_dist p q)))%R.
Proof.
  unfold acceptable. rewrite andb_true_iff, negb_true_iff, unclaimed_true.
  rewrite <- not_true_iff_false, too_close_spec. split.
  - intros [Hno [He Ha]]. split_and!; [done | done |].
    intros q Hq. apply Rnot_lt_le. intros Hlt. apply Hno. by exists q.
  - intros (He & Ha & Hall). split; [|done].
    intros (q & Hq & Hlt). specialize (Hall q Hq). lra.
Qed.

Lemma place_spec c k s :
  res (place c k s) = res s ∧
  color (cell (place c k s) k) = Some c ∧
  empty (cell (place c k s) k) = false ∧
  active (cell (place c k s) k) = active (cell s k) ∧
  bonds (cell (place c k s) k) = bonds (cell s k) ∧
  active_cells (place c k s) = active_cells s ++ [coords (cell s k)] ∧
  ∀ q, q ≠ k → cell (place c k s) q = cell s q.
Proof.
  unfold place. rewrite modify_modify.
  change (cell (set_active_cells ?l ?s0) ?p) with (cell s0 p).
  rewrite cell_modify_eq. split_and!; try done.
  intros q Hq. by rewrite cell_modify_ne.
Qed.

Lemma for_each_prefix_Ok {A S} (P : list A → S → Prop) (l : list A)
    (body : A → S → result S) (s s' : S) :
  P [] s →
  (∀ pre x s s', P pre s → x ∈ l → body x s = Ok s' → P (pre ++ [x]) s') →
  for_each l body s = Ok s' → P l s'.
Proof.
  intros H0 Hstep.
  assert (∀ todo pre s1, pre ++ todo = l → P pre s1 →
            for_each todo body s1 = Ok s' → P l s') as Hgen.
  { induction todo as [|x todo IH]; intros pre s1 Hl HP; simpl.
    - rewrite app_nil_r in Hl. subst. by intros [= <-].
    - rewrite bind_Ok. intros (s2 & Hb & Hrest).
      apply (IH (pre ++ [x]) s2); [by rewrite <- app_assoc | | done].
      eapply Hstep; [done | | done]. rewrite <- Hl. set_solver. }
  by apply (Hgen l []).
Qed.

(** Seeding a freshly constructed grid: the active list is the list of
    the seeds placed so far, and the colours are the indices of the
    pieces already handled. *)
Lemma seeding_from_fresh res0 bordertype s0 n min_dist cs g s g' :
  Jigsaw_init res0 bordertype = Ok s0 →
  (∀ c, c ∈ cs → 1 ≤ c) →
  for_each cs (seed_piece min_dist) (set_num_pieces n s0, g) = Ok (s, g') →
  Inv s ∧
  (∀ p, p ∈ active_cells s ↔ ∃ d c, jigsaw s !! p = Some d ∧ color d = Some c) ∧
  (∀ p d c, jigsaw s !! p = Some d → color d = Some c → c ∈ cs).
Proof.
  intros Hinit Hcs Hrun.
  pose proof (Jigsaw_init_Inv _ _ _ Hinit) as HI0.
  destruct (Jigsaw_init_Ok _ _ _ Hinit) as [_ Hm].
  assert (active_cells s0 = []) as Hact0 by (by destruct Hm as (_ & _ & ? & _)).
  assert (∀ p, color (cell s0 p) = None) as Hcol0.
  { intros p. destruct (cell_fresh_grid_any (res0 + 2) p) as (i & j & Hij).
    destruct (masked_cases _ _ _ p Hm) as [-> | ->]; by rewrite Hij. }
  apply (for_each_prefix_Ok
    (λ pre (st : Jigsaw * Rng),
       Inv st.1 ∧
       (∀ p, p ∈ active_cells st.1 ↔
             in_grid (res st.1) p ∧ ∃ c, color (cell st.1 p) = Some c) ∧
       (∀ p c, color (cell st.1 p) = Some c → c ∈ pre))) in Hrun.
  - cbn [fst] in Hrun. destruct Hrun as (HI & Hact & Hcol). split_and!; [done | |].
    + intros p. rewrite Hact. split.
      * intros [Hin [c Hc]]. exists (cell s p), c. split; [|done].
        by apply lookup_in_grid; [apply HI|].
      * intros (d & c & [<- Hin]%lookup_cell_Some & Hc); [|apply HI]. eauto.
    + intros p d c [<- _]%lookup_cell_Some; [|apply HI]. apply Hcol.
  - cbn [fst]. split_and!.
    + destruct HI0 as [[] ?]. by split.
    + intros p. change (active_cells (set_num_pieces n s0)) with (active_cells s0).
      change (cell (set_num_pieces n s0) p) with (cell s0 p).
      rewrite Hact0, Hcol0. split; [by intros ?%elem_of_nil | by intros [_ [? [=]]]].
    + intros p c. change (cell (set_num_pieces n s0) p) with (cell s0 p).
      by rewrite Hcol0.
  - intros pre c [s1 g1] [s2 g2] (HI1 & Hact1 & Hcol1) Hc Hb. cbn [fst] in *.
    destruct (seed_piece_Inv _ _ _ _ _ _ Hb HI1 (Hcs c Hc)) as [HI2 Hext].
    split; [done|].
    apply seed_piece_Ok in Hb as [Hpos [(k & _ & Ha & _ & -> & _) | (_ & -> & _)]];
      [| |apply HI1].
    + set (p0 := sample (res s1) g1 k) in *.
      assert (in_grid (res s1) p0) as Hp0 by (by apply sample_in_grid).
      destruct (place_spec c p0 s1) as (Hres & Hc0 & _ & _ & _ & Hl & Hother).
      rewrite (ok_coords s1 (proj1 HI1) p0 Hp0) in Hl.
      split.
      * intros p. rewrite Hl, elem_of_app, list_elem_of_singleton, Hact1, Hres.
        destruct (decide (p = p0)) as [-> | Hne].
        -- split; [intros _; split; [done | by exists c] | by right].
        -- rewrite (Hother p Hne). split; [intros [? | ?]; done | by left].
      * intros p c'. destruct (decide (p = p0)) as [-> | Hne].
        -- rewrite Hc0. intros [= <-]. apply elem_of_app. right. by left.
        -- rewrite (Hother p Hne). intros ?%Hcol1. apply elem_of_app. by left.
    + split; [done|]. intros p c' ?%Hcol1. apply elem_of_app. by left.
Qed.



(** On the 5 x 5 grid the third sample of the run's random source is
    accepted; with a source that only ever yields the walled corner
    (0, 0), the 1000 attempts are used up and the grid is returned
    unchanged. *)
Example seed_placed_example :
  seed_piece 1 1 (demo_grid, demo_rng)
  = Ok (place 1 (1, 3) demo_grid, skip 6 demo_rng).
Proof. vm_compute. reflexivity. Qed.

Example seed_exhausted_example :
  seed_piece 1 1 (demo_grid, mkRng (λ _, 0%N) 0)
  = Ok (demo_grid, skip 2000 (mkRng (λ _, 0%N) 0)).
Proof. vm_compute. reflexivity. Qed.

(** ** The filler colour *)

(** C9, as the code has it.  The filler colour is the constant 1000.
    After seeding [num_pieces] pieces on a freshly constructed grid every
    colour of the grid is a piece index between 1 and [num_pieces], so
    the filler colour is distinct from all of them when
    [num_pieces < 1000]; from [num_pieces = 1000] on, 1000 is itself a
    piece index.  [complete] gives the filler colour to the unclaimed
    cell it visits. *)
Theorem filler_distinct :
  (∀ n c, n < filler_color → c ∈ range2 1 (n + 1) → c ≠ filler_color) ∧
  (∀ n, filler_color ≤ n → filler_color ∈ range2 1 (n + 1)) ∧
  (∀ res0 bordertype s0 n min_dist g s g',
     Jigsaw_init res0 bordertype = Ok s0 →
     initiate_pieces n min_dist s0 g = Ok (s, g') →
     ∀ p d c, jigsaw s !! p = Some d → color d = Some c →
       1 ≤ c ≤ n ∧ (n < filler_color → c ≠ filler_color)) ∧
  (∀ s g ij, reachable s → in_grid (res s) ij →
     unclaimed (cell s ij) = true →
     ∃ s' g', complete_cell ij (s, g) = Ok (s', g') ∧
              color (cell s' ij) = Some filler_color).
Proof.
  split_and!.
  - intros n c Hn Hc%elem_of_seqZ. unfold filler_color in *. lia.
  - intros n Hn. apply elem_of_seqZ. unfold filler_color in *. lia.
  - intros res0 bt s0 n md g s g' Hinit Hrun p d c Hd Hc.
    unfold initiate_pieces in Hrun.
    change (num_pieces (set_num_pieces n s0)) with n in Hrun.
    apply (seeding_from_fresh _ _ _ _ _ _ _ _ _ Hinit) in Hrun
      as (_ & _ & Hcol).
    + apply (Hcol p d c Hd), elem_of_seqZ in Hc. unfold filler_color. lia.
    + intros c' Hc'%elem_of_seqZ. lia.
  - intros s g ij HI%reachable_Inv Hin Hu.
    destruct (complete_cell_spec ij s g HI Hin) as (s' & g' & Hrun & _).
    exists s', g'. split; [done|].
    unfold complete_cell in Hrun. rewrite getitem_id, ret_bind, Hu in Hrun by done.
    rewrite modify_modify, active_cells_modify in Hrun.
    apply unclaimed_true in Hu as [He _].
    destruct (claim_cell_Inv s ij (set_color (Some filler_color) ∘ set_empty false)
                (active_cells s ++ [ij])) as [HI1 _]; try done.
    { simpl. by intros x [= <-]. }
    set (s1 := set_active_cells _ _) in *.
    destruct (steps_Inv 1000 1 s1 g HI1) as (s2 & g2 & r & Hsteps & _ & Hext).
    rewrite Hsteps, ret_bind in Hrun. apply Ok_inj in Hrun.
    assert (s' = s2) as -> by congruence.
    apply (ext_color _ _ Hext). unfold s1.
    change (cell (set_active_cells ?l ?s0) ?p) with (cell s0 p).
    by rewrite cell_modify_eq.
Qed.

Lemma filler_distinct_witness :
  (∀ c, c ∈ range2 1 (1 + 1) → c ≠ filler_color) ∧
  (∀ p d c, jigsaw demo_seeded.1 !! p = Some d → color d = Some c →
     1 ≤ c ≤ 1 ∧ (1 < filler_color → c ≠ filler_color)) ∧
  (∃ s' g', complete_cell (1, 1) demo_grown = Ok (s', g') ∧
            color (cell s' (1, 1)) = Some filler_color).
Proof.
  destruct filler_distinct as (H1 & _ & H3 & H4). split_and!.
  - intros c. apply H1. reflexivity.
  - apply (H3 3 "rect"%string demo_grid 1 1%Q demo_rng demo_seeded.1
             demo_seeded.2 demo_grid_init).
    rewrite demo_seeded_run. by destruct demo_seeded.
  - destruct (H4 demo_grown.1 demo_grown.2 (1, 1) demo_grown_reachable)
      as (s' & g' & Hrun & Hc).
    + vm_compute. split; split; discriminate || reflexivity.
    + vm_compute. reflexivity.
    + exists s', g'. split; [|done]. rewrite <- Hrun. by destruct demo_grown.
Defined.

(** C9, as stated, fails at [num_pieces = 1000]: the loop of
    [initiate_pieces] then reaches [c = 1000], and its body for that
    piece places a seed whose colour is the filler colour. *)
Lemma filler_distinct_counterexample :
  filler_color ∈ range2 1 (1000 + 1) ∧
  seed_piece 1 1000 (demo_grid, demo_rng)
    = Ok (place 1000 (1, 3) demo_grid, skip 6 demo_rng) ∧
  color (cell (place 1000 (1, 3) demo_grid) (1, 3)) = Some filler_color ∧
  ¬ (∀ n c, c ∈ range2 1 (n + 1) → c ≠ filler_color).
Proof.
  assert (filler_color ∈ range2 1 (1000 + 1)) as Hin
    by (apply elem_of_seqZ; unfold filler_color; lia).
  split_and!; [done | | |].
  - vm_compute. reflexivity.
  - vm_compute. reflexivity.
  - intros H. by apply (H 1000 filler_color Hin).
Qed.

(** * Further properties of the code *)

(** ** Induction over the operations *)

Lemma step_Inv_Ok grow_prop s g s' g' :
  Inv s → step grow_prop s g = Ok (s', g') → Inv s' ∧ extends s s'.
Proof.
  intros HI H. destruct (step_Inv grow_prop s g HI) as (s1 & g1 & H1 & ? & ?).
  rewrite H in H1. apply Ok_inj in H1. by injection H1 as <- <-.
Qed.

(** A property that every step preserves is preserved by [steps]. *)
Lemma steps_loop_preserves (P : Jigsaw → Prop) grow_prop budget l :
  (∀ s g s' g', Inv s → P s → step grow_prop s g = Ok (s', g') → P s') →
  ∀ s g s' g' r, Inv s → P s →
    steps_loop grow_prop budget l s g = Ok (s', g', r) → P s'.
Proof.
  intros Hstep. induction l as [|i l IH]; intros s g s' g' r HI HP; cbn [steps_loop].
  - intros H%Ok_inj. by injection H as <- _ _.
  - rewrite bind_Ok. intros ([s1 g1] & H1 & H).
    pose proof (Hstep _ _ _ _ HI HP H1) as HP1.
    destruct (step_Inv_Ok _ _ _ _ _ HI H1) as [HI1 _].
    destruct (active_cells s1).
    + apply Ok_inj in H. by injection H as <- _ _.
    + by eapply IH.
Qed.

(** The claim that [complete] makes of an unclaimed cell. *)
Lemma fill_Inv s p :
  Inv s → in_grid (res s) p → unclaimed (cell s p) = true →
  Inv (set_active_cells (active_cells s ++ [p])
         (modify p (set_color (Some filler_color) ∘ set_empty false) s)).
Proof.
  intros HI Hin [He _]%unclaimed_true.
  apply (claim_cell_Inv s p _ (active_cells s ++ [p])); try done.
  simpl. by intros x [= <-].
Qed.

(** A property kept by the completer's claim and by every step is kept
    by [complete]. *)
Lemma complete_preserves (P : Jigsaw → Prop) :
  (∀ s p, Inv s → P s → in_grid (res s) p → unclaimed (cell s p) = true →
     P (set_active_cells (active_cells s ++ [p])
          (modify p (set_color (Some filler_color) ∘ set_empty false) s))) →
  (∀ s g s' g', Inv s → P s → step 1 s g = Ok (s', g') → P s') →
  ∀ s g s' g', Inv s → P s → complete s g = Ok (s', g') → P s'.
Proof.
  intros Hfill Hstep s g s' g' HI HP Hrun.
  assert (∀ ij s1 g1 s2 g2, Inv s1 → P s1 → in_grid (res s1) ij →
            complete_cell ij (s1, g1) = Ok (s2, g2) →
            Inv s2 ∧ P s2 ∧ res s2 = res s1) as Hcell.
  { intros ij s1 g1 s2 g2 HI1 HP1 Hin H. unfold complete_cell in H.
    rewrite getitem_id, ret_bind in H by done.
    destruct (unclaimed (cell s1 ij)) eqn:Hu.
    - rewrite modify_modify, active_cells_modify in H.
      pose proof (fill_Inv s1 ij HI1 Hin Hu) as HIf.
      pose proof (Hfill s1 ij HI1 HP1 Hin Hu) as HPf.
      set (sf := set_active_cells _ _) in *.
      apply bind_Ok in H as ([[s3 g3] r] & Hsteps & H).
      apply Ok_inj in H. injection H as <- <-.
      destruct (steps_Inv 1000 1 sf g1 HIf) as (s4 & g4 & r4 & H4 & HI4 & Hext4).
      rewrite Hsteps in H4. apply Ok_inj in H4. injection H4 as <- <- <-.
      split_and!; [done | | by rewrite (ext_res _ _ Hext4)].
      by apply (steps_loop_preserves P 1 1000 (range 1000) Hstep sf g1 s3 g3 r).
    - apply Ok_inj in H. by injection H as <- <-. }
  unfold complete in Hrun.
  apply (for_each_inv_Ok
    (λ st : Jigsaw * Rng, Inv st.1 ∧ P st.1 ∧ res st.1 = res s)) in Hrun;
    [by destruct Hrun as (_ & ? & _) | done |].
  intros i [s1 g1] [s2 g2] (HI1 & HP1 & Hres1) Hi%elem_of_seqZ Hrow.
  cbn [fst] in *.
  apply (for_each_inv_Ok
    (λ st : Jigsaw * Rng, Inv st.1 ∧ P st.1 ∧ res st.1 = res s)) in Hrow;
    [done | done |].
  intros j [s3 g3] [s4 g4] (HI3 & HP3 & Hres3) Hj%elem_of_seqZ Hc.
  cbn [fst] in *.
  destruct (Hcell (i, j) s3 g3 s4 g4 HI3 HP3) as (? & ? & Hres4); [|done|].
  - rewrite Hres3. split; simpl; lia.
  - split_and!; [done | done | congruence].
Qed.

(** A property kept by the elementary claims of the seeder and of the
    completer, by [step], and by the update of [num_pieces], is kept by
    every operation. *)
Lemma operation_preserves (P : Jigsaw → Prop) :
  (∀ s n, Inv s → P s → P (set_num_pieces n s)) →
  (∀ s c p, Inv s → P s → in_grid (res s) p → unclaimed (cell s p) = true →
     1 ≤ c → P (place c p s)) →
  (∀ s p, Inv s → P s → in_grid (res s) p → unclaimed (cell s p) = true →
     P (set_active_cells (active_cells s ++ [p])
          (modify p (set_color (Some filler_color) ∘ set_empty false) s))) →
  (∀ grow_prop s g s' g',
     Inv s → P s → step grow_prop s g = Ok (s', g') → P s') →
  ∀ s s', Inv s → P s → operation s s' → P s'.
Proof.
  intros Hnum Hplace Hfill Hstep s s' HI HP
    [n md g g' H | gp g g' H | b gp g g' r H | g g' H].
  - unfold initiate_pieces in H.
    apply (for_each_inv_Ok (λ st : Jigsaw * Rng, Inv st.1 ∧ P st.1)) in H;
      [by destruct H | |].
    + split; [|by apply Hnum]. destruct HI as [[] ?]. by split.
    + intros c [s1 g1] [s2 g2] [HI1 HP1] Hc%elem_of_seqZ Hb. cbn [fst] in *.
      destruct (seed_piece_Inv _ _ _ _ _ _ Hb HI1) as [HI2 _]; [lia|].
      split; [done|].
      apply seed_piece_Ok in Hb as [Hpos [(k & _ & Ha & _ & -> & _) | (_ & -> & _)]];
        [| done | apply HI1].
      apply andb_true_iff in Ha as [_ Hu].
      apply Hplace; [done | done | by apply sample_in_grid | done | lia].
  - by eapply Hstep.
  - eapply (steps_loop_preserves P); [apply Hstep | done | done | exact H].
  - eapply (complete_preserves P); [done | apply Hstep | done | done | exact H].
Qed.

Lemma reachable_preserves (P : Jigsaw → Prop) :
  (∀ res0 bordertype s, Jigsaw_init res0 bordertype = Ok s → P s) →
  (∀ s s', Inv s → P s → operation s s' → P s') →
  ∀ s, reachable s → P s.
Proof.
  intros Hinit Hop s Hr. induction Hr as [res0 bt s H | s s' Hr IH Hop'].
  - by eapply Hinit.
  - eapply Hop; [by apply reachable_Inv | done | done].
Qed.

(** ** What one iteration of the loop of [step] does to the cells *)

Lemma for_each_inv_split {A S} (P : list A → S → Prop) (l : list A)
    (body : A → S → result S) (s : S) :
  P [] s →
  (∀ pre x rest s, l = pre ++ x :: rest → P pre s →
     ∃ s', body x s = Ok s' ∧ P (pre ++ [x]) s') →
  ∃ s', for_each l body s = Ok s' ∧ P l s'.
Proof.
  intros H0 Hstep.
  assert (∀ rest pre s1, l = pre ++ rest → P pre s1 →
            ∃ s', for_each rest body s1 = Ok s' ∧ P l s') as H.
  { induction rest as [|x rest IH]; intros pre s1 Hl HP.
    - exists s1. rewrite app_nil_r in Hl. by subst.
    - destruct (Hstep pre x rest s1 Hl HP) as (s2 & Hb & HP2).
      cbn [for_each]. rewrite Hb, ret_bind.
      apply (IH (pre ++ [x])); [by rewrite <- app_assoc | done]. }
  by apply (H l []).
Qed.

(** The fields of every cell after one iteration of the loop of [step]
    on the cell [coo]. *)
Lemma outcome_fields grow_prop coo s g new s' g' new' :
  grid_ok s → interior (res s) coo → empty (cell s coo) = false →
  cell_outcome grow_prop coo s g new (s', g', new') →
  (free_list s coo = [] ∧ new' = new ∧
   ∀ p, empty (cell s' p) = empty (cell s p) ∧
        color (cell s' p) = color (cell s p) ∧
        bonds (cell s' p) = bonds (cell s p) ∧
        active (cell s' p)
        = if decide (p = coo) then false else active (cell s p)) ∨
  (free_list s coo ≠ [] ∧ new' = new ++ [coo] ∧
   ∀ p, empty (cell s' p) = empty (cell s p) ∧
        color (cell s' p) = color (cell s p) ∧
        bonds (cell s' p) = bonds (cell s p) ∧
        active (cell s' p) = active (cell s p)) ∨
  (∃ k, k ∈ free_list s coo ∧ 0 ≤ k < 4 ∧
     let q := add_coord coo (shift_of k) in
     empty (cell s q) = true ∧ interior (res s) q ∧ q ≠ coo ∧
     new' = new ++ [q; coo] ∧
     ∀ p, empty (cell s' p) = (if decide (p = q) then false else empty (cell s p)) ∧
          color (cell s' p)
          = (if decide (p = q) then color (cell s coo) else color (cell s p)) ∧
          active (cell s' p) = (if decide (p = q) then true else active (cell s p)) ∧
          bonds (cell s' p)
          = bonds (cell s p)
            ++ (if decide (p = q) then [(k + 2) mod 4] else [])
            ++ (if decide (p = coo) then [k] else [])).
Proof.
  intros Hok Hcoo Hne Hout. pose proof (interior_in_grid _ _ Hcoo) as Hin.
  pose proof (found_grid_ok s coo Hok Hin) as Hfok.
  inversion Hout as [HF | k g1 r g2 Hc Hr Hlt | k g1 r g2 Hc Hr Hlt]; subst.
  - left. split_and!; [done | done |]. intros p.
    destruct (found_fields s coo p) as (He & Hb & Hc & Ha).
    rewrite cell_modify. case_decide as Hp; [subst p|]; simpl.
    + by rewrite decide_True by done.
    + by rewrite decide_False by done.
  - right; right. exists k.
    pose proof (choice_of_elem _ _ _ _ Hc) as Hk'.
    apply choice_of_elem, elem_of_free_list_ok in Hc as (Hk & He & _); [|done..].
    assert (empty (cell (found s coo) (add_coord coo (shift_of k))) = true) as He'
      by (by destruct (found_fields s coo (add_coord coo (shift_of k))) as (-> & _)).
    split; [done|]. split; [done|]. cbv zeta.
    split; [done|]. split; [by apply claim_target_interior|].
    split; [by apply claim_target_ne|]. split; [done|].
    intros p. rewrite (cell_claim_state (found s coo) coo k Hk p).
    pose proof (claim_target_ne coo k Hk) as Hqd.
    destruct (found_fields s coo p) as (Hpe & Hpb & Hpc & Hpa).
    destruct (found_fields s coo coo) as (Hce & Hcb & Hcc & Hca).
    destruct (found_fields s coo (add_coord coo (shift_of k))) as (Hqe & Hqb & Hqc & Hqa).
    destruct (decide (p = coo)) as [->|Hpd];
      destruct (decide (_ = add_coord coo (shift_of k))) as [E|Hpq];
      try (by symmetry in E); simpl.
    + by rewrite Hce, Hcb, Hcc, Hca.
    + subst p. by rewrite Hqb, Hcc, ?app_nil_r.
    + by rewrite Hpe, Hpb, Hpc, Hpa, ?app_nil_r.
  - right; left. split_and!; [|done|intros p; by destruct (found_fields s coo p) as (? & ? & ? & ?)].
    apply choice_of_elem in Hc. intros HF. rewrite HF in Hc. by apply elem_of_nil in Hc.
Qed.

(** The loop of [step], with the position of the processed cell in the
    shuffled list. *)
Lemma step_split (Q : list (Z * Z) → Jigsaw → list (Z * Z) → Prop)
    grow_prop s g :
  Inv s →
  Q [] (set_active_cells (shuffle (active_cells s) g).1 s) [] →
  (∀ pre coo rest s1 g1 new1 s2 g2 new2,
     (shuffle (active_cells s) g).1 = pre ++ coo :: rest →
     grid_ok s1 → extends s s1 →
     interior (res s1) coo → empty (cell s1 coo) = false → Q pre s1 new1 →
     cell_outcome grow_prop coo s1 g1 new1 (s2, g2, new2) →
     Q (pre ++ [coo]) s2 new2) →
  ∃ s1 g' new,
    step grow_prop s g = Ok (set_active_cells new s1, g') ∧
    Inv (set_active_cells new s1) ∧ extends s (set_active_cells new s1) ∧
    Q (shuffle (active_cells s) g).1 s1 new.
Proof.
  intros [Hok Hact] HQ0 Hstep. unfold step.
  pose proof (shuffle_perm (active_cells s) g) as Hperm.
  destruct (shuffle (active_cells s) g) as [l g1]. cbn [fst] in *.
  change (active_cells (set_active_cells l s)) with l.
  assert (cells_ok s l) as Hl by (intros p Hp; apply Hact; by rewrite <- Hperm).
  destruct (for_each_inv_split
    (λ pre (st : loop_state),
       grid_ok st.1.1 ∧ extends s st.1.1 ∧ cells_ok st.1.1 st.2 ∧
       Q pre st.1.1 st.2)
    l (step_cell grow_prop) (set_active_cells l s, g1, []))
    as ([[s' g'] new'] & Hrun & Hok' & Hext' & Hnew' & HQ').
  - cbn [fst snd]. split_and!;
      [by apply grid_ok_set_active_cells | apply extends_set_active_cells
      | by intros p ?%elem_of_nil | done].
  - intros pre coo rest [[s1 g2] new1] Hsplit (Hok1 & Hext1 & Hnew1 & HQ1).
    cbn [fst snd] in *.
    assert (coo ∈ l) as Hin.
    { rewrite Hsplit. apply elem_of_app. right. apply elem_of_cons. by left. }
    destruct (Hl coo Hin) as [Hint Hne].
    assert (interior (res s1) coo) as Hint1 by (by rewrite (ext_res _ _ Hext1)).
    assert (empty (cell s1 coo) = false) as Hne1 by (by apply (ext_empty _ _ Hext1)).
    destruct (step_cell_outcome grow_prop coo s1 g2 new1 Hok1 Hint1)
      as ([[s2 g3] new2] & Hrun & Hout).
    exists (s2, g3, new2). split; [done|]. cbn [fst snd].
    destruct (outcome_ok _ _ _ _ _ _ _ _ Hok1 Hint1 Hne1 Hout) as (Hok2 & Hext2 & Hnew2).
    split_and!; [done | by eapply extends_trans | by apply Hnew2 |].
    by apply (Hstep pre coo rest s1 g2 new1 s2 g3 new2).
  - cbn [fst snd] in *. exists s', g', new'. rewrite Hrun, ret_bind.
    split_and!; [done | | | done].
    + split; [by apply grid_ok_set_active_cells | done].
    + eapply extends_trans; [done | apply extends_set_active_cells].
Qed.

(** ** The finer invariant *)

Lemma listed_perm s l l' : l ≡ₚ l' → listed s l → listed s l'.
Proof.
  intros Hp [Hnd Hiff]. split; [by rewrite <- Hp|].
  intros p. by rewrite <- Hp.
Qed.

Lemma listed_colored s l p :
  tidy s → listed s l → p ∈ l → ∃ c, color (cell s p) = Some c.
Proof.
  intros Ht [_ Hiff] [He Ha]%Hiff.
  destruct (color (cell s p)) as [c|] eqn:Hc; [by exists c|].
  destruct (td_wall s Ht p He Hc) as [Ha' _]. congruence.
Qed.

Lemma bond_target_claimed s p k :
  grid_ok s → k ∈ bonds (cell s p) →
  empty (cell s (add_coord p (shift_of k))) = false.
Proof.
  intros Hok Hk. destruct (ok_bonds s Hok p k Hk) as [_ Hr].
  destruct (empty (cell s (add_coord p (shift_of k)))) eqn:He; [|done].
  destruct (ok_empty s Hok _ He) as (_ & _ & Hb). rewrite Hb in Hr.
  by apply elem_of_nil in Hr.
Qed.

Lemma bonded_claimed s p k :
  grid_ok s → k ∈ bonds (cell s p) → empty (cell s p) = false.
Proof.
  intros Hok Hk. destruct (empty (cell s p)) eqn:He; [|done].
  destruct (ok_empty s Hok _ He) as (_ & _ & Hb). rewrite Hb in Hk.
  by apply elem_of_nil in Hk.
Qed.

Lemma tidy_weaken s s' :
  res s' = res s →
  (∀ p, empty (cell s' p) = empty (cell s p) ∧
        color (cell s' p) = color (cell s p) ∧
        bonds (cell s' p) = bonds (cell s p) ∧
        (active (cell s' p) = active (cell s p) ∨ active (cell s' p) = false)) →
  tidy s → tidy s'.
Proof.
  intros Hres Hf [Hb Hw Hc Hn]. split.
  - intros p Hp. destruct (Hf p) as (_ & -> & _). apply Hb. by rewrite <- Hres.
  - intros p. destruct (Hf p) as (-> & -> & -> & Ha). intros He Hcol.
    destruct (Hw p He Hcol) as [Ha' ?]. split; [|done].
    destruct Ha as [-> | ->]; done.
  - intros p k. destruct (Hf p) as (_ & -> & -> & _).
    destruct (Hf (add_coord p (shift_of k))) as (_ & -> & _). apply Hc.
  - intros p. destruct (Hf p) as (_ & _ & -> & _). apply Hn.
Qed.

(** One iteration of the loop of [step] keeps the finer invariant, for
    the cells still to be processed together with [new_active_cells]. *)
Lemma outcome_Inv2 grow_prop coo rest s g new s' g' new' :
  grid_ok s → interior (res s) coo → empty (cell s coo) = false →
  tidy s → listed s (new ++ coo :: rest) →
  cell_outcome grow_prop coo s g new (s', g', new') →
  tidy s' ∧ listed s' (new' ++ rest).
Proof.
  intros Hok Hcoo Hne Ht Hl Hout.
  destruct (outcome_ok _ _ _ _ _ _ _ _ Hok Hcoo Hne Hout) as (Hok' & Hext & _).
  pose proof (ext_res _ _ Hext) as Hres.
  assert (coo ∈ new ++ coo :: rest) as Hcin.
  { apply elem_of_app. right. apply elem_of_cons. by left. }
  destruct (listed_colored s _ coo Ht Hl Hcin) as [c Hc].
  destruct Hl as [Hnd Hiff].
  assert (NoDup (new ++ rest) ∧ coo ∉ new ++ rest) as [Hnd' Hcnot].
  { rewrite <- Permutation_middle in Hnd. by apply NoDup_cons in Hnd as [? ?]. }
  assert (∀ p, p ∈ new ++ coo :: rest ↔ p = coo ∨ p ∈ new ++ rest) as Hmem.
  { intros p. rewrite !elem_of_app, elem_of_cons. tauto. }
  destruct (outcome_fields _ _ _ _ _ _ _ _ Hok Hcoo Hne Hout)
    as [(_ & -> & Hf) | [(_ & -> & Hf) | (k & _ & Hk & Hf)]].
  - split.
    + apply (tidy_weaken s); [done | | done]. intros p.
      destruct (Hf p) as (-> & -> & -> & ->). split_and!; [done..|].
      case_decide; [by right | by left].
    + split; [done|]. intros p. destruct (Hf p) as (-> & _ & _ & ->). split.
      * intros Hp. assert (p ≠ coo) as Hpc by (by intros ->).
        rewrite decide_False by done. apply Hiff, Hmem. by right.
      * intros [He Ha]. case_decide; [done|].
        assert (p ∈ new ++ coo :: rest) as [?|?]%Hmem by (by apply Hiff); done.
  - split.
    + apply (tidy_weaken s); [done | | done]. intros p.
      destruct (Hf p) as (-> & -> & -> & ->). split_and!; [done..|by left].
    + apply (listed_perm s' (new ++ coo :: rest)).
      { by rewrite <- app_assoc. }
      split; [done|]. intros p. destruct (Hf p) as (-> & _ & _ & ->). apply Hiff.
  - cbv zeta in Hf. remember (add_coord coo (shift_of k)) as q eqn:Hq.
    destruct Hf as (Hqe & Hqi & Hqc & -> & Hf).
    destruct (ok_empty s Hok q Hqe) as (_ & _ & Hqb).
    assert (k ∉ bonds (cell s coo)) as Hknew.
    { intros Hin. pose proof (bond_target_claimed s coo k Hok Hin). congruence. }
    assert (∀ p j, j ∈ bonds (cell s p) → p ≠ q ∧ add_coord p (shift_of j) ≠ q)
      as Hold.
    { intros p j Hj. split; intros E.
      - pose proof (bonded_claimed s p j Hok Hj). congruence.
      - pose proof (bond_target_claimed s p j Hok Hj). congruence. }
    split.
    + split.
      * intros p Hp. destruct (Hf p) as (_ & -> & _).
        rewrite decide_False by (intros ->; by rewrite Hres in Hp).
        apply (td_border s Ht). by rewrite <- Hres.
      * intros p. destruct (Hf p) as (-> & -> & -> & ->).
        destruct (decide (p = q)) as [->|Hpq]; [congruence|].
        intros He Hcol. destruct (td_wall s Ht p He Hcol) as [Ha Hb].
        split; [done|]. rewrite Hb. simpl.
        case_decide; [congruence|done].
      * intros p j. destruct (Hf p) as (_ & -> & _ & ->).
        destruct (Hf (add_coord p (shift_of j))) as (_ & -> & _).
        rewrite !elem_of_app. intros [Hj | [Hj | Hj]].
        -- destruct (Hold p j Hj) as [? ?]. rewrite !decide_False by done.
           by apply (td_bond_color s Ht).
        -- destruct (decide (p = q)) as [->|?]; [|by apply elem_of_nil in Hj].
           apply list_elem_of_singleton in Hj as ->.
           assert (add_coord q (shift_of ((k + 2) mod 4)) = coo) as ->
             by (rewrite Hq; by apply shift_back).
           by rewrite decide_False by done.
        -- destruct (decide (p = coo)) as [->|?]; [|by apply elem_of_nil in Hj].
           apply list_elem_of_singleton in Hj as ->. rewrite <- Hq.
           rewrite decide_True by done. by rewrite decide_False by done.
      * intros p. destruct (Hf p) as (_ & _ & _ & ->).
        destruct (decide (p = q)) as [->|Hpq].
        -- rewrite Hqb, decide_False by done. simpl. apply NoDup_singleton.
        -- simpl. destruct (decide (p = coo)) as [->|?].
           ++ apply NoDup_app. split_and!; [apply (td_bonds_nodup s Ht) | | apply NoDup_singleton].
              intros x Hx ->%list_elem_of_singleton. done.
           ++ rewrite app_nil_r. apply (td_bonds_nodup s Ht).
    + assert (q ∉ new ++ coo :: rest) as Hqnot.
      { intros [He _]%Hiff. congruence. }
      apply (listed_perm s' (q :: new ++ coo :: rest)).
      { rewrite <- !app_assoc. apply (Permutation_middle new (coo :: rest) q). }
      split; [by apply NoDup_cons|]. intros p.
      destruct (Hf p) as (-> & _ & -> & _). rewrite elem_of_cons.
      destruct (decide (p = q)) as [->|Hpq]; [by split; [|left]|].
      rewrite <- Hiff. split; [by intros [?|?] | by right].
Qed.

Lemma tidy_set_active_cells l s : tidy s → tidy (set_active_cells l s).
Proof. intros []. by split. Qed.

Lemma step_Inv2 grow_prop s g s' g' :
  Inv s → Inv2 s → step grow_prop s g = Ok (s', g') → Inv2 s'.
Proof.
  intros HI [Ht Hl] Hrun.
  pose proof (shuffle_perm (active_cells s) g) as Hperm.
  destruct (step_split
    (λ pre s1 new, tidy s1 ∧
       ∃ rest, (shuffle (active_cells s) g).1 = pre ++ rest ∧
               listed s1 (new ++ rest)) grow_prop s g HI)
    as (s1 & g1 & new & Hrun' & _ & _ & Ht1 & rest & Hrest & Hl1).
  - split; [by apply tidy_set_active_cells|].
    exists (shuffle (active_cells s) g).1. split; [done|]. simpl.
    by apply (listed_perm s (active_cells s)).
  - intros pre coo rest s1 g1 new1 s2 g2 new2 Hsplit Hok1 Hext1 Hint1 Hne1
      (Ht1 & rest' & Hrest' & Hl1) Hout.
    rewrite Hsplit in Hrest'. apply app_inv_head in Hrest' as <-.
    destruct (outcome_Inv2 _ _ _ _ _ _ _ _ _ Hok1 Hint1 Hne1 Ht1 Hl1 Hout)
      as [Ht2 Hl2].
    split; [done|]. exists rest. split; [by rewrite <- app_assoc | done].
  - rewrite Hrun in Hrun'. apply Ok_inj in Hrun'. injection Hrun' as -> _.
    rewrite <- (app_nil_r (_.1)) in Hrest at 1. apply app_inv_head in Hrest as <-.
    rewrite app_nil_r in Hl1. split; [by apply tidy_set_active_cells | done].
Qed.

(** A claim of an unclaimed cell by the seeder or the completer. *)
Lemma seed_Inv2 s s' p c :
  Inv s → Inv2 s → in_grid (res s) p → unclaimed (cell s p) = true →
  res s' = res s → active_cells s' = active_cells s ++ [p] →
  (∀ q, q ≠ p → cell s' q = cell s q) →
  color (cell s' p) = Some c → empty (cell s' p) = false →
  active (cell s' p) = active (cell s p) → bonds (cell s' p) = bonds (cell s p) →
  Inv2 s'.
Proof.
  intros [Hok Hact] [Ht [Hnd Hiff]] Hin [He Ha]%unclaimed_true Hres Hl Hsame
    Hc' He' Ha' Hb'.
  pose proof (unclaimed_interior s p Hok Hin He) as Hint.
  destruct (ok_empty s Hok p He) as (_ & _ & Hb).
  assert (∀ q j, j ∈ bonds (cell s q) → q ≠ p ∧ add_coord q (shift_of j) ≠ p)
    as Hold.
  { intros q j Hj. split; intros E.
    - pose proof (bonded_claimed s q j Hok Hj). congruence.
    - pose proof (bond_target_claimed s q j Hok Hj). congruence. }
  assert (∀ q, bonds (cell s' q) = bonds (cell s q)) as Hbonds.
  { intros q. destruct (decide (q = p)) as [->|?]; [done | by rewrite Hsame]. }
  split; [split|].
  - intros q Hq. rewrite Hres in Hq. rewrite Hsame by (by intros ->).
    by apply (td_border s Ht).
  - intros q. destruct (decide (q = p)) as [->|?]; [congruence|].
    rewrite Hsame by done. apply (td_wall s Ht).
  - intros q j. rewrite Hbonds. intros Hj. destruct (Hold q j Hj) as [? ?].
    rewrite !Hsame by done. by apply (td_bond_color s Ht).
  - intros q. rewrite Hbonds. apply (td_bonds_nodup s Ht).
  - rewrite Hl. split.
    + apply NoDup_app. split_and!; [done | | apply NoDup_singleton].
      intros x [Hx _]%Hiff ->%list_elem_of_singleton. congruence.
    + intros q. rewrite elem_of_app, list_elem_of_singleton.
      destruct (decide (q = p)) as [->|?].
      * split; [intros _; split; congruence | by right].
      * rewrite Hsame by done. rewrite Hiff. split; [by intros [?|?] | by left].
Qed.

Lemma Jigsaw_init_Inv2 res0 bordertype s :
  Jigsaw_init res0 bordertype = Ok s → Inv2 s.
Proof.
  intros [_ Hm]%Jigsaw_init_Ok.
  assert (∀ p, ∃ i j, cell s p = Dot_init i j ∨ cell s p = wall_dot (Dot_init i j))
    as Hcell.
  { intros p. destruct (cell_fresh_grid_any (res0 + 2) p) as (i & j & Hij).
    exists i, j. destruct (masked_cases _ _ _ p Hm) as [-> | ->]; rewrite Hij; auto. }
  destruct Hm as (_ & _ & Hact & _).
  split; [split|].
  - intros p _. by destruct (Hcell p) as (i & j & [-> | ->]).
  - intros p. by destruct (Hcell p) as (i & j & [-> | ->]).
  - intros p k. destruct (Hcell p) as (i & j & [-> | ->]); by intros ?%elem_of_nil.
  - intros p. destruct (Hcell p) as (i & j & [-> | ->]); apply NoDup_nil_2.
  - rewrite Hact. split; [apply NoDup_nil_2|]. intros p.
    split; [by intros ?%elem_of_nil|].
    by destruct (Hcell p) as (i & j & [-> | ->]); intros [? ?].
Qed.

Lemma place_Inv2 c p s :
  Inv s → Inv2 s → in_grid (res s) p → unclaimed (cell s p) = true →
  Inv2 (place c p s).
Proof.
  intros HI HI2 Hin Hu.
  destruct (place_spec c p s) as (Hres & Hcol & He & Ha & Hb & Hl & Hsame).
  rewrite (ok_coords s (proj1 HI) p Hin) in Hl.
  by apply (seed_Inv2 s (place c p s) p c).
Qed.

Lemma cell_set_active_cells l s p : cell (set_active_cells l s) p = cell s p.
Proof. done. Qed.

Lemma fill_Inv2 s p :
  Inv s → Inv2 s → in_grid (res s) p → unclaimed (cell s p) = true →
  Inv2 (set_active_cells (active_cells s ++ [p])
          (modify p (set_color (Some filler_color) ∘ set_empty false) s)).
Proof.
  intros HI HI2 Hin Hu.
  apply (seed_Inv2 s _ p filler_color); try done;
    try (intros q Hq); rewrite ?cell_set_active_cells;
    by rewrite ?cell_modify_eq, ?cell_modify_ne.
Qed.

Lemma operation_Inv2 s s' : Inv s → Inv2 s → operation s s' → Inv2 s'.
Proof.
  apply (operation_preserves Inv2).
  - intros s0 n _ [[] ?]. by split.
  - intros s0 c p HI HI2 Hin Hu _. by apply place_Inv2.
  - apply fill_Inv2.
  - intros gp s0 g s1 g1. apply step_Inv2.
Qed.

Lemma reachable_Inv2 s : reachable s → Inv2 s.
Proof.
  apply (reachable_preserves Inv2).
  - apply Jigsaw_init_Inv2.
  - apply operation_Inv2.
Qed.

Lemma claimed_in_grid s p :
  grid_ok s → empty (cell s p) = false → in_grid (res s) p.
Proof.
  intros Hok He. apply (ok_dom s Hok).
  destruct (jigsaw s !! p) as [d|] eqn:Hd; [done|].
  unfold cell in He. rewrite lookup_total_alt, Hd in He. done.
Qed.

(** ** What is settled *)

Lemma settled_refl s : settled s s.
Proof. by split. Qed.

Lemma settled_trans s1 s2 s3 :
  extends s1 s2 → settled s1 s2 → settled s2 s3 → settled s1 s3.
Proof.
  intros Hext [Hw1 Ha1] [Hw2 Ha2]. split.
  - intros p He Hc. rewrite <- (Hw1 p He Hc). apply Hw2.
    + by apply (ext_empty _ _ Hext).
    + by rewrite (Hw1 p He Hc).
  - intros p He Ha. apply Ha2; [by apply (ext_empty _ _ Hext) | by apply Ha1].
Qed.

(** One iteration of the loop of [step] modifies no claimed cell but
    the cell it processes. *)
Lemma outcome_frame grow_prop coo s g new s' g' new' p :
  grid_ok s → interior (res s) coo →
  cell_outcome grow_prop coo s g new (s', g', new') →
  p ≠ coo → empty (cell s p) = false → cell s' p = cell s p.
Proof.
  intros Hok Hcoo Hout Hp He.
  assert (coo ≠ p) as Hp' by (by intros ->).
  inversion Hout as [HF | k g1 r g2 Hc Hr Hlt | k g1 r g2 Hc Hr Hlt]; subst.
  - unfold found. by rewrite !cell_modify_ne.
  - apply choice_of_elem, elem_of_free_list_ok in Hc as (Hk & Hq & _); [|done..].
    assert (add_coord coo (shift_of k) ≠ p) as Hqp by (intros <-; congruence).
    unfold claim_state, found. by rewrite !cell_modify_ne.
  - unfold found. by rewrite !cell_modify_ne.
Qed.

Lemma step_settled grow_prop s g s' g' :
  Inv s → Inv2 s → step grow_prop s g = Ok (s', g') → settled s s'.
Proof.
  intros HI [Ht Hl] Hrun.
  destruct (step_inv (λ _ s1 _, settled s s1) grow_prop s g HI)
    as (s1 & g1 & new & Hrun' & _ & _ & Hs).
  - intros l. by split.
  - intros pre coo s1 g1 new1 s2 g2 new2 Hin Hok1 Hext1 Hint1 Hne1 [Hw Ha] Hout.
    destruct (listed_colored s _ coo Ht Hl Hin) as [c Hc].
    split.
    + intros p He Hcol. rewrite <- (Hw p He Hcol).
      apply (outcome_frame _ _ _ _ _ _ _ _ _ Hok1 Hint1 Hout).
      * intros ->. congruence.
      * by apply (ext_empty _ _ Hext1).
    + intros p He Hact. specialize (Ha p He Hact).
      pose proof (ext_empty _ _ Hext1 p He) as He1.
      destruct (outcome_fields _ _ _ _ _ _ _ _ Hok1 Hint1 Hne1 Hout)
        as [(_ & _ & Hf) | [(_ & _ & Hf) | (k & _ & Hk & Hq & _ & _ & _ & Hf)]];
        destruct (Hf p) as (_ & _ & H3 & H4).
      * rewrite H4. by case_decide.
      * congruence.
      * rewrite H3. rewrite decide_False; [done|]. intros ->. congruence.
  - rewrite Hrun in Hrun'. apply Ok_inj in Hrun'. injection Hrun' as -> _.
    destruct Hs as [Hw Ha]. by split.
Qed.

(** A claim of an empty cell settles nothing anew and unsettles
    nothing. *)
Lemma seed_settled s s' p :
  empty (cell s p) = true → (∀ q, q ≠ p → cell s' q = cell s q) → settled s s'.
Proof.
  intros He Hsame.
  split; intros q Hq; rewrite Hsame by (intros ->; congruence); done.
Qed.

Lemma operation_settled s s' :
  Inv s → Inv2 s → operation s s' → settled s s'.
Proof.
  intros HI HI2 Hop.
  enough (Inv2 s' ∧ extends s s' ∧ settled s s') as (_ & _ & ?) by done.
  revert Hop. apply (operation_preserves
    (λ x, Inv2 x ∧ extends s x ∧ settled s x)); [| | | | done |].
  - intros s0 n _ ([[] ?] & [] & []). by split_and!.
  - intros s0 c p HI0 (HI20 & Hext & Hs) Hin Hu Hc.
    destruct (place_Inv c p s0 HI0 Hin Hu Hc) as [_ Hext'].
    apply unclaimed_true in Hu as Hu'. destruct Hu' as [He _].
    split_and!.
    + by apply place_Inv2.
    + by eapply extends_trans.
    + apply (settled_trans s s0); [done | done |].
      apply (seed_settled s0 _ p He). apply place_spec.
  - intros s0 p HI0 (HI20 & Hext & Hs) Hin Hu.
    apply unclaimed_true in Hu as Hu'. destruct Hu' as [He _].
    split_and!.
    + by apply fill_Inv2.
    + eapply extends_trans; [done|].
      apply (claim_cell_Inv s0 p _ (active_cells s0 ++ [p])); try done.
      simpl. by intros x [= <-].
    + apply (settled_trans s s0); [done | done |].
      apply (seed_settled s0 _ p He). intros q Hq.
      rewrite cell_set_active_cells. by rewrite cell_modify_ne.
  - intros gp s0 g s1 g1 HI0 (HI20 & Hext & Hs) Hrun.
    destruct (step_Inv_Ok _ _ _ _ _ HI0 Hrun) as [_ Hext'].
    split_and!.
    + by eapply step_Inv2.
    + by eapply extends_trans.
    + apply (settled_trans s s0); [done | done |]. by eapply step_settled.
  - split_and!; [done | apply extends_refl | apply settled_refl].
Qed.

Lemma operations_Inv2 s s' : Inv s → Inv2 s → rtc operation s s' → Inv2 s'.
Proof.
  intros HI HI2 Hops. revert HI HI2.
  induction Hops as [s | s s1 s2 Hop _ IH]; intros HI HI2; [done|].
  destruct (operation_Inv s s1 HI Hop) as [HI1 _].
  apply IH; [done|]. by apply (operation_Inv2 s).
Qed.

Lemma operations_settled s s' :
  Inv s → Inv2 s → rtc operation s s' → settled s s'.
Proof.
  intros HI HI2 Hops. revert HI HI2.
  induction Hops as [s | s s1 s2 Hop _ IH]; intros HI HI2; [apply settled_refl|].
  destruct (operation_Inv s s1 HI Hop) as [HI1 Hext].
  apply (settled_trans s s1); [done | by apply operation_settled |].
  apply IH; [done|]. by apply (operation_Inv2 s).
Qed.

(** ** More of the run *)

Lemma demo_done_run :
  ∃ r, steps 25 1 demo_seeded.1 demo_seeded.2 = Ok (demo_done.1, demo_done.2, r).
Proof. eexists. vm_compute. reflexivity. Qed.

Lemma demo_done_reachable : reachable demo_done.1.
Proof.
  destruct demo_done_run as [r Hr].
  apply (reach_op demo_seeded.1); [apply demo_seeded_reachable|].
  by apply (op_steps _ _ 25 1 demo_seeded.2 demo_done.2 r).
Qed.

Lemma demo_done_step : step 1 demo_done.1 demo_done.2 = Ok demo_done.
Proof. vm_compute. reflexivity. Qed.

Lemma demo_completed_run : complete demo_done.1 demo_done.2 = Ok demo_completed.
Proof. vm_compute. reflexivity. Qed.

Lemma demo_completed_reachable : reachable demo_completed.1.
Proof.
  apply (reach_op demo_done.1); [apply demo_done_reachable|].
  apply (op_complete _ _ demo_done.2 demo_completed.2).
  rewrite demo_completed_run. by destruct demo_completed.
Qed.

Lemma demo_done_operations : rtc operation demo_done.1 demo_completed.1.
Proof.
  apply (rtc_l _ _ demo_done.1).
  - apply (op_step _ _ 1 demo_done.2 demo_done.2).
    rewrite demo_done_step. by destruct demo_done.
  - apply rtc_once, (op_complete _ _ demo_done.2 demo_completed.2).
    rewrite demo_completed_run. by destruct demo_completed.
Qed.

Lemma demo_grown_operations : rtc operation demo_grid demo_grown.1.
Proof.
  apply (rtc_l _ _ demo_seeded.1).
  - apply (op_initiate_pieces _ _ 1 1 demo_rng demo_seeded.2).
    rewrite demo_seeded_run. by destruct demo_seeded.
  - apply rtc_once, (op_step _ _ 1 demo_seeded.2 demo_grown.2).
    rewrite demo_grown_run. by destruct demo_grown.
Qed.

(** ** The kinds of cell *)

(** X1. Every cell of a grid produced by construction and any
    operations is of exactly one of three kinds: unclaimed (empty,
    active, no colour, no bond; [get_color] gives 0), a wall (not empty,
    not active, no colour, no bond; [get_color] gives [None]), or claimed
    (not empty, with a piece colour at least 1, which [get_color]
    returns).  Unclaimed and claimed cells lie off the outermost ring. *)
Theorem cell_kinds s :
  reachable s →
  ∀ p d, jigsaw s !! p = Some d →
    (empty d = true ∧ active d = true ∧ color d = None ∧ bonds d = [] ∧
     get_color d = Some 0 ∧ interior (res s) p) ∨
    (empty d = false ∧ active d = false ∧ color d = None ∧ bonds d = [] ∧
     get_color d = None) ∨
    (empty d = false ∧ interior (res s) p ∧
     ∃ c, 1 ≤ c ∧ color d = Some c ∧ get_color d = Some c).
Proof.
  intros Hr p d Hd.
  pose proof (reachable_Inv s Hr) as [Hok _].
  pose proof (reachable_Inv2 s Hr) as [Ht _].
  apply lookup_cell_Some in Hd as [<- Hin]; [|done].
  unfold get_color. destruct (empty (cell s p)) eqn:He.
  - left. destruct (ok_empty s Hok p He) as (-> & -> & ->).
    split_and!; try done. by apply unclaimed_interior.
  - right. destruct (color (cell s p)) as [c|] eqn:Hc.
    + right. split_and!; [done | |].
      * destruct (decide (interior (res s) p)) as [|Hn]; [done|].
        pose proof (td_border s Ht p Hn). congruence.
      * exists c. split_and!; [|done..]. by apply (ok_color s Hok p).
    + left. destruct (td_wall s Ht p He Hc) as [-> ->]. done.
Qed.

Lemma cell_kinds_witness :
  (empty (cell demo_grown.1 (2, 2)) = true ∧
   active (cell demo_grown.1 (2, 2)) = true ∧
   color (cell demo_grown.1 (2, 2)) = None ∧
   bonds (cell demo_grown.1 (2, 2)) = [] ∧
   get_color (cell demo_grown.1 (2, 2)) = Some 0 ∧
   interior (res demo_grown.1) (2, 2)) ∨
  (empty (cell demo_grown.1 (2, 2)) = false ∧
   active (cell demo_grown.1 (2, 2)) = false ∧
   color (cell demo_grown.1 (2, 2)) = None ∧
   bonds (cell demo_grown.1 (2, 2)) = [] ∧
   get_color (cell demo_grown.1 (2, 2)) = None) ∨
  (empty (cell demo_grown.1 (2, 2)) = false ∧
   interior (res demo_grown.1) (2, 2) ∧
   ∃ c, 1 ≤ c ∧ color (cell demo_grown.1 (2, 2)) = Some c ∧
        get_color (cell demo_grown.1 (2, 2)) = Some c).
Proof.
  apply (cell_kinds demo_grown.1 demo_grown_reachable (2, 2)).
  vm_compute. reflexivity.
Defined.

(** X2. In every grid produced by construction and any operations the
    active list holds, once each, exactly the cells that are claimed and
    whose [active] flag is set. *)
Theorem active_list_exact s :
  reachable s →
  NoDup (active_cells s) ∧
  ∀ p, p ∈ active_cells s ↔
       ∃ d, jigsaw s !! p = Some d ∧ empty d = false ∧ active d = true.
Proof.
  intros Hr.
  pose proof (reachable_Inv s Hr) as [Hok _].
  pose proof (reachable_Inv2 s Hr) as [_ [Hnd Hiff]].
  split; [done|]. intros p. rewrite Hiff. split.
  - intros [He Ha]. exists (cell s p). split; [|done].
    by apply lookup_in_grid, claimed_in_grid.
  - by intros (d & [<- _]%lookup_cell_Some & ? & ?).
Qed.

Lemma active_list_exact_witness :
  NoDup (active_cells demo_grown.1) ∧
  ∀ p, p ∈ active_cells demo_grown.1 ↔
       ∃ d, jigsaw demo_grown.1 !! p = Some d ∧ empty d = false ∧ active d = true.
Proof. exact (active_list_exact demo_grown.1 demo_grown_reachable). Defined.

(** X3. A bond joins two cells of the same piece: in every grid produced
    by construction and any operations, a cell with a bond to a neighbour
    and that neighbour both carry a colour, and it is the same colour. *)
Theorem bonds_join_one_piece s :
  reachable s →
  ∀ p d k, jigsaw s !! p = Some d → k ∈ bonds d →
    ∃ d' c, jigsaw s !! add_coord p (shift_of k) = Some d' ∧
            color d = Some c ∧ color d' = Some c.
Proof.
  intros Hr p d k Hd Hk.
  pose proof (reachable_Inv s Hr) as [Hok _].
  pose proof (reachable_Inv2 s Hr) as [Ht _].
  apply lookup_cell_Some in Hd as [<- Hin]; [|done].
  pose proof (bonded_claimed s p k Hok Hk) as He.
  pose proof (bond_target_claimed s p k Hok Hk) as He'.
  destruct (color (cell s p)) as [c|] eqn:Hc.
  - exists (cell s (add_coord p (shift_of k))), c. split_and!; [|done|].
    + by apply lookup_in_grid, claimed_in_grid.
    + by rewrite (td_bond_color s Ht p k Hk).
  - destruct (td_wall s Ht p He Hc) as [_ Hb]. rewrite Hb in Hk.
    by apply elem_of_nil in Hk.
Qed.

Lemma bonds_join_one_piece_witness :
  ∃ d' c, jigsaw demo_grown.1 !! add_coord (2, 2) (shift_of 1) = Some d' ∧
          color (cell demo_grown.1 (2, 2)) = Some c ∧ color d' = Some c.
Proof.
  apply (bonds_join_one_piece demo_grown.1 demo_grown_reachable (2, 2)
           (cell demo_grown.1 (2, 2)) 1).
  - vm_compute. reflexivity.
  - vm_compute. left.
Defined.

(** X4. No cell holds the same bond twice: in every grid produced by
    construction and any operations the bond list of a cell has no
    duplicates, its entries are directions 0 to 3, and so it has at most
    four entries. *)
Theorem bonds_distinct s :
  reachable s →
  ∀ p d, jigsaw s !! p = Some d →
    NoDup (bonds d) ∧ (∀ k, k ∈ bonds d → 0 ≤ k < 4) ∧ (length (bonds d) ≤ 4)%nat.
Proof.
  intros Hr p d Hd.
  pose proof (reachable_Inv s Hr) as [Hok _].
  pose proof (reachable_Inv2 s Hr) as [Ht _].
  apply lookup_cell_Some in Hd as [<- Hin]; [|done].
  pose proof (td_bonds_nodup s Ht p) as Hnd.
  assert (∀ k, k ∈ bonds (cell s p) → 0 ≤ k < 4) as Hrange
    by (intros k Hk; by apply (ok_bonds s Hok p k)).
  split_and!; [done | done |].
  change 4%nat with (length [0; 1; 2; 3]).
  apply submseteq_length, NoDup_submseteq; [done|].
  intros k Hk%Hrange. rewrite !elem_of_cons. lia.
Qed.

Lemma bonds_distinct_witness :
  NoDup (bonds (cell demo_completed.1 (2, 2))) ∧
  (∀ k, k ∈ bonds (cell demo_completed.1 (2, 2)) → 0 ≤ k < 4) ∧
  (length (bonds (cell demo_completed.1 (2, 2)%Z)) ≤ 4)%nat.
Proof.
  apply (bonds_distinct demo_completed.1 demo_completed_reachable (2, 2)).
  vm_compute. reflexivity.
Defined.

(** ** What is settled *)

(** X5. A wall is never touched: a cell that is not empty and has no
    colour in a grid produced by construction and any operations is the
    very same cell, field for field, after any further operations; it is
    never claimed, coloured, bonded or activated. *)
Theorem walls_untouched s s' :
  reachable s → rtc operation s s' →
  ∀ p d, jigsaw s !! p = Some d → empty d = false → color d = None →
    jigsaw s' !! p = Some d.
Proof.
  intros Hr Hops p d Hd He Hc.
  pose proof (reachable_Inv s Hr) as HI.
  pose proof (reachable_Inv2 s Hr) as HI2.
  destruct (operations_Inv s s' HI Hops) as [[Hok' _] Hext].
  pose proof (operations_settled s s' HI HI2 Hops) as [Hw _].
  apply lookup_cell_Some in Hd as [<- Hin]; [|apply HI].
  rewrite <- (Hw p He Hc). apply lookup_in_grid; [done|].
  by rewrite (ext_res _ _ Hext).
Qed.

Lemma walls_untouched_witness :
  jigsaw demo_grown.1 !! (0, 0) = Some (cell demo_grid (0, 0)).
Proof.
  apply (walls_untouched demo_grid demo_grown.1 demo_grid_reachable
           demo_grown_operations (0, 0) (cell demo_grid (0, 0))).
  - vm_compute. reflexivity.
  - vm_compute. reflexivity.
  - vm_compute. reflexivity.
Defined.

(** X6. Deactivation is permanent: a claimed cell whose [active] flag
    has been cleared keeps it cleared through any further operations; it
    stays claimed, keeps its colour, and is never again in the active
    list. *)
Theorem deactivation_permanent s s' :
  reachable s → rtc operation s s' →
  ∀ p d, jigsaw s !! p = Some d → empty d = false → active d = false →
    ∃ d', jigsaw s' !! p = Some d' ∧ empty d' = false ∧ active d' = false ∧
          color d' = color d ∧ p ∉ active_cells s'.
Proof.
  intros Hr Hops p d Hd He Ha.
  pose proof (reachable_Inv s Hr) as HI.
  pose proof (reachable_Inv2 s Hr) as HI2.
  destruct (operations_Inv s s' HI Hops) as [[Hok' _] Hext].
  pose proof (operations_settled s s' HI HI2 Hops) as [Hw Hact].
  pose proof (operations_Inv2 s s' HI HI2 Hops) as [_ [_ Hiff]].
  apply lookup_cell_Some in Hd as [<- Hin]; [|apply HI].
  exists (cell s' p). split_and!.
  - apply lookup_in_grid; [done|]. by rewrite (ext_res _ _ Hext).
  - by apply (ext_empty _ _ Hext).
  - by apply Hact.
  - destruct (color (cell s p)) as [c|] eqn:Hc.
    + by apply (ext_color _ _ Hext).
    + by rewrite (Hw p He Hc).
  - intros [_ Ha']%Hiff. rewrite (Hact p He Ha) in Ha'. done.
Qed.

Lemma deactivation_permanent_witness :
  ∃ d', jigsaw demo_completed.1 !! (1, 3) = Some d' ∧ empty d' = false ∧
        active d' = false ∧ color d' = color (cell demo_done.1 (1, 3)) ∧
        (1, 3) ∉ active_cells demo_completed.1.
Proof.
  apply (deactivation_permanent demo_done.1 demo_completed.1 demo_done_reachable
           demo_done_operations (1, 3) (cell demo_done.1 (1, 3))).
  - vm_compute. reflexivity.
  - vm_compute. reflexivity.
  - vm_compute. reflexivity.
Defined.

(** ** Bonds do not cross *)

Lemma elem_of_new_bonds (j a c : Z) (b : list Z) (P R : Prop)
    `{!Decision P} `{!Decision R} :
  j ∈ b ++ (if decide P then [a] else []) ++ (if decide R then [c] else []) ↔
  j ∈ b ∨ (P ∧ j = a) ∨ (R ∧ j = c).
Proof.
  rewrite !elem_of_app. do 2 case_decide;
    rewrite ?list_elem_of_singleton, ?elem_of_nil; tauto.
Qed.

Lemma outcome_uncrossed grow_prop coo s g new s' g' new' :
  grid_ok s → interior (res s) coo → empty (cell s coo) = false →
  uncrossed s →
  cell_outcome grow_prop coo s g new (s', g', new') →
  uncrossed s'.
Proof.
  intros Hok Hcoo Hne Hun Hout.
  destruct (outcome_fields _ _ _ _ _ _ _ _ Hok Hcoo Hne Hout)
    as [(_ & _ & Hf) | [(_ & _ & Hf) | (k & Hfree & Hk & Hf)]].
  - intros p. destruct (Hf p) as (_ & _ & -> & _).
    destruct (Hf (add_coord p (0, 1))) as (_ & _ & -> & _). apply Hun.
  - intros p. destruct (Hf p) as (_ & _ & -> & _).
    destruct (Hf (add_coord p (0, 1))) as (_ & _ & -> & _). apply Hun.
  - cbv zeta in Hf. destruct Hf as (_ & _ & _ & _ & Hf).
    apply elem_of_free_list_ok in Hfree as (_ & _ & Hnb); [|done..].
    assert (∀ p j, j ∈ bonds (cell s p) →
              ((j + 2) mod 4) ∈ bonds (cell s (add_coord p (shift_of j)))) as Hrec.
    { intros p j Hj. by apply (ok_bonds s Hok). }
    intros p [H0 H3].
    destruct (Hf p) as (_ & _ & _ & Hb0). rewrite Hb0 in H0.
    destruct (Hf (add_coord p (0, 1))) as (_ & _ & _ & Hb3). rewrite Hb3 in H3.
    apply elem_of_new_bonds in H0, H3. clear Hf Hb0 Hb3 Hout.
    destruct coo as [x y], p as [px py]. unfold blocked in Hnb.
    pose proof (Hun (px, py)) as Hold.
    pose proof (Hrec (px, py) 0) as Hr0.
    pose proof (Hrec (add_coord (px, py) (0, 1)) 3) as Hr3.
    change (shift_of 0) with (1, 1) in Hr0.
    change (shift_of 3) with (1, -1) in Hr3.
    change ((0 + 2) mod 4) with 2 in Hr0.
    change ((3 + 2) mod 4) with 1 in Hr3.
    unfold add_coord in Hnb, Hold, Hr0, Hr3, H0, H3.
    cbn [fst snd] in Hnb, Hold, Hr0, Hr3, H0, H3.
    assert (k = 0 ∨ k = 1 ∨ k = 2 ∨ k = 3) as [-> | [-> | [-> | ->]]] by lia.
    + change (shift_of 0) with (1, 1) in *. change ((0 + 2) mod 4) with 2 in *.
      cbn [fst snd] in *.
      destruct H3 as [H3 | [[_ ?] | [_ ?]]]; [|lia..].
      destruct H0 as [H0 | [[_ ?] | [[= -> ->] _]]]; [tauto | lia |].
      apply Hnb. left. split; [done|]. by replace (x + 0) with x in H3 |- * by lia.
    + change (shift_of 1) with (-1, 1) in *. change ((1 + 2) mod 4) with 3 in *.
      cbn [fst snd] in *.
      destruct H0 as [H0 | [[_ ?] | [_ ?]]]; [|lia..].
      destruct H3 as [H3 | [[[= Hx Hy] _] | [_ ?]]]; [tauto | | lia].
      apply Hnb. right; left. split; [done|]. specialize (Hr0 H0).
      by replace (x + 0, y + 1) with (px + 1, py + 1) by (f_equal; lia).
    + change (shift_of 2) with (-1, -1) in *. change ((2 + 2) mod 4) with 0 in *.
      cbn [fst snd] in *.
      destruct H3 as [H3 | [[_ ?] | [_ ?]]]; [|lia..].
      destruct H0 as [H0 | [[[= -> ->] _] | [_ ?]]]; [tauto | | lia].
      apply Hnb. right; right; left. split; [done|]. specialize (Hr3 H3).
      by replace (x + 0, y + -1) with (x + -1 + 0 + 1, y + -1 + 1 + -1)
        by (f_equal; lia).
    + change (shift_of 3) with (1, -1) in *. change ((3 + 2) mod 4) with 1 in *.
      cbn [fst snd] in *.
      destruct H0 as [H0 | [[_ ?] | [_ ?]]]; [|lia..].
      destruct H3 as [H3 | [[_ ?] | [[= Hx Hy] _]]]; [tauto | lia |].
      apply Hnb. right; right; right. split; [done|].
      by replace (x + 0, y + -1) with (px, py) by (f_equal; lia).
Qed.

Lemma uncrossed_same_bonds s s' :
  (∀ p, bonds (cell s' p) = bonds (cell s p)) → uncrossed s → uncrossed s'.
Proof. intros Hb Hun p. rewrite !Hb. apply Hun. Qed.

Lemma step_uncrossed grow_prop s g s' g' :
  Inv s → uncrossed s → step grow_prop s g = Ok (s', g') → uncrossed s'.
Proof.
  intros HI Hun Hrun.
  destruct (step_inv (λ _ s1 _, uncrossed s1) grow_prop s g HI)
    as (s1 & g1 & new & Hrun' & _ & _ & Hun1).
  - done.
  - intros pre coo s1 g1 new1 s2 g2 new2 _ Hok1 _ Hint1 Hne1 Hun1 Hout.
    by eapply outcome_uncrossed.
  - rewrite Hrun in Hrun'. apply Ok_inj in Hrun'. by injection Hrun' as -> _.
Qed.

Lemma reachable_uncrossed s : reachable s → uncrossed s.
Proof.
  apply (reachable_preserves uncrossed).
  - intros res0 bt s0 [_ Hm]%Jigsaw_init_Ok p [H0 _].
    destruct (cell_fresh_grid_any (res0 + 2) p) as (i & j & Hij).
    destruct (masked_cases _ _ _ p Hm) as [E | E]; rewrite E, Hij in H0;
      by apply elem_of_nil in H0.
  - apply (operation_preserves uncrossed).
    + done.
    + intros s0 c p _ Hun _ _ _. apply (uncrossed_same_bonds s0); [|done].
      intros q. destruct (place_spec c p s0) as (_ & _ & _ & _ & Hb & _ & Hsame).
      destruct (decide (q = p)) as [->|?]; [done | by rewrite Hsame].
    + intros s0 p _ Hun _ _. apply (uncrossed_same_bonds s0); [|done].
      intros q. rewrite cell_set_active_cells. by rewrite (proj_modify bonds).
    + intros gp s0 g s1 g1. apply step_uncrossed.
Qed.

(** X7. Bonds never cross: in every grid produced by construction and
    any operations, of the two diagonals of a unit square at most one is
    a bond.  The diagonal from [(x, y)] to [(x+1, y+1)] is bond 0 of the
    first cell and bond 2 of the second; the diagonal from [(x, y+1)] to
    [(x+1, y)] is bond 3 of the first and bond 1 of the second. *)
Theorem bonds_never_cross s :
  reachable s →
  ∀ x y,
    ¬ ((0 ∈ bonds (cell s (x, y)) ∨ 2 ∈ bonds (cell s (x + 1, y + 1))) ∧
       (3 ∈ bonds (cell s (x, y + 1)) ∨ 1 ∈ bonds (cell s (x + 1, y)))).
Proof.
  intros Hr x y [HA HB].
  pose proof (reachable_Inv s Hr) as [Hok _].
  apply (reachable_uncrossed s Hr (x, y)). split.
  - destruct HA as [?|H2]; [done|].
    apply (ok_bonds s Hok) in H2 as [_ H2].
    change ((2 + 2) mod 4) with 0 in H2. change (shift_of 2) with (-1, -1) in H2.
    unfold add_coord in H2. cbn [fst snd] in H2.
    by replace (x + 1 + -1, y + 1 + -1) with (x, y) in H2 by (f_equal; lia).
  - unfold add_coord. cbn [fst snd]. replace (x + 0) with x by lia.
    destruct HB as [?|H1]; [done|].
    apply (ok_bonds s Hok) in H1 as [_ H1].
    change ((1 + 2) mod 4) with 3 in H1. change (shift_of 1) with (-1, 1) in H1.
    unfold add_coord in H1. cbn [fst snd] in H1.
    by replace (x + 1 + -1, y + 1) with (x, y + 1) in H1 by (f_equal; lia).
Qed.

Lemma bonds_never_cross_witness :
  bonds (cell demo_completed.1 (1, 1)) = [0] ∧
  ¬ ((0 ∈ bonds (cell demo_completed.1 (1, 1)) ∨
      2 ∈ bonds (cell demo_completed.1 (1 + 1, 1 + 1))) ∧
     (3 ∈ bonds (cell demo_completed.1 (1, 1 + 1)) ∨
      1 ∈ bonds (cell demo_completed.1 (1 + 1, 1)))).
Proof.
  split; [vm_compute; reflexivity|].
  exact (bonds_never_cross demo_completed.1 demo_completed_reachable 1 1).
Defined.

(** ** The convergence loop, from outside *)

Lemma step_nil grow_prop s g : active_cells s = [] → step grow_prop s g = Ok (s, g).
Proof.
  intros H. unfold step. rewrite H. cbn [shuffle]. destruct s as [r n j a].
  simpl in H. subst a. done.
Qed.

Lemma steps_loop_report grow_prop budget l : ∀ s g s' g' r,
  steps_loop grow_prop budget l s g = Ok (s', g', r) →
  ∃ n, step_n n grow_prop s g = Ok (s', g') ∧
    (∀ m s1 g1, (0 < m < n)%nat → step_n m grow_prop s g = Ok (s1, g1) →
                active_cells s1 ≠ []) ∧
    ((∃ i, r = Converged i ∧ l !! (n - 1)%nat = Some i ∧ (0 < n)%nat ∧
           active_cells s' = []) ∨
     (r = DidNotConverge budget ∧ n = length l ∧
      ((0 < n)%nat → active_cells s' ≠ []))).
Proof.
  induction l as [|i l IH]; intros s g s' g' r; cbn [steps_loop].
  - intros H%Ok_inj. injection H as <- <- <-. exists 0%nat.
    split_and!; [done | lia |]. right. split_and!; [done | done | lia].
  - rewrite bind_Ok. intros ([s1 g1] & Hstep & H).
    destruct (active_cells s1) as [|a rest] eqn:Hact.
    + apply Ok_inj in H. injection H as <- <- <-. exists 1%nat.
      split_and!.
      * cbn [step_n]. by rewrite Hstep.
      * lia.
      * left. exists i. split_and!; [done | done | lia | done].
    + destruct (IH _ _ _ _ _ H) as (n & Hn & Hmid & Hend). exists (S n).
      split_and!.
      * cbn [step_n]. by rewrite Hstep, ret_bind.
      * intros [|m] s2 g2 Hm; [lia|]. cbn [step_n]. rewrite Hstep, ret_bind.
        destruct m as [|m].
        -- cbn [step_n]. intros E%Ok_inj. injection E as <- _. by rewrite Hact.
        -- apply Hmid. lia.
      * destruct Hend as [(j & -> & Hj & Hpos & He) | (-> & -> & Hne)].
        -- left. exists j. split_and!; [done | | lia | done].
           by replace (S n - 1)%nat with (S (n - 1)) by lia.
        -- right. split_and!; [done | done |]. intros _.
           destruct l as [|i' l]; [|apply Hne; simpl; lia].
           cbn [steps_loop] in H. apply Ok_inj in H. injection H as <- _.
           by rewrite Hact.
Qed.

(** ** A grid without empty cells *)

Lemma complete_full s g :
  Inv s → (∀ p, in_grid (res s) p → empty (cell s p) = false) →
  complete s g = Ok (s, g).
Proof.
  intros HI Hfull. unfold complete.
  destruct (for_each_inv (λ _ (st : Jigsaw * Rng), st = (s, g)) (range (res s))
    (λ i sg, for_each (range (res sg.1)) (λ j sg, complete_cell (i, j) sg) sg)
    (s, g)) as (st & -> & ->); [done | | done].
  intros _ i st -> Hi%elem_of_seqZ. exists (s, g). split; [|done]. cbn [fst].
  destruct (for_each_inv (λ _ (st : Jigsaw * Rng), st = (s, g)) (range (res s))
    (λ j sg, complete_cell (i, j) sg) (s, g)) as (st & -> & ->); [done | | done].
  intros _ j st -> Hj%elem_of_seqZ. exists (s, g). split; [|done].
  assert (in_grid (res s) (i, j)) as Hin by (split; simpl; lia).
  unfold complete_cell. rewrite getitem_id, ret_bind by done.
  unfold unclaimed. by rewrite (Hfull _ Hin).
Qed.

Lemma step_full grow_prop s g :
  Inv s → (∀ p, in_grid (res s) p → empty (cell s p) = false) →
  ∃ s' g', step grow_prop s g = Ok (s', g') ∧ active_cells s' = [] ∧
    same_claims s s' ∧ ∀ p, p ∈ active_cells s → active (cell s' p) = false.
Proof.
  intros HI Hfull.
  destruct (step_inv
    (λ pre s1 new, new = [] ∧ same_claims s s1 ∧
                   ∀ p, p ∈ pre → active (cell s1 p) = false) grow_prop s g HI)
    as (s1 & g1 & new & Hrun & _ & _ & -> & Hsc & Hact).
  - intros l. split_and!; [done | by split | by intros p ?%elem_of_nil].
  - intros pre coo s1 g1 new1 s2 g2 new2 Hin Hok1 Hext1 Hint1 Hne1
      (-> & Hsc & Hact) Hout.
    assert (free_list s1 coo = []) as Hnone.
    { destruct (free_list s1 coo) as [|k l] eqn:Hfl; [done|]. exfalso.
      assert (k ∈ free_list s1 coo) as Hk by (rewrite Hfl; by left).
      apply elem_of_free_list_ok in Hk as (Hk & He & _); [|done..].
      rewrite (sc_empty _ _ Hsc), Hfull in He; [done|].
      rewrite <- (sc_res _ _ Hsc). by apply neighbor_in_grid. }
    inversion Hout as [HF | k g3 r g4 Hc Hr Hlt | k g3 r g4 Hc Hr Hlt]; subst;
      try (rewrite Hnone in Hc; discriminate).
    split_and!; [done | |].
    + apply (same_claims_trans _ s1); [done|].
      apply (same_claims_trans _ (found s1 coo)); by apply same_claims_modify.
    + intros p [Hp | ->%list_elem_of_singleton]%elem_of_app.
      * rewrite cell_modify. case_decide; [done|].
        unfold found. destruct (decide (coo = p)) as [->|?].
        -- rewrite cell_modify_eq. by apply Hact.
        -- rewrite cell_modify_ne by done. by apply Hact.
      * by rewrite cell_modify_eq.
  - exists (set_active_cells [] s1), g1. split_and!; [done | done | |].
    + destruct Hsc. by split.
    + intros p Hp. rewrite cell_set_active_cells. apply Hact.
      by rewrite (shuffle_perm (active_cells s) g).
Qed.

(** ** Seeding at the edges *)

Lemma seed_piece_none min_dist c s g :
  0 < res s →
  (∀ i, (i < 1000)%nat → acceptable min_dist s (sample (res s) g i) = false) →
  seed_piece min_dist c (s, g) = Ok (s, skip 2000 g).
Proof.
  intros Hres Hnone. unfold seed_piece.
  change (skip 2000 g) with (skip (2 * N.of_nat 1000) g).
  by apply (seed_loop_spec c min_dist s Hres 1000 g
              (Local (set_empty false (Dot_init 0 0))) eq_refl).
Qed.

Lemma seed_piece_raise min_dist c s g :
  res s ≤ 0 → seed_piece min_dist c (s, g) = Raise ValueError.
Proof.
  intros Hres. unfold seed_piece.
  change (seed_loop 1000) with (seed_loop (S 999)).
  by rewrite seed_loop_raise.
Qed.

Lemma for_each_const {A S} (l : list A) (body : A → S → result S)
    (f : S → S) (P : S → Prop) s :
  P s → (∀ s, P s → P (f s)) →
  (∀ x s, x ∈ l → P s → body x s = Ok (f s)) →
  for_each l body s = Ok (Nat.iter (length l) f s).
Proof.
  intros HP Hf Hb. revert s HP. induction l as [|x l IH]; intros s HP; [done|].
  cbn [for_each]. rewrite Hb, ret_bind; [|by left|done].
  rewrite IH; [|intros; apply Hb; [by right|done] | by apply Hf].
  simpl. f_equal. clear. induction (length l) as [|n IHn]; [done|].
  simpl. by rewrite <- IHn.
Qed.

Lemma skip_zero g : skip 0 g = g.
Proof. destruct g. unfold skip. simpl. f_equal. lia. Qed.

Lemma iter_skip {A} (k : nat) (m : N) (a : A) g :
  Nat.iter k (λ st : A * Rng, (st.1, skip m st.2)) (a, g)
  = (a, skip (N.of_nat k * m) g).
Proof.
  induction k as [|k IH]; simpl.
  - by rewrite skip_zero.
  - rewrite IH. cbn [fst snd]. rewrite skip_skip. do 2 f_equal. lia.
Qed.

(** X8. What [steps] reports.  On a grid produced by construction and
    any operations [steps] returns.  When it returns, it has run [step]
    some number [n] of times in a row, with a non-empty active list after
    each call but the last; it reports convergence at [n - 1] (an index
    below the budget) exactly when the active list is empty after the
    last call, and otherwise it has used the whole budget.  With a budget
    of 0 or less it runs no step and reports no convergence, whatever the
    active list. *)
Theorem steps_report budget grow_prop s g :
  (reachable s → ∃ s' g' r, steps budget grow_prop s g = Ok (s', g', r)) ∧
  ∀ s' g' r, steps budget grow_prop s g = Ok (s', g', r) →
    ∃ n, step_n n grow_prop s g = Ok (s', g') ∧
      (∀ m s1 g1, (0 < m < n)%nat → step_n m grow_prop s g = Ok (s1, g1) →
                  active_cells s1 ≠ []) ∧
      ((r = Converged (Z.of_nat n - 1) ∧ 0 < Z.of_nat n ≤ budget ∧
        active_cells s' = []) ∨
       (r = DidNotConverge budget ∧ Z.of_nat n = Z.max budget 0 ∧
        (0 < budget → active_cells s' ≠ []))).
Proof.
  split.
  - intros HI%reachable_Inv.
    destruct (steps_Inv budget grow_prop s g HI) as (s' & g' & r & H & _). eauto.
  - intros s' g' r Hrun.
    destruct (steps_loop_report _ _ _ _ _ _ _ _ Hrun)
      as (n & Hn & Hmid & [(i & -> & Hi & Hpos & He) | (-> & -> & Hne)]).
    + exists n. split_and!; [done | done |]. left.
      apply lookup_seqZ in Hi as [-> Hlt].
      split_and!; [f_equal; lia | lia | lia | done].
    + exists (length (range budget)). split_and!; [done | done |]. right.
      unfold range in *. rewrite length_seqZ in *.
      split_and!; [done | lia |]. intros Hb. apply Hne. lia.
Qed.

Lemma steps_report_witness :
  ∃ n, step_n n 1 demo_seeded.1 demo_seeded.2 = Ok (demo_done.1, demo_done.2) ∧
    (∀ m s1 g1, (0 < m < n)%nat →
                step_n m 1 demo_seeded.1 demo_seeded.2 = Ok (s1, g1) →
                active_cells s1 ≠ []) ∧
    ((Converged 4 = Converged (Z.of_nat n - 1) ∧ 0 < Z.of_nat n ≤ 25 ∧
      active_cells demo_done.1 = []) ∨
     (Converged 4 = DidNotConverge 25 ∧ Z.of_nat n = Z.max 25 0 ∧
      (0 < 25 → active_cells demo_done.1 ≠ []))).
Proof.
  apply (proj2 (steps_report 25 1 demo_seeded.1 demo_seeded.2)
           demo_done.1 demo_done.2 (Converged 4)).
  vm_compute. reflexivity.
Defined.

(** X9. A converged grid is a fixed point of the growth: when the active
    list is empty, [step] changes nothing and draws no random number, and
    [steps] with a positive budget stops after its first call of [step],
    reporting convergence at step 0. *)
Theorem converged_fixpoint budget grow_prop s g :
  active_cells s = [] →
  step grow_prop s g = Ok (s, g) ∧
  (0 < budget → steps budget grow_prop s g = Ok (s, g, Converged 0)).
Proof.
  intros Hact. split; [by apply step_nil|]. intros Hb.
  unfold steps, range. rewrite seqZ_cons by done. cbn [steps_loop].
  by rewrite step_nil, ret_bind, Hact.
Qed.

Lemma converged_fixpoint_witness :
  step 1 demo_done.1 demo_done.2 = Ok (demo_done.1, demo_done.2) ∧
  (0 < 500 → steps 500 1 demo_done.1 demo_done.2
             = Ok (demo_done.1, demo_done.2, Converged 0)).
Proof.
  apply (converged_fixpoint 500 1 demo_done.1 demo_done.2).
  vm_compute. reflexivity.
Defined.

(** X10. [complete] is idempotent: on the grid a call of [complete]
    leaves, a second call changes nothing and draws no random number. *)
Theorem complete_idempotent s g s' g' :
  reachable s → complete s g = Ok (s', g') →
  ∀ g2, complete s' g2 = Ok (s', g2).
Proof.
  intros HI%reachable_Inv Hrun g2.
  destruct (complete_spec s g HI) as (s1 & g1 & Hrun1 & HI1 & Hext & Hfull).
  rewrite Hrun in Hrun1. apply Ok_inj in Hrun1. injection Hrun1 as <- <-.
  apply complete_full; [done|]. intros p Hp. apply Hfull.
  by rewrite <- (ext_res _ _ Hext).
Qed.

Lemma complete_idempotent_witness :
  complete demo_completed.1 demo_rng = Ok (demo_completed.1, demo_rng).
Proof.
  apply (complete_idempotent demo_done.1 demo_done.2
           demo_completed.1 demo_completed.2 demo_done_reachable).
  vm_compute. reflexivity.
Defined.

(** X11. On a grid without empty cells (such as [complete] leaves) one
    call of [step], at any growth probability, deactivates every active
    cell and empties the active list, and changes no cell's claim, colour
    or bonds. *)
Theorem full_grid_settles grow_prop s g :
  reachable s →
  (∀ p d, jigsaw s !! p = Some d → empty d = false) →
  ∃ s' g', step grow_prop s g = Ok (s', g') ∧ active_cells s' = [] ∧
    (∀ p, p ∈ active_cells s → active (cell s' p) = false) ∧
    ∀ p, empty (cell s' p) = empty (cell s p) ∧
         color (cell s' p) = color (cell s p) ∧
         bonds (cell s' p) = bonds (cell s p).
Proof.
  intros HI%reachable_Inv Hfull.
  destruct (step_full grow_prop s g HI) as (s' & g' & Hrun & Hact & Hsc & Hoff).
  - intros p Hp. apply (Hfull p). by apply lookup_in_grid; [apply HI|].
  - exists s', g'. split_and!; [done..|]. intros p.
    by rewrite (sc_empty _ _ Hsc), (sc_color _ _ Hsc), (sc_bonds _ _ Hsc).
Qed.

Lemma demo_tiny_grid_init : Jigsaw_init 1 "rect" = Ok demo_tiny_grid.
Proof. vm_compute. reflexivity. Qed.

Lemma demo_tiny_run :
  initiate_pieces 1 1 demo_tiny_grid (mkRng (λ _, 1%N) 0) = Ok demo_tiny.
Proof. vm_compute. reflexivity. Qed.

Lemma demo_tiny_reachable : reachable demo_tiny.1.
Proof.
  apply (reach_op demo_tiny_grid);
    [apply (reach_init 1 "rect"), demo_tiny_grid_init|].
  apply (op_initiate_pieces _ _ 1 1 (mkRng (λ _, 1%N) 0) demo_tiny.2).
  rewrite demo_tiny_run. by destruct demo_tiny.
Qed.

Lemma demo_tiny_full p d :
  jigsaw demo_tiny.1 !! p = Some d → empty d = false.
Proof.
  intros [<- [Hi Hj]]%lookup_cell_Some;
    [|apply (reachable_Inv _ demo_tiny_reachable)].
  destruct p as [i j]. change (res demo_tiny.1) with 3 in Hi, Hj.
  cbn [fst snd] in Hi, Hj.
  assert (i = 0 ∨ i = 1 ∨ i = 2) as [-> | [-> | ->]] by lia;
    assert (j = 0 ∨ j = 1 ∨ j = 2) as [-> | [-> | ->]] by lia;
    vm_compute; reflexivity.
Qed.

Lemma full_grid_settles_witness :
  ∃ s' g', step (1 # 2) demo_tiny.1 demo_tiny.2 = Ok (s', g') ∧
    active_cells s' = [] ∧
    (∀ p, p ∈ active_cells demo_tiny.1 → active (cell s' p) = false) ∧
    ∀ p, empty (cell s' p) = empty (cell demo_tiny.1 p) ∧
         color (cell s' p) = color (cell demo_tiny.1 p) ∧
         bonds (cell s' p) = bonds (cell demo_tiny.1 p).
Proof.
  exact (full_grid_settles (1 # 2) demo_tiny.1 demo_tiny.2
           demo_tiny_reachable demo_tiny_full).
Defined.

Example demo_tiny_active : active_cells demo_tiny.1 = [(1, 1)].
Proof. vm_compute. reflexivity. Qed.

(** X12. The edges of [initiate_pieces].  With [num_pieces] 0 or less it
    places nothing and only records [num_pieces].  On a grid of side 0
    (as [Jigsaw(res=-2)] builds) and [num_pieces] at least 1 it raises
    [ValueError], from [np.random.choice(0, 2)].  On a grid of positive
    side without an unclaimed cell it places nothing: it draws its 1000
    coordinates for every piece and returns the grid with only
    [num_pieces] changed. *)
Theorem seeding_edges :
  (∀ n min_dist s g, n ≤ 0 →
     initiate_pieces n min_dist s g = Ok (set_num_pieces n s, g)) ∧
  (∀ n min_dist s g, res s ≤ 0 → 1 ≤ n →
     initiate_pieces n min_dist s g = Raise ValueError) ∧
  (∀ n min_dist s g, 0 < res s → 0 ≤ n →
     (∀ p, in_grid (res s) p → unclaimed (cell s p) = false) →
     initiate_pieces n min_dist s g
     = Ok (set_num_pieces n s, skip (Z.to_N n * 2000) g)).
Proof.
  split_and!.
  - intros n md s g Hn. unfold initiate_pieces, range2.
    change (num_pieces (set_num_pieces n s)) with n.
    by rewrite seqZ_nil by lia.
  - intros n md s g Hres Hn. unfold initiate_pieces, range2.
    change (num_pieces (set_num_pieces n s)) with n.
    rewrite seqZ_cons by lia. cbn [for_each].
    by rewrite seed_piece_raise.
  - intros n md s g Hres Hn Hfull. unfold initiate_pieces, range2.
    change (num_pieces (set_num_pieces n s)) with n.
    rewrite (for_each_const _ _
      (λ st : Jigsaw * Rng, (st.1, skip 2000 st.2))
      (λ st, st.1 = set_num_pieces n s)); [|done|done|].
    + rewrite length_seqZ, iter_skip. do 3 f_equal. lia.
    + intros c [s1 g1] _ Hs1. cbn [fst snd] in *. subst s1.
      apply seed_piece_none; [done|]. intros i _. unfold acceptable.
      change (res (set_num_pieces n s)) with (res s).
      change (cell (set_num_pieces n s) ?p) with (cell s p).
      rewrite (Hfull (sample (res s) g1 i)), andb_false_r; [done|].
      by apply sample_in_grid.
Qed.

Lemma demo_void_init : Jigsaw_init (-2) "rect" = Ok demo_void.
Proof. vm_compute. reflexivity. Qed.

Lemma seeding_edges_witness :
  initiate_pieces 0 1 demo_grid demo_rng = Ok (set_num_pieces 0 demo_grid, demo_rng) ∧
  initiate_pieces 3 1 demo_void demo_rng = Raise ValueError ∧
  initiate_pieces 3 1 demo_tiny.1 demo_rng
  = Ok (set_num_pieces 3 demo_tiny.1, skip (Z.to_N 3 * 2000) demo_rng).
Proof.
  destruct seeding_edges as (H1 & H2 & H3). split_and!.
  - apply H1. lia.
  - apply H2; [vm_compute; discriminate | lia].
  - apply H3; [reflexivity | lia |].
    intros p Hp. unfold unclaimed.
    rewrite (demo_tiny_full p (cell demo_tiny.1 p)); [done|].
    apply lookup_in_grid; [apply (reachable_Inv _ demo_tiny_reachable) | done].
Defined.

(** ** Seeds of a fresh grid *)

Lemma for_each_split_Ok {A S} (P : list A → S → Prop) (l : list A)
    (body : A → S → result S) (s s' : S) :
  P [] s →
  (∀ pre x rest s s', l = pre ++ x :: rest → P pre s → body x s = Ok s' →
     P (pre ++ [x]) s') →
  for_each l body s = Ok s' → P l s'.
Proof.
  intros H0 Hstep.
  assert (∀ todo pre s1, l = pre ++ todo → P pre s1 →
            for_each todo body s1 = Ok s' → P l s') as Hgen.
  { induction todo as [|x todo IH]; intros pre s1 Hl HP; cbn [for_each].
    - rewrite app_nil_r in Hl. subst. by intros [= <-].
    - rewrite bind_Ok. intros (s2 & Hb & Hrest).
      apply (IH (pre ++ [x]) s2); [by rewrite <- app_assoc | | done].
      by eapply Hstep. }
  by apply (Hgen l []).
Qed.

Lemma sq_dist_sym p q : sq_dist p q = sq_dist q p.
Proof. unfold sq_dist. ring. Qed.

Lemma apart_snoc min_dist l p :
  apart min_dist l →
  (∀ q, q ∈ l → (Q2R min_dist <= sqrt (IZR (sq_dist p q)))%R) →
  apart min_dist (l ++ [p]).
Proof.
  intros Hl Hp a b [Ha | ->%list_elem_of_singleton]%elem_of_app
    [Hb | ->%list_elem_of_singleton]%elem_of_app Hne.
  - by apply Hl.
  - rewrite sq_dist_sym. by apply Hp.
  - by apply Hp.
  - done.
Qed.

(** Seeding a freshly constructed grid with pieces [cs], all different:
    the seeds are pairwise apart, there is at most one per piece, and each
    colour is on one cell only. *)
Lemma seeds_from_fresh res0 bordertype s0 n min_dist cs g s g' :
  Jigsaw_init res0 bordertype = Ok s0 →
  (∀ c, c ∈ cs → 1 ≤ c) → NoDup cs →
  for_each cs (seed_piece min_dist) (set_num_pieces n s0, g) = Ok (s, g') →
  apart min_dist (active_cells s) ∧
  NoDup (active_cells s) ∧
  (length (active_cells s) ≤ length cs)%nat ∧
  (∀ p q c, color (cell s p) = Some c → color (cell s q) = Some c → p = q) ∧
  (∀ p c, color (cell s p) = Some c → c ∈ cs ∧ p ∈ active_cells s).
Proof.
  intros Hinit Hcs Hnd Hrun.
  pose proof (Jigsaw_init_Inv _ _ _ Hinit) as HI0.
  destruct (Jigsaw_init_Ok _ _ _ Hinit) as [_ Hm].
  assert (active_cells s0 = []) as Hact0 by (by destruct Hm as (_ & _ & ? & _)).
  assert (∀ p, color (cell s0 p) = None) as Hcol0.
  { intros p. destruct (cell_fresh_grid_any (res0 + 2) p) as (i & j & Hij).
    destruct (masked_cases _ _ _ p Hm) as [-> | ->]; by rewrite Hij. }
  apply (for_each_split_Ok
    (λ pre (st : Jigsaw * Rng),
       Inv st.1 ∧ apart min_dist (active_cells st.1) ∧
       NoDup (active_cells st.1) ∧
       (length (active_cells st.1) ≤ length pre)%nat ∧
       (∀ p q c, color (cell st.1 p) = Some c → color (cell st.1 q) = Some c →
                 p = q) ∧
       (∀ p c, color (cell st.1 p) = Some c →
               c ∈ pre ∧ p ∈ active_cells st.1))) in Hrun.
  - cbn [fst] in Hrun. by destruct Hrun as (_ & ? & ? & ? & ? & ?).
  - cbn [fst].
    change (active_cells (set_num_pieces n s0)) with (active_cells s0).
    rewrite Hact0. split_and!.
    + destruct HI0 as [[] ?]. by split.
    + by intros p q ?%elem_of_nil.
    + apply NoDup_nil_2.
    + done.
    + intros p q c. change (cell (set_num_pieces n s0) p) with (cell s0 p).
      by rewrite Hcol0.
    + intros p c. change (cell (set_num_pieces n s0) p) with (cell s0 p).
      by rewrite Hcol0.
  - intros pre c rest [s1 g1] [s2 g2] Hsplit (HI1 & Hap & Hnd1 & Hlen & Huniq & Hcol) Hb.
    cbn [fst] in *.
    assert (c ∈ cs) as Hc.
    { rewrite Hsplit. apply elem_of_app. right. by left. }
    assert (c ∉ pre) as Hfresh.
    { rewrite Hsplit in Hnd. apply NoDup_app in Hnd as (_ & Hd & _).
      intros Hin. apply (Hd c Hin). by left. }
    destruct (seed_piece_Inv _ _ _ _ _ _ Hb HI1 (Hcs c Hc)) as [HI2 Hext].
    split; [done|].
    apply seed_piece_Ok in Hb as [Hpos [(k & _ & Ha & _ & -> & _) | (_ & -> & _)]];
      [| |apply HI1].
    + set (p0 := sample (res s1) g1 k) in *.
      assert (in_grid (res s1) p0) as Hp0 by (by apply sample_in_grid).
      apply acceptable_spec in Ha as (He0 & _ & Hfar).
      destruct (place_spec c p0 s1) as (Hres & Hc0 & _ & _ & _ & Hl & Hother).
      rewrite (ok_coords s1 (proj1 HI1) p0 Hp0) in Hl.
      assert (p0 ∉ active_cells s1) as Hnew.
      { intros [_ Hne]%(proj2 HI1). congruence. }
      assert (∀ p c', color (cell (place c p0 s1) p) = Some c' →
                (p = p0 ∧ c' = c) ∨ (p ≠ p0 ∧ color (cell s1 p) = Some c')) as Hcases.
      { intros p c'. destruct (decide (p = p0)) as [-> | Hne].
        - rewrite Hc0. intros [= <-]. by left.
        - rewrite (Hother p Hne). by right. }
      rewrite Hl. split_and!.
      * by apply apart_snoc.
      * apply NoDup_app. split_and!; [done | | apply NoDup_singleton].
        by intros x Hx ->%list_elem_of_singleton.
      * rewrite !length_app. simpl. lia.
      * intros p q c' [[-> ->] | [Hp Hcp]]%Hcases [[-> Hq] | [Hq Hcq]]%Hcases.
        -- done.
        -- apply Hcol in Hcq as [? _]. done.
        -- apply Hcol in Hcp as [? _]. by subst.
        -- by apply (Huniq p q c').
      * intros p c' [[-> ->] | [Hp Hcp]]%Hcases.
        -- split; apply elem_of_app; right; by left.
        -- apply Hcol in Hcp as [? ?]. split; apply elem_of_app; by left.
    + split_and!; [done | done | rewrite length_app; simpl; lia | done |].
      intros p c' [? ?]%Hcol. split; [apply elem_of_app; by left | done].
Qed.


Lemma demo_pair_run :
  initiate_pieces 2 2 demo_grid (mkRng (λ n, (n * n + n + 1)%N) 0) = Ok demo_pair.
Proof. vm_compute. reflexivity. Qed.

Example demo_pair_active : active_cells demo_pair.1 = [(1, 3); (1, 1)].
Proof. vm_compute. reflexivity. Qed.


(** ** Counting the pieces *)

Lemma lookup_bump c counts c' :
  bump c counts !! c'
  = if decide (c = c') then Some (default 0 (counts !! c) + 1)
    else counts !! c'.
Proof.
  unfold bump. destruct (counts !! c) as [n|] eqn:Hn; case_decide; subst;
    by rewrite ?lookup_insert_eq, ?lookup_insert_ne.
Qed.

Lemma tally_spec (f : Z * Z → option Z) (l : list (Z * Z)) :
  ∀ (counts : gmap (option Z) Z) c,
    foldl (λ m p, bump (f p) m) counts l !! c
    = match length (filter (λ p, f p = c) l) with
      | O => counts !! c
      | S k => Some (default 0 (counts !! c) + Z.of_nat (S k))
      end.
Proof.
  induction l as [|p l IH]; intros counts c; [done|].
  cbn [foldl]. rewrite IH, lookup_bump, filter_cons.
  destruct (decide (f p = c)) as [->|Hne].
  - cbn [length]. destruct (length (filter _ l)); simpl; f_equal; lia.
  - done.
Qed.

Lemma for_each_pairs {S} (l1 l2 : list Z) (body : Z * Z → S → result S) (s0 : S) :
  for_each l1 (λ x st, for_each l2 (λ y st, body (x, y) st) st) s0
  = for_each (x ← l1; (λ y, (x, y)) <$> l2) body s0.
Proof.
  revert s0. induction l1 as [|x l1 IH]; intros s0; [done|].
  cbn [for_each mbind list_bind]. rewrite for_each_app, for_each_fmap.
  destruct (for_each l2 _ s0) as [s1|e]; [|done].
  rewrite !ret_bind. apply IH.
Qed.

Lemma for_each_grid {S} (R : Z) (body : Z * Z → S → result S) (s0 : S) :
  for_each (range R) (λ x st, for_each (range R) (λ y st, body (x, y) st) st) s0
  = for_each (grid_keys R) body s0.
Proof. apply for_each_pairs. Qed.

Lemma for_each_pure {A S} (l : list A) (body : A → S → result S)
    (f : S → A → S) (s0 : S) :
  (∀ x s, x ∈ l → body x s = Ok (f s x)) →
  for_each l body s0 = Ok (foldl f s0 l).
Proof.
  revert s0. induction l as [|x l IH]; intros s0 Hb; [done|].
  cbn [for_each foldl]. rewrite Hb, ret_bind by (by left).
  apply IH. intros y s1 Hy. apply Hb. by right.
Qed.

Lemma count_loop s :
  for_each (range (res s))
    (λ x counts, for_each (range (res s))
       (λ y counts, count_cell s (x, y) counts) counts) ∅
  = Ok (foldl (λ m p, bump (color (cell s p)) m) ∅ (grid_keys (res s))).
Proof.
  rewrite (for_each_grid (res s) (count_cell s)).
  apply for_each_pure. intros p m Hp%elem_of_grid_keys.
  unfold count_cell. by rewrite getitem_id.
Qed.

Lemma count_run s :
  count s
  = match cells_of_color s None with
    | O => Error KeyError
    | S _ => Value (delete None
               (foldl (λ m p, bump (color (cell s p)) m) ∅ (grid_keys (res s))))
    end.
Proof.
  unfold count. rewrite count_loop. cbn [lift mbind outcome_bind].
  rewrite tally_spec. unfold cells_of_color.
  by destruct (length _).
Qed.

Lemma cells_of_color_zero s c :
  cells_of_color s c = 0%nat ↔
  ∀ p, in_grid (res s) p → color (cell s p) ≠ c.
Proof.
  unfold cells_of_color. rewrite length_zero_iff_nil, filter_nil_iff.
  split; intros H p Hp; apply H; by apply elem_of_grid_keys.
Qed.

(** X14. What [count] returns.  On a grid produced by construction and
    any operations, of positive side, [count] returns a dictionary
    without the key [None] that maps every colour carried by some cell to
    the number of cells that carry it, and has no other key; its keys are
    piece colours, at least 1.  On a grid of side 0, as [Jigsaw(res=-2)]
    builds it, no cell has colour [None] and [del counts[None]] raises
    [KeyError]. *)
Theorem count_sizes s :
  reachable s →
  (0 < res s →
   ∃ counts, count s = Value counts ∧ counts !! None = None ∧
     ∀ c, counts !! Some c
          = match cells_of_color s (Some c) with
            | O => None
            | S k => Some (Z.of_nat (S k))
            end ∧
          (is_Some (counts !! Some c) → 1 ≤ c)) ∧
  (res s = 0 → count s = Error KeyError).
Proof.
  intros Hr.
  pose proof (reachable_Inv s Hr) as [Hok _].
  pose proof (reachable_Inv2 s Hr) as [Ht _].
  rewrite count_run. split.
  - intros Hres.
    assert (cells_of_color s None ≠ 0%nat) as Hwall.
    { intros Hz. apply (proj1 (cells_of_color_zero s None) Hz (0, 0)).
      - split; simpl; lia.
      - apply (td_border s Ht). intros [[? ?] _]. simpl in *. lia. }
    destruct (cells_of_color s None); [done|].
    eexists. split; [done|]. split; [by rewrite lookup_delete_eq|].
    intros c. rewrite lookup_delete_ne by done. rewrite tally_spec.
    fold (cells_of_color s (Some c)). rewrite lookup_empty. split; [done|].
    destruct (cells_of_color s (Some c)) eqn:Hn; [by intros [? [=]]|]. intros _.
    destruct (decide (1 ≤ c)) as [|Hc]; [done|]. exfalso.
    assert (cells_of_color s (Some c) = 0%nat) as Hz; [|by rewrite Hz in Hn].
    apply cells_of_color_zero. intros p _ Hp.
    apply (ok_color s Hok p) in Hp. lia.
  - intros Hres. unfold cells_of_color, grid_keys, range. by rewrite Hres.
Qed.

Lemma count_sizes_witness :
  (0 < res demo_completed.1 →
   ∃ counts, count demo_completed.1 = Value counts ∧ counts !! None = None ∧
     ∀ c, counts !! Some c
          = match cells_of_color demo_completed.1 (Some c) with
            | O => None
            | S k => Some (Z.of_nat (S k))
            end ∧
          (is_Some (counts !! Some c) → 1 ≤ c)) ∧
  (res demo_completed.1 = 0 → count demo_completed.1 = Error KeyError).
Proof. exact (count_sizes demo_completed.1 demo_completed_reachable). Defined.

Example count_example :
  count demo_completed.1 = Value {[Some 1 := 5; Some 1000 := 4]} ∧
  count demo_void = Error KeyError.
Proof. split; vm_compute; reflexivity. Qed.

(** ** Drawing the bonds *)

Lemma each_pairs {S} (l1 l2 : list Z) (body : Z * Z → S → outcome S) (s0 : S) :
  each l1 (λ x st, each l2 (λ y st, body (x, y) st) st) s0
  = each (x ← l1; (λ y, (x, y)) <$> l2) body s0.
Proof.
  revert s0. induction l1 as [|x l1 IH]; intros s0; [done|].
  cbn [each mbind list_bind].
  assert (∀ (l l' : list (Z * Z)) s1,
            each (l ++ l') body s1 = each l body s1 ≫= each l' body) as Happ.
  { induction l as [|p l IHl]; intros l' s1; [done|]. cbn [each app].
    destruct (body p s1) as [s2|e]; [|done]. apply IHl. }
  assert (∀ (l : list Z) s1,
            each ((λ y, (x, y)) <$> l) body s1
            = each l (λ y st, body (x, y) st) s1) as Hfmap.
  { induction l as [|y l IHl]; intros s1; [done|]. cbn [each fmap list_fmap].
    destruct (body (x, y) s1) as [s2|e]; [|done]. apply IHl. }
  rewrite Happ, Hfmap.
  destruct (each l2 _ s0) as [s1|e]; [|done]. apply IH.
Qed.

Lemma each_append {A B} (l : list A) (body : A → list B → outcome (list B))
    (f : A → list B) (acc : list B) :
  (∀ x acc, x ∈ l → body x acc = Value (acc ++ f x)) →
  each l body acc = Value (acc ++ (l ≫= f)).
Proof.
  revert acc. induction l as [|x l IH]; intros acc Hb.
  - by rewrite app_nil_r.
  - cbn [each]. rewrite Hb by (by left). cbn [mbind outcome_bind].
    rewrite IH by (intros; apply Hb; by right).
    by rewrite <- app_assoc.
Qed.

Lemma show_cell_run s p plots :
  in_grid (res s) p →
  (bonds (cell s p) ≠ [] → is_Some (color (cell s p))) →
  show_cell s p plots = Value (plots ++ cell_plots s p).
Proof.
  intros Hin Hcol. destruct p as [i j]. unfold show_cell, cell_plots.
  rewrite getitem_id by done. cbn [lift mbind outcome_bind fst snd].
  destruct (color (cell s (i, j))) as [c|] eqn:Hc.
  - cbn [mod9 mbind outcome_bind].
    destruct (mem 2 _), (mem 3 _); cbn [mbind outcome_bind];
      by rewrite <- ?app_assoc, ?app_nil_r.
  - destruct (bonds (cell s (i, j))) as [|k l] eqn:Hb.
    + by rewrite app_nil_r.
    + destruct Hcol as [? [=]]. done.
Qed.

Lemma bonded_colored s p :
  grid_ok s → tidy s → bonds (cell s p) ≠ [] → is_Some (color (cell s p)).
Proof.
  intros Hok Ht Hb. destruct (color (cell s p)) as [c|] eqn:Hc; [done|].
  destruct (empty (cell s p)) eqn:He.
  - by destruct (ok_empty s Hok p He) as (_ & _ & ?).
  - by destruct (td_wall s Ht p He Hc) as [_ ?].
Qed.

Lemma show_run s :
  grid_ok s → tidy s →
  show s = Value (grid_keys (res s) ≫= cell_plots s).
Proof.
  intros Hok Ht. unfold show. rewrite each_pairs. fold (grid_keys (res s)).
  rewrite (each_append _ _ (cell_plots s)); [done|].
  intros p acc Hp%elem_of_grid_keys. apply show_cell_run; [done|].
  by apply bonded_colored.
Qed.

Lemma elem_of_cell_plots s p pl :
  pl ∈ cell_plots s p ↔
  ∃ k c, (k = 2 ∨ k = 3) ∧ k ∈ bonds (cell s p) ∧ color (cell s p) = Some c ∧
         pl = segment p (add_coord p (shift_of k)) (c mod 9).
Proof.
  unfold cell_plots. destruct (color (cell s p)) as [c|].
  - rewrite elem_of_app. split.
    + intros [H | H].
      * destruct (mem 2 _) eqn:Hm; [|by apply elem_of_nil in H].
        apply list_elem_of_singleton in H as ->. apply mem_true in Hm.
        exists 2, c. split_and!; [by left | done | done | done].
      * destruct (mem 3 _) eqn:Hm; [|by apply elem_of_nil in H].
        apply list_elem_of_singleton in H as ->. apply mem_true in Hm.
        exists 3, c. split_and!; [by right | done | done | done].
    + intros (k & c' & [-> | ->] & Hk%mem_true & [= <-] & ->); rewrite Hk.
      * left. by apply list_elem_of_singleton.
      * right. by apply list_elem_of_singleton.
  - split; [by intros ?%elem_of_nil | by intros (? & ? & _ & _ & [=] & _)].
Qed.

Lemma elem_of_plots s pl :
  grid_ok s →
  pl ∈ (grid_keys (res s) ≫= cell_plots s) ↔
  ∃ p k c, (k = 2 ∨ k = 3) ∧ k ∈ bonds (cell s p) ∧ color (cell s p) = Some c ∧
           pl = segment p (add_coord p (shift_of k)) (c mod 9).
Proof.
  intros Hok. rewrite list_elem_of_bind. split.
  - intros (p & (k & c & ?)%elem_of_cell_plots & _). by exists p, k, c.
  - intros (p & k & c & Hk & Hb & Hc & ->). exists p. split.
    + apply elem_of_cell_plots. by exists k, c.
    + apply elem_of_grid_keys. by eapply bonds_in_grid.
Qed.

Lemma NoDup_plots s : NoDup (grid_keys (res s) ≫= cell_plots s).
Proof.
  apply NoDup_bind.
  - intros p p' pl _ _ (k & c & _ & _ & _ & ->)%elem_of_cell_plots
      (k' & c' & _ & _ & _ & E)%elem_of_cell_plots.
    unfold segment in E. destruct p, p'. by injection E as -> _ -> _.
  - intros p _. unfold cell_plots. destruct (color (cell s p)); [|apply NoDup_nil_2].
    destruct (mem 2 _), (mem 3 _); simpl;
      repeat first [apply NoDup_nil_2 | apply NoDup_singleton].
    apply NoDup_cons. split; [|apply NoDup_singleton].
    intros [= E]%list_elem_of_singleton. lia.
  - unfold grid_keys. apply NoDup_bind.
    + intros x x' p _ _ (y & -> & _)%list_elem_of_fmap
        (y' & [= -> _] & _)%list_elem_of_fmap.
      done.
    + intros x _. apply NoDup_fmap; [by intros y y' [= ->] | apply NoDup_seqZ].
    + apply NoDup_seqZ.
Qed.

(** X15. What [show] draws.  On a grid produced by construction and any
    operations [show] raises nothing ([d.color % 9] is never taken of
    [None]) and draws every bond exactly once: its calls of [plt.plot] are
    all different; each is the segment from a cell with bond 2 or 3 to the
    neighbour in that direction, in the colour of index [color % 9]; and
    for every bond [k] of a cell [p] towards [q], the segment between [p]
    and [q] is drawn in one direction only, from [p] when [k] is 2 or 3
    and from [q] when [k] is 0 or 1. *)
Theorem show_draws_bonds s :
  reachable s →
  ∃ plots, show s = Value plots ∧ NoDup plots ∧
    (∀ pl, pl ∈ plots ↔
       ∃ p k c, (k = 2 ∨ k = 3) ∧ k ∈ bonds (cell s p) ∧
                color (cell s p) = Some c ∧
                pl = segment p (add_coord p (shift_of k)) (c mod 9)) ∧
    (∀ p k, k ∈ bonds (cell s p) →
       ∃ c, color (cell s p) = Some c ∧
         ((segment p (add_coord p (shift_of k)) (c mod 9) ∈ plots ∧
           ¬ (segment (add_coord p (shift_of k)) p (c mod 9) ∈ plots) ∧
           (k = 2 ∨ k = 3)) ∨
          (segment (add_coord p (shift_of k)) p (c mod 9) ∈ plots ∧
           ¬ (segment p (add_coord p (shift_of k)) (c mod 9) ∈ plots) ∧
           (k = 0 ∨ k = 1)))).
Proof.
  intros Hr.
  pose proof (reachable_Inv s Hr) as [Hok _].
  pose proof (reachable_Inv2 s Hr) as [Ht _].
  exists (grid_keys (res s) ≫= cell_plots s).
  split_and!; [by apply show_run | apply NoDup_plots
    | intros pl; by apply elem_of_plots |].
  intros p k Hk.
  destruct (bonded_colored s p Hok Ht) as [c Hc].
  { intros Hb. rewrite Hb in Hk. by apply elem_of_nil in Hk. }
  exists c. split; [done|].
  destruct (ok_bonds s Hok p k Hk) as [Hrange Hrec].
  pose proof (td_bond_color s Ht p k Hk) as Hcq. rewrite Hc in Hcq.
  assert (∀ a b m, segment a b m ∈ (grid_keys (res s) ≫= cell_plots s) →
            b.2 = a.2 - 1) as Hdown.
  { intros a b m (p' & k' & c' & Hk' & _ & _ & E)%elem_of_plots; [|done].
    unfold segment in E. injection E as _ _ Ha Hb _. rewrite Ha, Hb.
    by destruct Hk' as [-> | ->]. }
  assert (k = 0 ∨ k = 1 ∨ k = 2 ∨ k = 3) as [-> | [-> | [-> | ->]]] by lia.
  - right. split_and!; [| |by left].
    + apply elem_of_plots; [done|].
      exists (add_coord p (shift_of 0)), 2, c.
      split_and!; [by left | done | done |].
      assert (add_coord (add_coord p (shift_of 0)) (shift_of 2) = p) as ->
        by (apply (shift_back p 0); lia).
      done.
    + intros E%Hdown. simpl in E. lia.
  - right. split_and!; [| |by right].
    + apply elem_of_plots; [done|].
      exists (add_coord p (shift_of 1)), 3, c.
      split_and!; [by right | done | done |].
      assert (add_coord (add_coord p (shift_of 1)) (shift_of 3) = p) as ->
        by (apply (shift_back p 1); lia).
      done.
    + intros E%Hdown. simpl in E. lia.
  - left. split_and!; [| |by left].
    + apply elem_of_plots; [done|]. exists p, 2, c. split_and!; [by left | done..].
    + intros E%Hdown. simpl in E. lia.
  - left. split_and!; [| |by right].
    + apply elem_of_plots; [done|]. exists p, 3, c. split_and!; [by right | done..].
    + intros E%Hdown. simpl in E. lia.
Qed.

Lemma show_draws_bonds_witness :
  ∃ plots, show demo_completed.1 = Value plots ∧ NoDup plots ∧
    (∀ pl, pl ∈ plots ↔
       ∃ p k c, (k = 2 ∨ k = 3) ∧ k ∈ bonds (cell demo_completed.1 p) ∧
                color (cell demo_completed.1 p) = Some c ∧
                pl = segment p (add_coord p (shift_of k)) (c mod 9)) ∧
    (∀ p k, k ∈ bonds (cell demo_completed.1 p) →
       ∃ c, color (cell demo_completed.1 p) = Some c ∧
         ((segment p (add_coord p (shift_of k)) (c mod 9) ∈ plots ∧
           ¬ (segment (add_coord p (shift_of k)) p (c mod 9) ∈ plots) ∧
           (k = 2 ∨ k = 3)) ∨
          (segment (add_coord p (shift_of k)) p (c mod 9) ∈ plots ∧
           ¬ (segment p (add_coord p (shift_of k)) (c mod 9) ∈ plots) ∧
           (k = 0 ∨ k = 1)))).
Proof. exact (show_draws_bonds demo_completed.1 demo_completed_reachable). Defined.

Example show_example :
  show demo_completed.1
  = Value [segment (1, 3) (2, 2) 1; segment (2, 2) (1, 1) 1;
           segment (2, 2) (3, 1) 1; segment (3, 3) (2, 2) 1].
Proof. vm_compute. reflexivity. Qed.

(** ** The outline of the pieces *)












Ltac eval_mem :=
  repeat match goal with
  | |- context [mem ?a ?l] =>
      let b := eval vm_compute in (mem a l) in change (mem a l) with b
  end.

(** X17. The quarter circle that [_draw_arc] builds for quadrant [quad]
    lies towards the neighbour of the same index: with [(sx, sy)] the
    shift of neighbour [quad] in [Dot.neighbors], it runs from
    [(x, y + sy r)] to [(x + sx r, y)], and its sweep flag is 1 for the
    quadrants 1 and 3.  Any [quad] outside 0..3 is drawn as quadrant 2. *)
Theorem arc_quadrant x y r quad stroke_width :
  (0 ≤ quad < 4 →
   (arc_from (_draw_arc x y r quad stroke_width)).1 = x ∧
   ((arc_from (_draw_arc x y r quad stroke_width)).2
    == y + inject_Z (shift_of quad).2 * r)%Q ∧
   ((arc_to (_draw_arc x y r quad stroke_width)).1
    == x + inject_Z (shift_of quad).1 * r)%Q ∧
   ((arc_to (_draw_arc x y r quad stroke_width)).2 == y)%Q ∧
   arc_radius (_draw_arc x y r quad stroke_width) = r ∧
   arc_flip (_draw_arc x y r quad stroke_width) = quad mod 2) ∧
  (¬ 0 ≤ quad < 4 →
   _draw_arc x y r quad stroke_width = _draw_arc x y r 2 stroke_width).
Proof.
  split.
  - intros Hq. unfold arc_to, _draw_arc.
    assert (quad = 0 ∨ quad = 1 ∨ quad = 2 ∨ quad = 3) as [-> | [-> | [-> | ->]]]
      by lia; eval_mem; cbn [arc_from arc_by arc_radius arc_flip fst snd].
    + change (shift_of 0) with (1, 1). cbn [fst snd].
      split_and!; [done | ring | ring | ring | done | done].
    + change (shift_of 1) with (-1, 1). cbn [fst snd].
      split_and!; [done | ring | ring | ring | done | done].
    + change (shift_of 2) with (-1, -1). cbn [fst snd].
      split_and!; [done | ring | ring | ring | done | done].
    + change (shift_of 3) with (1, -1). cbn [fst snd].
      split_and!; [done | ring | ring | ring | done | done].
  - intros Hq. unfold _draw_arc.
    assert (mem quad [0; 1] = false ∧ mem quad [0; 3] = false ∧
            mem quad [1; 3] = false) as (-> & -> & ->); [|done].
    unfold mem. rewrite !bool_decide_eq_false, !elem_of_cons, !elem_of_nil. lia.
Qed.

Lemma arc_quadrant_witness :
  (arc_from (_draw_arc 30 45 (15 / 2) 3 4)).1 = 30%Q ∧
  ((arc_from (_draw_arc 30 45 (15 / 2) 3 4)).2
   == 45 + inject_Z (shift_of 3).2 * (15 / 2))%Q ∧
  ((arc_to (_draw_arc 30 45 (15 / 2) 3 4)).1
   == 30 + inject_Z (shift_of 3).1 * (15 / 2))%Q ∧
  ((arc_to (_draw_arc 30 45 (15 / 2) 3 4)).2 == 45)%Q ∧
  arc_radius (_draw_arc 30 45 (15 / 2) 3 4) = (15 / 2)%Q ∧
  arc_flip (_draw_arc 30 45 (15 / 2) 3 4) = 3 mod 2.
Proof. apply (proj1 (arc_quadrant 30 45 (15 / 2) 3 4)). lia. Defined.

(** ** Colours in hexadecimal *)





Example cmap_to_hex_example :
  cmap_to_hex [1 # 2; 0%Q; 1%Q; 1%Q] = Value "#7f00ff"%string ∧
  cmap_to_hex [1 # 2; 1 # 2; 1 # 2; 1%Q] = Value "#7f7f7f"%string.
Proof. split; vm_compute; reflexivity. Qed.

(** ** Pieces are connected *)

Lemma linked_mono s s' p r :
  (∀ q k, k ∈ bonds (cell s q) → k ∈ bonds (cell s' q)) →
  linked s p r → linked s' p r.
Proof.
  intros Hb. induction 1 as [p | p k r Hk _ IH]; [constructor|].
  apply (linked_bond s' p k); [by apply Hb | done].
Qed.

Lemma rooted_refl s : rooted s s.
Proof. intros p c Hc _. exists p. split; [done | constructor]. Qed.

Lemma outcome_rooted grow_prop s0 coo s g new s' g' new' :
  grid_ok s → interior (res s) coo → empty (cell s coo) = false →
  rooted s0 s →
  cell_outcome grow_prop coo s g new (s', g', new') →
  rooted s0 s'.
Proof.
  intros Hok Hcoo Hne Hroot Hout.
  destruct (outcome_ok _ _ _ _ _ _ _ _ Hok Hcoo Hne Hout) as (_ & Hext & _).
  destruct (outcome_fields _ _ _ _ _ _ _ _ Hok Hcoo Hne Hout)
    as [(_ & _ & Hf) | [(_ & _ & Hf) | (k & _ & Hk & Hf)]].
  - intros p c. destruct (Hf p) as (_ & -> & _). intros Hc Hn.
    destruct (Hroot p c Hc Hn) as (r & Hr & Hl). exists r. split; [done|].
    apply (linked_mono s); [apply (ext_bonds _ _ Hext) | done].
  - intros p c. destruct (Hf p) as (_ & -> & _). intros Hc Hn.
    destruct (Hroot p c Hc Hn) as (r & Hr & Hl). exists r. split; [done|].
    apply (linked_mono s); [apply (ext_bonds _ _ Hext) | done].
  - cbv zeta in Hf. destruct Hf as (Hqe & _ & Hqc & _ & Hf).
    intros p c. destruct (Hf p) as (_ & Hcol & _ & Hb). rewrite Hcol.
    destruct (decide (p = add_coord coo (shift_of k))) as [->|Hpq].
    + intros Hc Hn. destruct (Hroot coo c Hc Hn) as (r & Hr & Hl).
      exists r. split; [done|].
      apply (linked_bond s' _ ((k + 2) mod 4)).
      * rewrite Hb. apply elem_of_app. right. apply elem_of_app. left. by left.
      * rewrite shift_back by done.
        apply (linked_mono s); [apply (ext_bonds _ _ Hext) | done].
    + intros Hc Hn. destruct (Hroot p c Hc Hn) as (r & Hr & Hl).
      exists r. split; [done|].
      apply (linked_mono s); [apply (ext_bonds _ _ Hext) | done].
Qed.

Lemma rooted_set_active_cells s0 s l :
  rooted s0 s → rooted s0 (set_active_cells l s).
Proof.
  intros Hroot p c Hc Hn. destruct (Hroot p c Hc Hn) as (r & Hr & Hl).
  exists r. split; [done|]. by apply (linked_mono s).
Qed.

Lemma step_rooted grow_prop s0 s g s' g' :
  Inv s → rooted s0 s → step grow_prop s g = Ok (s', g') → rooted s0 s'.
Proof.
  intros HI Hroot Hrun.
  destruct (step_inv (λ _ s1 _, rooted s0 s1) grow_prop s g HI)
    as (s1 & g1 & new & Hrun' & _ & _ & Hr1).
  - intros l. by apply rooted_set_active_cells.
  - intros pre coo s1 g1 new1 s2 g2 new2 _ Hok1 _ Hint1 Hne1 Hr1 Hout.
    by eapply outcome_rooted.
  - rewrite Hrun in Hrun'. apply Ok_inj in Hrun'. injection Hrun' as -> _.
    by apply rooted_set_active_cells.
Qed.

Lemma fill_rooted s0 s p :
  Inv s → rooted s0 s → in_grid (res s) p → unclaimed (cell s p) = true →
  rooted s0 (set_active_cells (active_cells s ++ [p])
               (modify p (set_color (Some filler_color) ∘ set_empty false) s)).
Proof.
  intros HI Hroot Hin Hu q c. rewrite cell_set_active_cells.
  rewrite cell_modify. case_decide as Hq.
  - subst q. simpl. by intros [= <-].
  - intros Hc Hn. destruct (Hroot q c Hc Hn) as (r & Hr & Hl).
    exists r. split; [done|]. apply (linked_mono s); [|done].
    intros x k. change (cell (set_active_cells ?l ?s) ?p) with (cell s p).
    by rewrite (proj_modify bonds).
Qed.

Lemma growth_Inv s s' : Inv s → growth s s' → Inv s'.
Proof.
  intros HI [gp g g' H | b gp g g' r H | g g' H].
  - by apply (operation_Inv s s' HI), (op_step _ _ gp g g').
  - by apply (operation_Inv s s' HI), (op_steps _ _ b gp g g' r).
  - by apply (operation_Inv s s' HI), (op_complete _ _ g g').
Qed.

Lemma growth_rooted s0 s s' :
  Inv s → rooted s0 s → growth s s' → rooted s0 s'.
Proof.
  intros HI Hroot [gp g g' H | b gp g g' r H | g g' H].
  - by eapply step_rooted.
  - eapply (steps_loop_preserves (rooted s0)); [|done|done|exact H].
    intros. by eapply step_rooted.
  - eapply (complete_preserves (rooted s0)); [| |done|done|exact H].
    + intros. by apply fill_rooted.
    + intros. by eapply step_rooted.
Qed.

Lemma growths_rooted s0 s s' :
  Inv s → rooted s0 s → rtc growth s s' → rooted s0 s'.
Proof.
  intros HI Hroot Hg. revert HI Hroot.
  induction Hg as [s | s s1 s2 Hg _ IH]; intros HI Hroot; [done|].
  apply IH; [by eapply growth_Inv | by eapply growth_rooted].
Qed.

(** X19. Pieces are connected.  After seeding a freshly constructed grid
    and any sequence of [step], [steps] and [complete], every cell with a
    piece colour other than the filler colour 1000 is joined by a chain of
    bonds to the seed of its piece, the one cell that had this colour
    after seeding. *)
Theorem pieces_connected res0 bordertype s0 n min_dist g s1 g1 s :
  Jigsaw_init res0 bordertype = Ok s0 →
  initiate_pieces n min_dist s0 g = Ok (s1, g1) →
  rtc growth s1 s →
  ∀ p c, color (cell s p) = Some c → c ≠ filler_color →
    ∃ r, color (cell s1 r) = Some c ∧ linked s p r ∧
         ∀ r', color (cell s1 r') = Some c → r' = r.
Proof.
  intros Hinit Hseed Hg p c Hc Hn.
  pose proof (Jigsaw_init_Inv _ _ _ Hinit) as HI0.
  destruct (operation_Inv s0 s1 HI0 (op_initiate_pieces _ _ _ _ _ _ Hseed))
    as [HI1 _].
  destruct (growths_rooted s1 s1 s HI1 (rooted_refl s1) Hg p c Hc Hn)
    as (r & Hr & Hl).
  exists r. split_and!; [done | done |]. intros r' Hr'.
  unfold initiate_pieces, range2 in Hseed.
  apply (seeds_from_fresh _ _ _ _ _ _ _ _ _ Hinit) in Hseed
    as (_ & _ & _ & Huniq & _).
  - by apply (Huniq r' r c).
  - intros x Hx%elem_of_seqZ. lia.
  - apply NoDup_seqZ.
Qed.

Lemma demo_growths : rtc growth demo_seeded.1 demo_completed.1.
Proof.
  destruct demo_done_run as [r Hr].
  apply (rtc_l _ _ demo_done.1).
  - by apply (gr_steps _ _ 25 1 demo_seeded.2 demo_done.2 r).
  - apply rtc_once, (gr_complete _ _ demo_done.2 demo_completed.2).
    rewrite demo_completed_run. by destruct demo_completed.
Qed.

Lemma pieces_connected_witness :
  ∃ r, color (cell demo_seeded.1 r) = Some 1 ∧ linked demo_completed.1 (3, 3) r ∧
       ∀ r', color (cell demo_seeded.1 r') = Some 1 → r' = r.
Proof.
  apply (pieces_connected 3 "rect" demo_grid 1 1 demo_rng
           demo_seeded.1 demo_seeded.2 demo_completed.1).
  - vm_compute. reflexivity.
  - vm_compute. reflexivity.
  - exact demo_growths.
  - vm_compute. reflexivity.
  - vm_compute. discriminate.
Defined.

(** ** The growth rule *)

(** The cell [q] was claimed from the cell [p] through direction [k]. *)
Lemma outcome_grown grow_prop coo pre s s1 g1 new1 s2 g2 new2 :
  grid_ok s1 → extends s s1 → interior (res s1) coo →
  empty (cell s coo) = false → is_Some (color (cell s coo)) → coo ∉ pre →
  (∀ q, empty (cell s q) = true → empty (cell s1 q) = false →
     ∃ p k, p ∈ pre ∧ 0 ≤ k < 4 ∧ q = add_coord p (shift_of k) ∧
            bonds (cell s1 q) = [(k + 2) mod 4] ∧ k ∈ bonds (cell s1 p) ∧
            color (cell s1 q) = color (cell s p) ∧
            active (cell s1 q) = true ∧ q ∈ new1) →
  cell_outcome grow_prop coo s1 g1 new1 (s2, g2, new2) →
  (∀ q, empty (cell s q) = true → empty (cell s2 q) = false →
     ∃ p k, p ∈ pre ++ [coo] ∧ 0 ≤ k < 4 ∧ q = add_coord p (shift_of k) ∧
            bonds (cell s2 q) = [(k + 2) mod 4] ∧ k ∈ bonds (cell s2 p) ∧
            color (cell s2 q) = color (cell s p) ∧
            active (cell s2 q) = true ∧ q ∈ new2) ∧
  (∀ q, empty (cell s q) = true → empty (cell s1 q) = false →
        bonds (cell s2 q) = bonds (cell s1 q)) ∧
  (∀ q, empty (cell s1 q) = true → empty (cell s2 q) = false →
        ∃ k, 0 ≤ k < 4 ∧ q = add_coord coo (shift_of k) ∧
             bonds (cell s2 q) = [(k + 2) mod 4]) ∧
  (∀ q q', empty (cell s1 q) = true → empty (cell s2 q) = false →
           empty (cell s1 q') = true → empty (cell s2 q') = false → q = q').
Proof.
  intros Hok1 Hext1 Hint1 Hne [c Hc] Hfresh HQ Hout.
  pose proof (ext_empty _ _ Hext1 coo Hne) as Hne1.
  pose proof (ext_color _ _ Hext1 coo c Hc) as Hc1.
  destruct (outcome_ok _ _ _ _ _ _ _ _ Hok1 Hint1 Hne1 Hout) as (_ & Hext2 & _).
  assert (∀ q, empty (cell s q) = true → q ≠ coo) as Hnc
    by (intros q Hq ->; congruence).
  destruct (outcome_fields _ _ _ _ _ _ _ _ Hok1 Hint1 Hne1 Hout)
    as [(_ & -> & Hf) | [(_ & -> & Hf) | (k & _ & Hk & Hf)]].
  - split_and!.
    + intros q He He2. destruct (Hf q) as (Hqe & Hqc & Hqb & Hqa).
      rewrite Hqe in He2. destruct (HQ q He He2) as (p & k & Hp & Hk & -> & Hb & Hkp & Hcol & Ha & Hin).
      exists p, k. destruct (Hf p) as (_ & _ & Hpb & _).
      rewrite Hqb, Hpb, Hqc, Hqa, decide_False by (by apply Hnc).
      split_and!; try done; try lia. apply elem_of_app. by left.
    + intros q _ _. by destruct (Hf q) as (_ & _ & -> & _).
    + intros q He He2. destruct (Hf q) as (Hqe & _). congruence.
    + intros q q' He He2. destruct (Hf q) as (Hqe & _). congruence.
  - split_and!.
    + intros q He He2. destruct (Hf q) as (Hqe & Hqc & Hqb & Hqa).
      rewrite Hqe in He2. destruct (HQ q He He2) as (p & k & Hp & Hk & -> & Hb & Hkp & Hcol & Ha & Hin).
      exists p, k. destruct (Hf p) as (_ & _ & Hpb & _).
      rewrite Hqb, Hpb, Hqc, Hqa.
      split_and!; try done; try lia; apply elem_of_app; by left.
    + intros q _ _. by destruct (Hf q) as (_ & _ & -> & _).
    + intros q He He2. destruct (Hf q) as (Hqe & _). congruence.
    + intros q q' He He2. destruct (Hf q) as (Hqe & _). congruence.
  - cbv zeta in Hf. destruct Hf as (Hqe & _ & Hqc & -> & Hf).
    destruct (ok_empty _ Hok1 _ Hqe) as (_ & _ & Hqb).
    split_and!.
    + intros q He He2. destruct (Hf q) as (Hq1 & Hq2 & Hq3 & Hq4).
      destruct (decide (q = add_coord coo (shift_of k))) as [->|Hne0].
      * exists coo, k. destruct (Hf coo) as (_ & _ & _ & Hcb).
        rewrite Hq4, Hq2, Hq3, Hqb, Hcb, Hc1, Hc.
        rewrite (decide_True (P := coo = coo)) by done.
        rewrite (decide_False (P := add_coord coo (shift_of k) = coo)) by done.
        rewrite (decide_False (P := coo = add_coord coo (shift_of k)))
          by (by intros E; symmetry in E).
        split_and!; try done; try lia.
        -- apply elem_of_app. right. by left.
        -- apply elem_of_app. right. apply elem_of_app. right. by left.
        -- apply elem_of_app. right. by left.
      * rewrite Hq1 in He2.
        destruct (HQ q He He2) as (p & k' & Hp & Hk' & -> & Hb & Hkp & Hcol & Ha & Hin).
        exists p, k'. destruct (Hf p) as (_ & _ & _ & Hpb).
        rewrite Hq4, Hq2, Hq3, Hpb, Hb.
        rewrite !(decide_False (P := add_coord p (shift_of k') = coo))
          by (by apply Hnc).
        rewrite app_nil_r.
        split_and!; try done; try lia.
        -- apply elem_of_app. by left.
        -- apply elem_of_app. by left.
        -- apply elem_of_app. by left.
    + intros q He He1. destruct (Hf q) as (_ & _ & _ & ->).
      rewrite !decide_False; [by rewrite !app_nil_r | by apply Hnc |].
      intros ->. congruence.
    + intros q He1 He2. destruct (Hf q) as (Hq1 & _ & _ & Hq4).
      destruct (decide (q = add_coord coo (shift_of k))) as [->|?]; [|congruence].
      exists k. rewrite Hq4, Hqb. rewrite decide_False by done.
      split_and!; try done; lia.
    + intros q q' He1 He2 He1' He2'.
      destruct (Hf q) as (Hq1 & _). destruct (Hf q') as (Hq1' & _).
      destruct (decide (q = add_coord coo (shift_of k))) as [->|?]; [|congruence].
      destruct (decide (q' = add_coord coo (shift_of k))) as [->|?]; [|congruence].
      done.
Qed.


Lemma shift_inj p k k' :
  0 ≤ k < 4 → 0 ≤ k' < 4 →
  add_coord p (shift_of k) = add_coord p (shift_of k') → k = k'.
Proof.
  intros Hk Hk' E. destruct p as [x y].
  assert (k = 0 ∨ k = 1 ∨ k = 2 ∨ k = 3) as [-> | [-> | [-> | ->]]] by lia;
    assert (k' = 0 ∨ k' = 1 ∨ k' = 2 ∨ k' = 3) as [-> | [-> | [-> | ->]]] by lia;
    try done; unfold add_coord in E;
    change (shift_of 0) with (1, 1) in E; change (shift_of 1) with (-1, 1) in E;
    change (shift_of 2) with (-1, -1) in E; change (shift_of 3) with (1, -1) in E;
    cbn [fst snd] in E; injection E; lia.
Qed.

Lemma opposite_inj a b :
  0 ≤ a < 4 → 0 ≤ b < 4 → (a + 2) mod 4 = (b + 2) mod 4 → a = b.
Proof.
  intros Ha Hb E. rewrite <- (opposite_twice a), <- (opposite_twice b) by done.
  by rewrite E.
Qed.

Lemma add_coord_cancel p p' d : add_coord p d = add_coord p' d → p = p'.
Proof.
  destruct p, p', d. unfold add_coord. cbn [fst snd]. intros [= ? ?].
  f_equal; lia.
Qed.

Lemma step_grown grow_prop s g s' g' :
  Inv s → Inv2 s → step grow_prop s g = Ok (s', g') →
  (∀ q, empty (cell s q) = true → empty (cell s' q) = false →
     ∃ p k, p ∈ active_cells s ∧ 0 ≤ k < 4 ∧ q = add_coord p (shift_of k) ∧
            bonds (cell s' q) = [(k + 2) mod 4] ∧ k ∈ bonds (cell s' p) ∧
            color (cell s' q) = color (cell s p) ∧
            active (cell s' q) = true ∧ q ∈ active_cells s') ∧
  (∀ p k k', 0 ≤ k < 4 → 0 ≤ k' < 4 →
     empty (cell s (add_coord p (shift_of k))) = true →
     empty (cell s (add_coord p (shift_of k'))) = true →
     bonds (cell s' (add_coord p (shift_of k))) = [(k + 2) mod 4] →
     bonds (cell s' (add_coord p (shift_of k'))) = [(k' + 2) mod 4] →
     k = k').
Proof.
  intros HI [Ht Hl] Hrun.
  pose proof (shuffle_perm (active_cells s) g) as Hperm.
  assert (NoDup (shuffle (active_cells s) g).1) as Hnd
    by (rewrite Hperm; apply Hl).
  destruct (step_split
    (λ pre s1 new,
       (∀ q, empty (cell s q) = true → empty (cell s1 q) = false →
          ∃ p k, p ∈ pre ∧ 0 ≤ k < 4 ∧ q = add_coord p (shift_of k) ∧
                 bonds (cell s1 q) = [(k + 2) mod 4] ∧ k ∈ bonds (cell s1 p) ∧
                 color (cell s1 q) = color (cell s p) ∧
                 active (cell s1 q) = true ∧ q ∈ new) ∧
       (∀ p k k', 0 ≤ k < 4 → 0 ≤ k' < 4 →
          empty (cell s (add_coord p (shift_of k))) = true →
          empty (cell s (add_coord p (shift_of k'))) = true →
          bonds (cell s1 (add_coord p (shift_of k))) = [(k + 2) mod 4] →
          bonds (cell s1 (add_coord p (shift_of k'))) = [(k' + 2) mod 4] →
          k = k')) grow_prop s g HI)
    as (s1 & g1 & new & Hrun' & _ & _ & HA & HU).
  - change (cell (set_active_cells ?l ?s) ?p) with (cell s p). split.
    + intros q He He'. congruence.
    + intros p k k' _ _ He _ Hb _.
      destruct (ok_empty s (proj1 HI) _ He) as (_ & _ & Hb0). congruence.
  - intros pre coo rest s1 g1 new1 s2 g2 new2 Hsplit Hok1 Hext1 Hint1 Hne1
      [HA HU] Hout.
    assert (coo ∈ active_cells s) as Hcoo.
    { rewrite <- Hperm, Hsplit. apply elem_of_app. right. by left. }
    assert (coo ∉ pre) as Hfresh.
    { rewrite Hsplit in Hnd. apply NoDup_app in Hnd as (_ & Hd & _).
      intros Hin. apply (Hd coo Hin). by left. }
    destruct (proj2 HI coo Hcoo) as [_ Hne].
    destruct (listed_colored s _ coo Ht Hl Hcoo) as [c Hc].
    destruct (outcome_ok _ _ _ _ _ _ _ _ Hok1 Hint1 Hne1 Hout) as (Hok2 & _ & _).
    destruct (outcome_grown _ _ _ s _ _ _ _ _ _ Hok1 Hext1 Hint1 Hne
                (ex_intro _ c Hc) Hfresh HA Hout) as (HA2 & Hold & Hnow & Hone).
    split; [done|].
    intros p k k' Hk Hk' He He' Hb Hb'.
    assert (∀ j, 0 ≤ j < 4 →
              empty (cell s (add_coord p (shift_of j))) = true →
              bonds (cell s2 (add_coord p (shift_of j))) = [(j + 2) mod 4] →
              empty (cell s2 (add_coord p (shift_of j))) = false ∧
              ((empty (cell s1 (add_coord p (shift_of j))) = false ∧
                bonds (cell s1 (add_coord p (shift_of j))) = [(j + 2) mod 4] ∧
                p ∈ pre) ∨
               (empty (cell s1 (add_coord p (shift_of j))) = true ∧ p = coo)))
      as Hcase.
    { intros j Hj Hej Hbj.
      assert (empty (cell s2 (add_coord p (shift_of j))) = false) as He2.
      { destruct (empty (cell s2 _)) eqn:E; [|done].
        destruct (ok_empty s2 Hok2 _ E) as (_ & _ & Hnil). congruence. }
      split; [done|].
      destruct (empty (cell s1 (add_coord p (shift_of j)))) eqn:He1.
      - right. split; [done|].
        destruct (Hnow _ He1 He2) as (k0 & Hk0 & E & Hb0).
        rewrite Hbj in Hb0. injection Hb0 as Hmod.
        assert (k0 = j) as -> by (by apply opposite_inj).
        by apply add_coord_cancel in E.
      - left. rewrite (Hold _ Hej He1) in Hbj. split_and!; [done | done |].
        destruct (HA _ Hej He1) as (p2 & k2 & Hp2 & Hk2 & E & Hb2 & _).
        rewrite Hbj in Hb2. injection Hb2 as Hmod.
        assert (k2 = j) as -> by (by apply opposite_inj).
        by apply add_coord_cancel in E as ->. }
    destruct (Hcase k Hk He Hb) as [He2 [(He1 & Hb1 & Hp) | (He1 & Hp)]];
      destruct (Hcase k' Hk' He' Hb') as [He2' [(He1' & Hb1' & Hp') | (He1' & Hp')]].
    + by apply (HU p k k').
    + by subst p.
    + by subst p.
    + apply (shift_inj p); [done | done |]. by apply Hone.
  - rewrite Hrun in Hrun'. apply Ok_inj in Hrun'. injection Hrun' as -> _.
    change (cell (set_active_cells ?l ?s) ?p) with (cell s p).
    change (active_cells (set_active_cells new s1)) with new.
    split; [|done]. intros q He He'.
    destruct (HA q He He') as (p & k & Hp & Hrest). exists p, k.
    split; [by rewrite <- Hperm | done].
Qed.

(** X20. The growth rule of one generation.  When [step] returns on a
    grid produced by construction and any operations, every cell it has
    claimed is the diagonal neighbour [p + shift k] of a cell [p] that
    was in the active list before the call; it holds the single bond
    [(k + 2) mod 4] back to [p], which holds the bond [k]; it has the
    colour of [p], is active and is in the new active list.  And a cell
    claims at most one neighbour in a generation: two cells claimed from
    the same [p] are the same. *)
Theorem step_growth_rule grow_prop s g s' g' :
  reachable s → step grow_prop s g = Ok (s', g') →
  (∀ q, empty (cell s q) = true → empty (cell s' q) = false →
     ∃ p k, p ∈ active_cells s ∧ 0 ≤ k < 4 ∧ q = add_coord p (shift_of k) ∧
            bonds (cell s' q) = [(k + 2) mod 4] ∧ k ∈ bonds (cell s' p) ∧
            color (cell s' q) = color (cell s p) ∧
            active (cell s' q) = true ∧ q ∈ active_cells s') ∧
  (∀ p k k', 0 ≤ k < 4 → 0 ≤ k' < 4 →
     empty (cell s (add_coord p (shift_of k))) = true →
     empty (cell s (add_coord p (shift_of k'))) = true →
     bonds (cell s' (add_coord p (shift_of k))) = [(k + 2) mod 4] →
     bonds (cell s' (add_coord p (shift_of k'))) = [(k' + 2) mod 4] →
     k = k').
Proof.
  intros Hr Hrun. apply (step_grown grow_prop s g s' g'); [| |done].
  - by apply reachable_Inv.
  - by apply reachable_Inv2.
Qed.

Lemma step_growth_rule_witness :
  (∀ q, empty (cell demo_seeded.1 q) = true → empty (cell demo_grown.1 q) = false →
     ∃ p k, p ∈ active_cells demo_seeded.1 ∧ 0 ≤ k < 4 ∧
            q = add_coord p (shift_of k) ∧
            bonds (cell demo_grown.1 q) = [(k + 2) mod 4] ∧
            k ∈ bonds (cell demo_grown.1 p) ∧
            color (cell demo_grown.1 q) = color (cell demo_seeded.1 p) ∧
            active (cell demo_grown.1 q) = true ∧ q ∈ active_cells demo_grown.1) ∧
  (∀ p k k', 0 ≤ k < 4 → 0 ≤ k' < 4 →
     empty (cell demo_seeded.1 (add_coord p (shift_of k))) = true →
     empty (cell demo_seeded.1 (add_coord p (shift_of k'))) = true →
     bonds (cell demo_grown.1 (add_coord p (shift_of k))) = [(k + 2) mod 4] →
     bonds (cell demo_grown.1 (add_coord p (shift_of k'))) = [(k' + 2) mod 4] →
     k = k').
Proof.
  apply (step_growth_rule 1 demo_seeded.1 demo_seeded.2 demo_grown.1 demo_grown.2
           demo_seeded_reachable).
  vm_compute. reflexivity.
Defined.
